(** * pf-runner: the DSL interpreter and parallel dispatcher of [pf.py]
      and the sync support of [pf_parser.py], embedded in Rocq.

    Texts are [string]s of 8-bit characters; the embedding covers ASCII
    input (code points below 128), for which the character classes below
    are the ones Python uses.  Dictionaries whose iteration order is
    observable ([task_env], the interpreter's [env]) are association lists
    in insertion order; dictionaries that are only looked up are [gmap]s;
    sets are [gset]s.  External effects (processes, sessions, files) are
    recorded in a trace and answered by an explicit [world]. *)

From stdpp Require Import gmap strings list fin_maps sets.
From Stdlib Require Import ZArith Ascii String Permutation.
From stdpp Require Import list.

Set Warnings "-register-all,-clear-no-such-hyp".

(** ** Characters *)

Definition ord (c : ascii) : N := N_of_ascii c.

Definition in_range (lo hi : N) (c : ascii) : bool :=
  ((lo <=? ord c) && (ord c <=? hi))%N.

Definition is_digit (c : ascii) : bool := in_range 48 57 c.

Definition is_alpha (c : ascii) : bool := in_range 65 90 c || in_range 97 122 c.

(** [\w] of the [re] module on ASCII text. *)
Definition is_word (c : ascii) : bool := is_alpha c || is_digit c || Ascii.eqb c "_".

(** [str.isspace] on ASCII: TAB, LF, VT, FF, CR, FS, GS, RS, US and space. *)
Definition is_pyspace (c : ascii) : bool := in_range 9 13 c || in_range 28 32 c.

(** Line boundaries of [str.splitlines] on ASCII: LF, VT, FF, CR, FS, GS, RS. *)
Definition is_linebreak (c : ascii) : bool := in_range 10 13 c || in_range 28 30 c.

(** ** Exceptions *)

Inductive exn :=
| ValueError (msg : string)
| IndexError
| TypeError
| AttributeError
| OSError (msg : string).

Inductive result (A : Type) :=
| Ok (a : A)
| Raised (e : exn).

Arguments Ok {A} a.
Arguments Raised {A} e.

#[global] Instance result_ret : MRet result := @Ok.
#[global] Instance result_bind : MBind result :=
  fun A B f r => match r with Ok a => f a | Raised e => Raised e end.
#[global] Instance result_fmap : FMap result :=
  fun A B f r => match r with Ok a => Ok (f a) | Raised e => Raised e end.

(** ** Python string methods *)

Fixpoint startswith (p s : string) : bool :=
  match p, s with
  | "", _ => true
  | String a p', String b s' => Ascii.eqb a b && startswith p' s'
  | String _ _, "" => false
  end.

Fixpoint last_char (s : string) : option ascii :=
  match s with
  | "" => None
  | String c "" => Some c
  | String _ r => last_char r
  end.

Definition endswith_char (c : ascii) (s : string) : bool :=
  match last_char s with
  | Some d => Ascii.eqb c d
  | None => false
  end.

Fixpoint contains_char (c : ascii) (s : string) : bool :=
  match s with
  | "" => false
  | String d r => Ascii.eqb c d || contains_char c r
  end.

Fixpoint lstrip (s : string) : string :=
  match s with
  | String c r => if is_pyspace c then lstrip r else s
  | "" => ""
  end.

Fixpoint rstrip_by (f : ascii -> bool) (s : string) : string :=
  match s with
  | "" => ""
  | String c r =>
      match rstrip_by f r with
      | "" => if f c then "" else String c ""
      | t => String c t
      end
  end.

Definition rstrip : string -> string := rstrip_by is_pyspace.

(** [s.strip()] *)
Definition strip (s : string) : string := lstrip (rstrip s).

(** [s.rstrip("\n")] *)
Definition rstrip_nl : string -> string := rstrip_by (Ascii.eqb "010").

(** [sep.join(l)] *)
Fixpoint join (sep : string) (l : list string) : string :=
  match l with
  | [] => ""
  | [x] => x
  | x :: r => x +:+ sep +:+ join sep r
  end.

(** [s.split(sep)] for a one-character separator: always at least one
    field. *)
Fixpoint split_on (sep : ascii) (s : string) : list string :=
  match s with
  | "" => [""]
  | String c r =>
      if Ascii.eqb c sep then "" :: split_on sep r
      else match split_on sep r with
           | f :: fs => String c f :: fs
           | [] => [String c ""]
           end
  end.

(** [s.split(sep, 1)] for a one-character separator known to occur in
    [s]: the text before the first separator and the text after it.  When
    the separator is absent the second half is empty and the first is
    [s]. *)
Fixpoint partition_on (sep : ascii) (s : string) : string * string :=
  match s with
  | "" => ("", "")
  | String c r =>
      if Ascii.eqb c sep then ("", r)
      else let (a, b) := partition_on sep r in (String c a, b)
  end.

(** The first whitespace-delimited word of [s] and what follows it. *)
Fixpoint span_nonspace (s : string) : string * string :=
  match s with
  | "" => ("", "")
  | String c r =>
      if is_pyspace c then ("", s)
      else let (w, t) := span_nonspace r in (String c w, t)
  end.

(** [s.split()] *)
Fixpoint split_ws_go (cur : option string) (s : string) : list string :=
  match s with
  | "" => match cur with Some w => [String.rev w] | None => [] end
  | String c r =>
      if is_pyspace c then
        match cur with
        | Some w => String.rev w :: split_ws_go None r
        | None => split_ws_go None r
        end
      else split_ws_go (Some (String c (default "" cur))) r
  end.

Definition split_ws : string -> list string := split_ws_go None.

(** [s.split(None, 1)]: leading whitespace is dropped, the first word is
    cut off, the whitespace after it is dropped and the remainder is kept
    as it is; an empty remainder gives a one-element list, an input of
    whitespace only the empty list. *)
Definition split_ws_1 (s : string) : list string :=
  match lstrip s with
  | "" => []
  | t => let (w, r) := span_nonspace t in
         match lstrip r with
         | "" => [w]
         | r' => [w; r']
         end
  end.

(** [s.splitlines()].  [cur] is the current line reversed; [cr] records
    that the previous character was a carriage return, so that a line
    feed right after it belongs to the same boundary. *)
Fixpoint splitlines_go (cur : string) (cr : bool) (s : string) : list string :=
  match s with
  | "" => match cur with "" => [] | _ => [String.rev cur] end
  | String c r =>
      if cr && Ascii.eqb c "010" then splitlines_go "" false r
      else if is_linebreak c then
        String.rev cur :: splitlines_go "" (Ascii.eqb c "013") r
      else splitlines_go (String c cur) false r
  end.

Definition splitlines : string -> list string := splitlines_go "" false.

(** [s.replace(old, new)] for a non-empty [old]: occurrences are found
    left to right and do not overlap; [skip] counts the characters of the
    occurrence just replaced that are still to be passed over. *)
Fixpoint replace_go (old new : string) (skip : nat) (s : string) : string :=
  match s with
  | "" => ""
  | String c r =>
      match skip with
      | S k => replace_go old new k r
      | 0 =>
          if startswith old s
          then new +:+ replace_go old new (String.length old - 1) r
          else String c (replace_go old new 0 r)
      end
  end.

Definition replace (old new s : string) : string := replace_go old new 0 s.

(** [s.isdigit()] on ASCII *)
Fixpoint all_digits (s : string) : bool :=
  match s with
  | "" => true
  | String c r => is_digit c && all_digits r
  end.

Definition isdigit (s : string) : bool :=
  match s with "" => false | _ => all_digits s end.

(** ** Interpolation ([pf.py], [_VAR_RE] and [_interpolate]) *)

(** The longest run of word characters at the head of [s], and the rest. *)
Fixpoint span_word (s : string) : string * string :=
  match s with
  | "" => ("", "")
  | String c r =>
      if is_word c then let (w, t) := span_word r in (String c w, t)
      else ("", s)
  end.

(** One attempt of [_VAR_RE] at a dollar sign, given the text [after] it:
    the key ([group(1) or group(2)]) and the matched text after the
    dollar.  The first alternative [\$(\w+)] is tried first; the second,
    [\$\{(\w+)\}], needs the closing brace right after the word run. *)
Definition var_match (after : string) : option (string * string) :=
  match span_word after with
  | (String c w, _) => Some (String c w, String c w)
  | ("", _) =>
      match after with
      | String "{" r =>
          match span_word r with
          | (String c w, String "}" _) =>
              Some (String c w, "{" +:+ String c w +:+ "}")
          | _ => None
          end
      | _ => None
      end
  end.

(** [_VAR_RE.sub(repl, text)]: one left-to-right pass over [text];
    [repl key whole] is the replacement of a match with key [key] and
    matched text [whole].  After a match the scan resumes behind it in
    the original text ([skip] characters further). *)
Fixpoint re_sub (repl : string -> string -> string) (skip : nat) (text : string)
  : string :=
  match text with
  | "" => ""
  | String c rest =>
      match skip with
      | S k => re_sub repl k rest
      | 0 =>
          if Ascii.eqb c "$" then
            match var_match rest with
            | Some (key, tok) =>
                repl key (String "$" tok) +:+ re_sub repl (String.length tok) rest
            | None => String c (re_sub repl 0 rest)
            end
          else String c (re_sub repl 0 rest)
      end
  end.

(** An insertion-ordered dictionary with string keys and values. *)
Abbreviation pydict := (list (string * string)).

(** [d[k] = v] *)
Fixpoint dict_set (k v : string) (d : pydict) : pydict :=
  match d with
  | [] => [(k, v)]
  | (k', v') :: r =>
      if String.eqb k k' then (k, v) :: r else (k', v') :: dict_set k v r
  end.

(** [m.update(d)] for a map [m] that is only looked up afterwards. *)
Definition map_update (m : gmap string string) (d : pydict) : gmap string string :=
  foldl (fun acc kv => <[kv.1 := kv.2]> acc) m d.

(** [merged] of [_interpolate]: the process environment, updated with
    [extra_env], updated with [params]. *)
Definition merged_scope (environ params : gmap string string) (extra_env : pydict)
  : gmap string string :=
  params ∪ map_update environ extra_env.

Definition _interpolate (environ : gmap string string)
    (text : string) (params : gmap string string) (extra_env : pydict) : string :=
  let merged := merged_scope environ params extra_env in
  re_sub (fun key whole => default whole (merged !! key)) 0 text.

(** ** [shlex] of the Python standard library *)

(** Characters [shlex.quote] leaves alone: [[\w@%+=:,./-]]. *)
Definition shlex_safe (c : ascii) : bool :=
  is_word c || contains_char c "@%+=:,./-".

Fixpoint all_safe (s : string) : bool :=
  match s with
  | "" => true
  | String c r => shlex_safe c && all_safe r
  end.

(** The double quote character (code 34) and the backslash (code 92). *)
Definition dquote : ascii := "034"%char.
Definition backslash : ascii := "092"%char.

(** What [shlex.quote] writes for a single quote: a closing quote, a
    double-quoted single quote, an opening quote. *)
Definition squote_escaped : string :=
  "'" +:+ String dquote ("'" +:+ String dquote "'").

(** [shlex.quote(s)] *)
Definition shlex_quote (s : string) : string :=
  match s with
  | "" => "''"
  | _ => if all_safe s then s
         else "'" +:+ replace "'" squote_escaped s +:+ "'"
  end.

(** [shlex.split(s)]: the POSIX token reader with [whitespace_split] on
    and comments off.  The reader's states: between tokens, inside a
    word, inside a quotation opened by [q], and right after a backslash
    (remembering the state to return to: [None] for a word, [Some q] for
    the quotation it stands in). *)
Inductive shlex_state :=
| ShSpace
| ShWord
| ShQuote (q : ascii)
| ShEscape (back : option ascii).

Definition shlex_ws (c : ascii) : bool :=
  Ascii.eqb c " " || Ascii.eqb c "009" || Ascii.eqb c "013" || Ascii.eqb c "010".

Definition shlex_is_quote (c : ascii) : bool :=
  Ascii.eqb c "'" || Ascii.eqb c dquote.

(** [tok] is the token read so far, reversed; [quoted] tells whether a
    quotation took part in it (an empty quoted token is a token).  An
    open quotation and a trailing backslash raise. *)
Fixpoint shlex_go (st : shlex_state) (tok : string) (quoted : bool) (s : string)
  : result (list string) :=
  match s with
  | "" =>
      match st with
      | ShQuote _ => Raised (ValueError "No closing quotation")
      | ShEscape _ => Raised (ValueError "No escaped character")
      | ShSpace | ShWord =>
          match tok, quoted with
          | "", false => Ok []
          | _, _ => Ok [String.rev tok]
          end
      end
  | String c r =>
      match st with
      | ShSpace =>
          if shlex_ws c then
            match tok, quoted with
            | "", false => shlex_go ShSpace "" false r
            | _, _ => cons (String.rev tok) <$> shlex_go ShSpace "" false r
            end
          else if Ascii.eqb c backslash then shlex_go (ShEscape None) tok quoted r
          else if shlex_is_quote c then shlex_go (ShQuote c) tok true r
          else shlex_go ShWord (String c "") quoted r
      | ShQuote q =>
          if Ascii.eqb c q then shlex_go ShWord tok true r
          else if Ascii.eqb c backslash && Ascii.eqb q dquote
               then shlex_go (ShEscape (Some q)) tok true r
          else shlex_go (ShQuote q) (String c tok) true r
      | ShEscape back =>
          match back with
          | Some q =>
              let tok' := if negb (Ascii.eqb c backslash) && negb (Ascii.eqb c q)
                          then String backslash tok else tok in
              shlex_go (ShQuote q) (String c tok') quoted r
          | None => shlex_go ShWord (String c tok) quoted r
          end
      | ShWord =>
          if shlex_ws c then
            match tok, quoted with
            | "", false => shlex_go ShSpace "" false r
            | _, _ => cons (String.rev tok) <$> shlex_go ShSpace "" false r
            end
          else if shlex_is_quote c then shlex_go (ShQuote c) tok true r
          else if Ascii.eqb c backslash then shlex_go (ShEscape None) tok quoted r
          else shlex_go ShWord (String c tok) quoted r
      end
  end.

Definition shlex_split (s : string) : result (list string) :=
  shlex_go ShSpace "" false s.

(** ** Integers as text: [int(s)] and [str(n)] *)

Definition digit_value (c : ascii) : Z := Z.of_N (ord c) - 48.

(** Decimal digits with single underscores between them. *)
Fixpoint int_digits (acc : Z) (after_underscore : bool) (s : string) : option Z :=
  match s with
  | "" => if after_underscore then None else Some acc
  | String c r =>
      if is_digit c then int_digits (acc * 10 + digit_value c) false r
      else if Ascii.eqb c "_" && negb after_underscore then int_digits acc true r
      else None
  end.

Definition int_unsigned (s : string) : option Z :=
  match s with
  | String c r => if is_digit c then int_digits (digit_value c) false r else None
  | "" => None
  end.

(** The whitespace [int] skips around a literal: TAB, LF, VT, FF, CR and
    space.  The separators FS, GS, RS and US, which [str.strip] removes,
    are not among them. *)
Definition is_int_space (c : ascii) : bool := in_range 9 13 c || Ascii.eqb c " ".

Fixpoint lstrip_by (f : ascii -> bool) (s : string) : string :=
  match s with
  | String c r => if f c then lstrip_by f r else s
  | "" => ""
  end.

Fixpoint count_digits (s : string) : Z :=
  match s with
  | "" => 0
  | String c r => (if is_digit c then 1 else 0) + count_digits r
  end.

(** [sys.get_int_max_str_digits()] as Python sets it: a literal with
    more digits is refused. *)
Definition int_max_str_digits : Z := 4300.

(** [int(s)] for a string: surrounding whitespace, one optional sign,
    decimal digits, no more of them than the limit (leading zeros
    count, underscores and the sign do not); [None] is [ValueError]. *)
Definition py_int (s : string) : option Z :=
  let t := lstrip_by is_int_space (rstrip_by is_int_space s) in
  if (int_max_str_digits <? count_digits t)%Z then None
  else
    match t with
    | String "-" r => Z.opp <$> int_unsigned r
    | String "+" r => int_unsigned r
    | t => int_unsigned t
    end.

Definition digit_char (d : Z) : ascii := ascii_of_N (Z.to_N (d + 48)).

(** Decimal digits of a positive number, least significant first; the
    binary size of the number bounds the number of digits. *)
Fixpoint digits_go (fuel : nat) (n : Z) (acc : string) : string :=
  match fuel with
  | 0%nat => acc
  | S f =>
      if (n <? 10)%Z then String (digit_char n) acc
      else digits_go f (n / 10)%Z (String (digit_char (n mod 10)) acc)
  end.

(** [str(n)] for an [int] *)
Definition py_str_int (n : Z) : string :=
  match n with
  | Z0 => "0"
  | Zpos p => digits_go (S (Pos.size_nat p)) n ""
  | Zneg p => String "-" (digits_go (S (Pos.size_nat p)) (Zpos p) "")
  end.

(** ** [posixpath] of the Python standard library *)

Definition isabs (p : string) : bool := startswith "/" p.

(** [os.path.join(a, b)] *)
Definition path_join (a b : string) : string :=
  if startswith "/" b then b
  else match a with
       | "" => b
       | _ => if endswith_char "/" a then a +:+ b else a +:+ "/" +:+ b
       end.

(** One step of the component loop of [normpath]; [acc] holds the kept
    components, last first. *)
Definition normpath_step (rooted : bool) (acc : list string) (comp : string)
  : list string :=
  if String.eqb comp "" || String.eqb comp "." then acc
  else if negb (String.eqb comp "..") then comp :: acc
  else match acc with
       | [] => if rooted then [] else [comp]
       | top :: rest => if String.eqb top ".." then comp :: acc else rest
       end.

(** [os.path.normpath(p)] *)
Definition normpath (p : string) : string :=
  match p with
  | "" => "."
  | _ =>
      let slashes :=
        if startswith "/" p then
          if startswith "//" p && negb (startswith "///" p) then "//" else "/"
        else "" in
      let comps := foldl (normpath_step (startswith "/" p)) [] (split_on "/" p) in
      match slashes +:+ join "/" (rev comps) with
      | "" => "."
      | q => q
      end
  end.

(** The text up to and including the last slash: [p[:p.rfind("/") + 1]]. *)
Fixpoint head_to_last_slash (p : string) : string :=
  match p with
  | "" => ""
  | String c r =>
      match head_to_last_slash r with
      | "" => if Ascii.eqb c "/" then "/" else ""
      | h => String c h
      end
  end.

Fixpoint all_slashes (s : string) : bool :=
  match s with
  | "" => true
  | String c r => Ascii.eqb c "/" && all_slashes r
  end.

(** [os.path.dirname(p)] *)
Definition dirname (p : string) : string :=
  let head := head_to_last_slash p in
  if all_slashes head then head else rstrip_by (Ascii.eqb "/") head.

(** ** The DSL loader ([pf.py]) *)

Record Task := mkTask {
  name : string;
  lines : list string;
  description : option string
}.

(** [Task(name)] *)
Definition new_task (n : string) : Task :=
  {| name := n; lines := []; description := None |}.

(** [t.add(line)] *)
Definition task_add (line : string) (t : Task) : Task :=
  {| name := name t; lines := lines t ++ [line]; description := description t |}.

Definition set_description (d : string) (t : Task) : Task :=
  {| name := name t; lines := lines t; description := Some d |}.

(** A file system: regular files with their text, and directories,
    which exist but cannot be read as text. *)
Inductive fsnode :=
| FsFile (text : string)
| FsDir.

(** What include expansion carries along: the resolved paths visited so
    far, the warnings printed, and the paths whose text was read and
    expanded, in order. *)
Record inc_state := mkInc {
  visited : gset string;
  warnings : list string;
  expanded : list string
}.

Inductive inc_result :=
| IncOk (text : string) (st : inc_state)
| IncRaised (e : exn) (st : inc_state)
| IncDepth.

Definition nl : string := String "010" "".

(** The value returned after the loop: the lines joined by newlines,
    with one more newline unless there is no line or the last one ends
    with one. *)
Definition joined_output (out_lines : list string) : string :=
  join nl out_lines +:+
  match last out_lines with
  | Some l => if endswith_char "010" l then "" else nl
  | None => ""
  end.

(** The resolved path an [include] line names, when it has a second
    token. *)
Definition include_target (base_dir stripped : string) : option string :=
  let toks := match shlex_split stripped with
              | Ok t => t
              | Raised _ => split_ws stripped
              end in
  match toks with
  | _ :: inc_path :: _ =>
      Some (normpath (if isabs inc_path then inc_path else path_join base_dir inc_path))
  | _ => None
  end.

(** The loop of [_expand_includes_from_text] over the lines of one
    text.  [self] is the function itself, for the text of an included
    file. *)
Fixpoint expand_lines (self : string -> string -> inc_state -> inc_result)
    (fs : gmap string fsnode) (base_dir : string) (todo : list string)
    (inside_task : bool) (out_lines : list string) (st : inc_state) : inc_result :=
  match todo with
  | [] => IncOk (joined_output out_lines) st
  | raw :: rest =>
      let line := rstrip_nl raw in
      let stripped := strip line in
      if startswith "task " stripped then
        expand_lines self fs base_dir rest true (out_lines ++ [line]) st
      else if String.eqb stripped "end" then
        expand_lines self fs base_dir rest false (out_lines ++ [line]) st
      else if negb inside_task && startswith "include " stripped then
        match include_target base_dir stripped with
        | Some inc_full =>
            if bool_decide (inc_full ∈ visited st) then
              expand_lines self fs base_dir rest inside_task out_lines st
            else
              match fs !! inc_full with
              | None =>
                  expand_lines self fs base_dir rest inside_task out_lines
                    (mkInc (visited st)
                       (warnings st ++ ["[warn] include file not found: " +:+ inc_full])
                       (expanded st))
              | Some node =>
                  let st1 := mkInc ({[inc_full]} ∪ visited st) (warnings st)
                                   (expanded st ++ [inc_full]) in
                  match node with
                  | FsDir => IncRaised (OSError inc_full) st1
                  | FsFile inc_text =>
                      match self inc_text (dirname inc_full) st1 with
                      | IncOk inc_expanded st2 =>
                          expand_lines self fs base_dir rest inside_task
                            (out_lines ++
                               ["# --- begin include: " +:+ inc_full +:+ " ---";
                                inc_expanded;
                                "# --- end include: " +:+ inc_full +:+ " ---"])
                            st2
                      | other => other
                      end
                  end
              end
        | None => expand_lines self fs base_dir rest inside_task (out_lines ++ [line]) st
        end
      else expand_lines self fs base_dir rest inside_task (out_lines ++ [line]) st
  end.

(** [_expand_includes_from_text].  [depth] bounds the nesting of
    includes; [IncDepth] is the answer of a nesting deeper than that. *)
Fixpoint _expand_includes_from_text (depth : nat) (fs : gmap string fsnode)
    (text base_dir : string) (st : inc_state) : inc_result :=
  match depth with
  | 0%nat => IncDepth
  | S d =>
      expand_lines (_expand_includes_from_text d fs) fs base_dir
        (splitlines text) false [] st
  end.

Definition PFY_EMBED : string :=
  nl +:+ "task include_demo" +:+ nl +:+
  "  describe Shows that this file is active even without Pfyfile.pf" +:+ nl +:+
  "  shell echo " +:+ String dquote ("Include demo task ran." +:+ String dquote "") +:+ nl +:+
  "end" +:+ nl.

(** [_load_pfy_source_with_includes], given the path [_find_pfyfile]
    resolved, which is absolute, so that [os.path.abspath] of it is its
    [normpath].  Every nested include reads one more path of [fs], so a
    nesting of [size fs] is never exceeded. *)
Definition _load_pfy_source_with_includes (fs : gmap string fsnode)
    (pfy_resolved : string) : inc_result :=
  match fs !! pfy_resolved with
  | Some node =>
      let abs := normpath pfy_resolved in
      let base_dir := match dirname abs with "" => "." | d => d end in
      let st := mkInc {[abs]} [] [] in
      match node with
      | FsFile main_text =>
          _expand_includes_from_text (S (size fs)) fs main_text base_dir st
      | FsDir => IncRaised (OSError pfy_resolved) st
      end
  | None => IncOk PFY_EMBED (mkInc ∅ [] [])
  end.

(** The loop of [parse_pfyfile_text].  [cur] is the task being filled;
    it is the very object stored in [tasks] under its name, so each
    change of it is written to [tasks] as well. *)
Fixpoint parse_lines (todo : list string) (tasks : gmap string Task)
    (cur : option Task) : result (gmap string Task) :=
  match todo with
  | [] => Ok tasks
  | raw :: rest =>
      let line := strip raw in
      if String.eqb line "" || startswith "#" line then parse_lines rest tasks cur
      else if startswith "task " line then
        match split_ws_1 line with
        | _ :: r :: _ =>
            let n := strip r in
            if String.eqb n "" then Raised (ValueError "Task name missing.")
            else let t := new_task n in
                 parse_lines rest (<[n := t]> tasks) (Some t)
        | _ => Raised IndexError
        end
      else if String.eqb line "end" then parse_lines rest tasks None
      else
        match cur with
        | None => parse_lines rest tasks None
        | Some t =>
            if startswith "describe " line then
              match description t with
              | None =>
                  match split_ws_1 line with
                  | _ :: r :: _ =>
                      let t' := set_description (strip r) t in
                      parse_lines rest (<[name t := t']> tasks) (Some t')
                  | _ => Raised IndexError
                  end
              | Some _ => parse_lines rest tasks cur
              end
            else
              let t' := task_add line t in
              parse_lines rest (<[name t := t']> tasks) (Some t')
        end
  end.

Definition parse_pfyfile_text (text : string) : result (gmap string Task) :=
  parse_lines (splitlines text) ∅ None.

(** ** Host lists ([pf.py]) *)

(** A host specification as [ENV_MAP] and the command line give it: a
    comma-separated string, or a list of specifications. *)
Inductive host_spec :=
| HStr (s : string)
| HList (l : list host_spec).

(** [[t.strip() for t in s.split(",") if t.strip()]] *)
Definition split_hosts (s : string) : list string :=
  filter (fun t => t ≠ "") (map strip (split_on "," s)).

Fixpoint _normalize_hosts (spec : host_spec) : list string :=
  match spec with
  | HStr s => split_hosts s
  | HList l =>
      (fix each (l : list host_spec) : list string :=
         match l with
         | [] => []
         | s :: r => _normalize_hosts s ++ each r
         end) l
  end.

Definition ENV_MAP : gmap string host_spec :=
  <["local" := HList [HStr "@local"]]>
  (<["prod" := HList [HStr "ubuntu@10.0.0.5:22"; HStr "punk@10.4.4.4:24"]]>
  (<["staging" := HStr "staging@10.1.2.3:22,staging@10.1.2.4:22"]> ∅)).

(** Names that are not in the table are skipped (with a warning). *)
Fixpoint _merge_env_hosts (env_map : gmap string host_spec) (env_names : list string)
  : list string :=
  match env_names with
  | [] => []
  | n :: r =>
      match env_map !! n with
      | None => _merge_env_hosts env_map r
      | Some spec => _normalize_hosts spec ++ _merge_env_hosts env_map r
      end
  end.

Fixpoint dedupe_go (seen : gset string) (items : list string) : list string :=
  match items with
  | [] => []
  | it :: r =>
      if bool_decide (it ∈ seen) then dedupe_go seen r
      else it :: dedupe_go ({[it]} ∪ seen) r
  end.

Definition _dedupe_preserve_order (items : list string) : list string :=
  dedupe_go ∅ items.

(** The host resolution of [main]: the hosts of the named environments,
    then the explicit ones, without repetitions; the local machine when
    that leaves nothing. *)
Definition resolve_hosts (env_map : gmap string host_spec)
    (env_names host_specs : list string) : list string :=
  match _dedupe_preserve_order (_merge_env_hosts env_map env_names ++ host_specs) with
  | [] => ["@local"]
  | merged_hosts => merged_hosts
  end.

Inductive host_target :=
| TLocal
| TRemote (user : option string) (host : string) (port : option Z).

(** [_parse_host]; [int(port)] may raise. *)
Definition _parse_host (h : string) (default_user default_port : option string)
  : result host_target :=
  if String.eqb h "@local" then Ok TLocal
  else
    let '(user, host) :=
      if contains_char "@" h
      then let (u, r) := partition_on "@" h in (Some u, r)
      else (default_user, h) in
    let '(host, port) :=
      if contains_char ":" host
      then let (a, p) := partition_on ":" host in (a, Some p)
      else (host, default_port) in
    match port with
    | None | Some "" => Ok (TRemote user host None)
    | Some p =>
        match py_int p with
        | Some n => Ok (TRemote user host (Some n))
        | None => Raised (ValueError p)
        end
    end.

(** A [fabric.Connection], named by the arguments it was built from. *)
Record Connection := mkConn {
  conn_host : string;
  conn_user : option string;
  conn_port : Z
}.

(** [s.rsplit(sep, 1)] for a one-character separator: the text before
    the last separator and the text after it; [None] when the separator
    does not occur. *)
Fixpoint rpartition_on (sep : ascii) (s : string) : option (string * string) :=
  match s with
  | "" => None
  | String c r =>
      match rpartition_on sep r with
      | Some (a, b) => Some (String c a, b)
      | None => if Ascii.eqb c sep then Some ("", r) else None
      end
  end.

(** [s.count(sep)] for a one-character separator *)
Fixpoint count_char (sep : ascii) (s : string) : nat :=
  match s with
  | "" => 0%nat
  | String c r => ((if Ascii.eqb c sep then 1 else 0) + count_char sep r)%nat
  end.

(** [x or None] for a text *)
Definition nonempty (s : string) : option string :=
  match s with "" => None | _ => Some s end.

(** [Connection.derive_shorthand] of fabric: the user, host and port
    that the host text [user@host:port] holds.  A host text with more
    than one colon is taken as an address without a port. *)
Definition derive_shorthand (host_string : string)
  : result (option string * option string * option Z) :=
  let '(user, hostport) :=
    match rpartition_on "@" host_string with
    | Some (u, hp) => (nonempty u, hp)
    | None => (None, host_string)
    end in
  let '(host, port) :=
    if (1 <? count_char ":" hostport)%nat then (Some hostport, None)
    else match rpartition_on ":" hostport with
         | Some (h, p) => (nonempty h, nonempty p)
         | None => (nonempty hostport, None)
         end in
  match port with
  | Some p => match py_int p with
              | Some n => Ok (user, host, Some n)
              | None => Raised (ValueError p)
              end
  | None => Ok (user, host, None)
  end.

(** [Connection(host=, user=, port=)] of fabric with a port given, as
    [_c_for] calls it: the constructor refuses a user or a port that
    comes both inside the host text and as an argument.  The
    configuration the constructor loads besides is taken to be in
    order. *)
Definition Connection_init (host : string) (user : option string) (port : Z)
  : result Connection :=
  '(sh_user, _, sh_port) ← derive_shorthand host;
  match sh_user, user with
  | Some _, Some _ =>
      Raised (ValueError "You supplied the user via both shorthand and kwarg! Please pick one.")
  | _, _ =>
      match sh_port with
      | Some _ =>
          Raised (ValueError "You supplied the port via both shorthand and kwarg! Please pick one.")
      | None => Ok (mkConn host user port)
      end
  end.

(** [_c_for]: no connection for the local machine; port 22 when none
    (or port 0) is given; the constructor of the connection may raise. *)
Definition _c_for (spec : host_target) : result (option Connection) :=
  match spec with
  | TLocal => Ok None
  | TRemote u h p =>
      Some <$> Connection_init h u (match p with Some 0%Z | None => 22%Z | Some n => n end)
  end.

(** ** The outside world *)

(** The calls the runner makes to its collaborators. *)
Inductive call :=
| CallOpen (c : Connection)
| CallClose (c : Connection)
| CallRun (c : Connection) (full_cmd : string)
| CallLocal (full : string) (env : gmap string string)
| CallPut (c : Connection) (local remote : string)
| CallMakedirs (path : string)
| CallCopyfile (local remote : string).

(** What happened so far on one target: each call with its answer, in
    order.  The answer of a command is its exit status; a call may also
    raise. *)
Abbreviation trace := (list (call * result Z)).

(** The process environment, and how the collaborators answer a call
    after a given history. *)
Record world := mkWorld {
  environ : gmap string string;
  answer : trace -> call -> result Z
}.

(** Computations that make calls and may raise. *)
Definition M (A : Type) : Type := trace -> result A * trace.

Definition ret {A} (a : A) : M A := fun t => (Ok a, t).

Definition raise {A} (e : exn) : M A := fun t => (Raised e, t).

Definition bind {A B} (m : M A) (f : A -> M B) : M B :=
  fun t => match m t with
           | (Ok a, t') => f a t'
           | (Raised e, t') => (Raised e, t')
           end.

(** [try: m except Exception: h] *)
Definition catch {A} (m : M A) (h : exn -> M A) : M A :=
  fun t => match m t with
           | (Ok a, t') => (Ok a, t')
           | (Raised e, t') => h e t'
           end.

Definition perform (w : world) (c : call) : M Z :=
  fun t => let r := answer w t c in (r, t ++ [(c, r)]).

#[global] Instance M_ret : MRet M := @ret.
#[global] Instance M_bind : MBind M := fun A B f m => bind m f.

(** ** The verb executor ([pf.py], [_exec_line_fabric]) *)

Fixpoint dict_get (k : string) (d : pydict) : option string :=
  match d with
  | [] => None
  | (k', v) :: r => if String.eqb k k' then Some v else dict_get k r
  end.

(** [_split_kv]: the positional arguments, and the [key=value] ones as
    a dictionary. *)
Fixpoint split_kv_go (args : list string) (pos : list string) (kv : pydict)
  : list string * pydict :=
  match args with
  | [] => (pos, kv)
  | a :: r =>
      if contains_char "=" a
      then let (k, v) := partition_on "=" a in split_kv_go r pos (dict_set k v kv)
      else split_kv_go r (pos ++ [a]) kv
  end.

Definition _split_kv (args : list string) : list string * pydict :=
  split_kv_go args [] [].

(** A value that is [None] or empty counts as absent. *)
Definition truthy (o : option string) : bool :=
  match o with
  | None | Some "" => false
  | Some _ => true
  end.

Definition _sudo_wrap (cmd : string) (sudo_user : option string) : string :=
  if truthy sudo_user
  then "sudo -u " +:+ shlex_quote (default "" sudo_user) +:+ " -H bash -lc " +:+ shlex_quote cmd
  else "sudo bash -lc " +:+ shlex_quote cmd.

(** The settings of one target that [run] reads. *)
Record exec_ctx := mkCtx {
  ctx_conn : option Connection;
  ctx_sudo : bool;
  ctx_sudo_user : option string
}.

(** The inner function [run] of [_exec_line_fabric]: the command goes
    to a local process with the task environment in its environment, or
    to the session with the task environment exported in front of it. *)
Definition run (w : world) (x : exec_ctx) (params : gmap string string)
    (task_env : pydict) (cmd : string) : M Z :=
  let merged_env :=
    map_update (environ w)
      (map (fun kv => (kv.1, _interpolate (environ w) kv.2 params task_env)) task_env) in
  match ctx_conn x with
  | None =>
      let full := if ctx_sudo x then _sudo_wrap cmd (ctx_sudo_user x) else cmd in
      perform w (CallLocal full merged_env)
  | Some c =>
      let exports :=
        join " " (map (fun kv => "export " +:+ kv.1 +:+ "=" +:+ shlex_quote kv.2 +:+ ";")
                      task_env) in
      let full_cmd := match exports with "" => cmd | _ => exports +:+ " " +:+ cmd end in
      let full_cmd := if ctx_sudo x then _sudo_wrap full_cmd (ctx_sudo_user x) else full_cmd in
      perform w (CallRun c full_cmd)
  end.

Definition service_actions : list string :=
  ["start"; "stop"; "enable"; "disable"; "restart"].

(** [f"{owner or ''}:{group or ''}"] *)
Definition owner_group (owner group : option string) : string :=
  default "" owner +:+ ":" +:+ default "" group.

(** The part of [_exec_line_fabric] after interpolation and word
    splitting: the dispatch on the verb [op] with its arguments. *)
Definition exec_verb (w : world) (x : exec_ctx) (params : gmap string string)
    (task_env : pydict) (op : string) (args : list string) : M Z :=
  let run := run w x params task_env in
  if String.eqb op "shell" then
    match join " " args with
    | "" => raise (ValueError "shell needs a command")
    | cmd => run cmd
    end
  else if String.eqb op "packages" then
    match args with
    | action :: (_ :: _) as names =>
        if String.eqb action "install" then run (join " " ("apt -y install" :: names))
        else if String.eqb action "remove" then run (join " " ("apt -y remove" :: names))
        else raise (ValueError ("Unknown packages action: " +:+ action))
    | _ => raise (ValueError "packages install/remove <names...>")
    end
  else if String.eqb op "service" then
    match args with
    | action :: n :: _ =>
        if bool_decide (action ∈ service_actions)
        then run ("systemctl " +:+ action +:+ " " +:+ shlex_quote n)
        else raise (ValueError ("Unknown service action: " +:+ action))
    | _ => raise (ValueError "service <start|stop|enable|disable|restart> <name>")
    end
  else if String.eqb op "directory" then
    let (pos, kv) := _split_kv args in
    match pos with
    | [] => raise (ValueError "directory <path> [mode=0755]")
    | path :: _ =>
        let mode := dict_get "mode" kv in
        rc ← run ("mkdir -p " +:+ shlex_quote path);
        if (rc =? 0)%Z && truthy mode
        then run ("chmod " +:+ shlex_quote (default "" mode) +:+ " " +:+ shlex_quote path)
        else ret rc
    end
  else if String.eqb op "copy" then
    let (pos, kv) := _split_kv args in
    match pos with
    | local :: remote :: _ =>
        let mode := dict_get "mode" kv in
        let owner := dict_get "user" kv in
        let group := dict_get "group" kv in
        match ctx_conn x with
        | None =>
            perform w (CallMakedirs (dirname remote)) ;;
            perform w (CallCopyfile local remote)
        | Some c => perform w (CallPut c local remote)
        end ;;
        (if truthy mode
         then run ("chmod " +:+ shlex_quote (default "" mode) +:+ " " +:+ shlex_quote remote)
         else ret 0%Z) ;;
        (if truthy owner || truthy group
         then run ("chown " +:+ owner_group owner group +:+ " " +:+ shlex_quote remote)
         else ret 0%Z) ;;
        ret 0%Z
    | _ => raise (ValueError "copy <local> <remote> [mode=0644] [user=...] [group=...]")
    end
  else if String.eqb op "describe" then ret 0%Z
  else if String.eqb op "env" then ret 0%Z
  else raise (ValueError ("Unknown verb: " +:+ op)).

Definition _exec_line_fabric (w : world) (x : exec_ctx) (line : string)
    (params : gmap string string) (task_env : pydict) : M Z :=
  let line := _interpolate (environ w) line params task_env in
  match shlex_split line with
  | Raised e => raise e
  | Ok [] => ret 0%Z
  | Ok (op :: args) => exec_verb w x params task_env op args
  end.

(** ** The task runner and the dispatcher ([pf.py], [main]) *)

(** The command-line settings [run_host] reads. *)
Record settings := mkSettings {
  user : option string;
  port : option string;
  sudo : bool;
  sudo_user : option string
}.

(** One selected task: its name, its lines and its parameters. *)
Abbreviation selection := (string * list string * gmap string string)%type.

(** The assignments of an [env] line, in order; each value is
    interpolated against the task environment built so far. *)
Fixpoint env_assign (environ params : gmap string string) (toks : list string)
    (task_env : pydict) : pydict :=
  match toks with
  | [] => task_env
  | tok :: r =>
      if contains_char "=" tok
      then let (k, v) := partition_on "=" tok in
           env_assign environ params r
             (dict_set k (_interpolate environ v params task_env) task_env)
      else env_assign environ params r task_env
  end.

(** How a loop of [run_host] ends: it runs to its end with the current
    [rc], or [run_host] returns from inside it. *)
Inductive flow :=
| Continue (rc : Z)
| Return (rc : Z).

(** The loop over the lines of one task. *)
Fixpoint run_lines (w : world) (x : exec_ctx) (params : gmap string string)
    (todo : list string) (task_env : pydict) (rc : Z) : M flow :=
  match todo with
  | [] => mret (Continue rc)
  | ln :: rest =>
      let stripped := strip ln in
      if startswith "env " stripped then
        match shlex_split stripped with
        | Raised e => raise e
        | Ok toks =>
            run_lines w x params rest
              (env_assign (environ w) params (tail toks) task_env) rc
        end
      else
        f ← catch (rc' ← _exec_line_fabric w x ln params task_env;
                   mret (if (rc' =? 0)%Z then Continue rc' else Return rc'))
                  (fun _ => mret (Return 1%Z));
        match f with
        | Continue rc' => run_lines w x params rest task_env rc'
        | Return rc' => mret (Return rc')
        end
  end.

(** The loop over the selected tasks; each starts with an empty task
    environment. *)
Fixpoint run_tasks (w : world) (x : exec_ctx) (selected : list selection) (rc : Z)
  : M flow :=
  match selected with
  | [] => mret (Continue rc)
  | (_, task_lines, params) :: rest =>
      f ← run_lines w x params task_lines [] rc;
      match f with
      | Continue rc' => run_tasks w x rest rc'
      | Return rc' => mret (Return rc')
      end
  end.

Definition lift {A} (r : result A) : M A := fun t => (r, t).

(** [run_host]: one target from its specification to its exit code. *)
Definition run_host (w : world) (cfg : settings) (selected : list selection)
    (hspec : string) : M Z :=
  spec ← lift (_parse_host hspec (user cfg) (port cfg));
  c ← lift (_c_for spec);
  let x := mkCtx c (sudo cfg) (sudo_user cfg) in
  opened ← match c with
            | Some conn => catch (perform w (CallOpen conn) ;; mret true)
                                 (fun _ => mret false)
            | None => mret true
            end;
  if negb opened then mret 1%Z
  else
    f ← run_tasks w x selected 0%Z;
    match f with
    | Return rc => mret rc
    | Continue rc =>
        match c with
        | Some conn => perform w (CallClose conn) ;; mret rc
        | None => mret rc
        end
    end.

(** What the worker of one target leaves behind: the result of its
    future and the calls it made. *)
Definition worker (w : world) (cfg : settings) (selected : list selection)
    (hspec : string) : result Z * trace :=
  run_host w cfg selected hspec [].

(** The exit code [main] takes from a finished future. *)
Definition rc_of (r : result Z) : Z :=
  match r with
  | Ok rc => rc
  | Raised _ => 1%Z
  end.

(** [rc_total = rc_total or rc] over the futures in the order they
    complete. *)
Definition aggregate (completed : list (result Z)) : Z :=
  foldl (fun rc_total r => if (rc_total =? 0)%Z then rc_of r else rc_total) 0%Z completed.

(** [main] from the host resolution on.  [completion] is the order in
    which the futures complete: some rearrangement of the hosts. *)
Definition main_dispatch (w : world) (cfg : settings) (env_map : gmap string host_spec)
    (env_names host_specs : list string) (selected : list selection)
    (completion : list string -> list string) : Z :=
  let merged_hosts := resolve_hosts env_map env_names host_specs in
  aggregate (map (fun h => (worker w cfg selected h).1) (completion merged_hosts)).

(** ** The interpreter of [pf_parser.py] *)

(** [_substitute_vars]: for each variable of [env] in turn, both
    spellings of its use are replaced in the text obtained so far. *)
Definition _substitute_vars (text : string) (env : pydict) : string :=
  foldl (fun result kv =>
           replace ("$" +:+ kv.1) kv.2
             (replace ("${" +:+ kv.1 +:+ "}") kv.2 result))
        text env.

(** The values a sync option can hold. *)
Inductive pyval :=
| PStr (s : string)
| PList (l : list string)
| PBool (b : bool)
| PInt (n : Z).

(** [bool(v)] *)
Definition pyval_truthy (v : pyval) : bool :=
  match v with
  | PStr "" | PList [] | PBool false | PInt 0%Z => false
  | _ => true
  end.

Definition opt_truthy (o : option pyval) : bool :=
  match o with
  | Some v => pyval_truthy v
  | None => false
  end.

Definition hex_digit (n : N) : ascii :=
  if (n <? 10)%N then ascii_of_N (n + 48) else ascii_of_N (n + 87).

(** [repr(s)] for an ASCII string *)
Fixpoint repr_body (q : ascii) (s : string) : string :=
  match s with
  | "" => ""
  | String c r =>
      (if Ascii.eqb c q || Ascii.eqb c backslash then String backslash (String c "")
       else if Ascii.eqb c "009" then String backslash "t"
       else if Ascii.eqb c "010" then String backslash "n"
       else if Ascii.eqb c "013" then String backslash "r"
       else if (ord c <? 32)%N || (126 <? ord c)%N
            then String backslash
                   (String "x" (String (hex_digit (ord c / 16)) (String (hex_digit (ord c mod 16)) "")))
       else String c "")
      +:+ repr_body q r
  end.

Definition py_repr (s : string) : string :=
  let q := if contains_char "'" s && negb (contains_char dquote s) then dquote else "'"%char in
  String q (repr_body q s) +:+ String q "".

(** [str(v)], as an f-string formats a value *)
Definition py_str (v : pyval) : string :=
  match v with
  | PStr s => s
  | PList l => "[" +:+ join ", " (map py_repr l) +:+ "]"
  | PBool true => "True"
  | PBool false => "False"
  | PInt n => py_str_int n
  end.

(** What a call of [_execute_sync] comes to: nothing when rsync is not
    installed, an exception, or the argument vector [cmd] it built and
    the command line it handed to [os.system]. *)
Inductive sync_outcome :=
| SyncNoRsync
| SyncRaised (e : exn)
| SyncRan (cmd : list string) (printable : string).

(** The inner function [sub]: the text of a string with its variables
    substituted.  The loop of [_substitute_vars] calls [replace] on its
    argument once per variable, so any other value passes through an
    empty [env] untouched and raises with a non-empty one. *)
Definition sync_sub (env : pydict) (v : pyval) : result pyval :=
  match v, env with
  | PStr s, _ => Ok (PStr (_substitute_vars s env))
  | _, [] => Ok v
  | _, _ :: _ => Raised AttributeError
  end.

(** The patterns the loop [for pat in excludes] goes through: the
    entries of a list, the characters of a string. *)
Fixpoint chars (s : string) : list string :=
  match s with
  | "" => []
  | String c r => String c "" :: chars r
  end.

Definition exclude_patterns (env : pydict) (o : option pyval) : result (list string) :=
  match o with
  | Some (PList l) => Ok (map (fun x => _substitute_vars x env) l)
  | Some (PStr s) => Ok (chars s)
  | Some (PBool true) => Raised TypeError
  | Some (PInt n) => if (n =? 0)%Z then Ok [] else Raised TypeError
  | Some (PBool false) | None => Ok []
  end.

(** [int(port)] for a port that counts as given. *)
Definition port_int (port : pyval) : result Z :=
  match port with
  | PInt n => Ok n
  | PBool b => Ok (if b then 1 else 0)%Z
  | PStr s => match py_int s with
              | Some n => Ok n
              | None => Raised (ValueError s)
              end
  | PList _ => Raised TypeError
  end.

(** [shlex.quote] of a value: only strings can be quoted. *)
Definition quote_val (v : pyval) : result string :=
  match v with
  | PStr s => Ok (shlex_quote s)
  | _ => Raised TypeError
  end.

Definition flag (b : bool) (f : string) : list string := if b then [f] else [].

(** [port] as the code reads it: a string of digits becomes a number,
    and [int] may refuse it. *)
Definition sync_port (o : option pyval) : result (option pyval) :=
  match o with
  | Some (PStr s) =>
      if isdigit s
      then match py_int s with
           | Some n => Ok (Some (PInt n))
           | None => Raised (ValueError s)
           end
      else Ok (Some (PStr s))
  | p => Ok p
  end.

(** The transport command: [ssh], with [-p] and the port when one is
    given. *)
Definition ssh_command (port : option pyval) : result string :=
  match port with
  | Some p =>
      if pyval_truthy p
      then n ← port_int p; mret ("ssh -p " +:+ py_str_int n)
      else mret "ssh"
  | None => mret "ssh"
  end.

(** [f"{user}@{host}" if user else str(host)] *)
Definition remote_prefix (user : option pyval) (h : pyval) : string :=
  match user with
  | Some u => if pyval_truthy u then py_str u +:+ "@" +:+ py_str h else py_str h
  | None => py_str h
  end.

(** The body of [_execute_sync] from the substitutions on, for options
    whose [src] and [dest] are [src0] and [dest0]: the argument vector
    [cmd] and the line [printable] joined from it. *)
Definition sync_build (src0 dest0 : pyval) (opts : gmap string pyval) (env : pydict)
  : result (list string * string) :=
  src ← sync_sub env src0;
  dest_path ← sync_sub env dest0;
  let user := opts !! "user" in
  let host := opts !! "host" in
  port ← sync_port (opts !! "port");
  let exclude_file := match opts !! "exclude_file" with
                      | Some (PStr f) => Some (PStr (_substitute_vars f env))
                      | f => f
                      end in
  let delete := opt_truthy (opts !! "delete") in
  let dry := opt_truthy (opts !! "dry") in
  let verbose := from_option pyval_truthy true (opts !! "verbose") in
  excludes ← exclude_patterns env (opts !! "excludes");
  let cmd := ["rsync"; "-a"] ++ flag verbose "-v" ++ flag dry "-n"
             ++ flag delete "--delete"
             ++ List.concat (map (fun pat => ["--exclude"; pat]) excludes) in
  (* an exclude file that is no string enters the vector all the same,
     and the final join raises on it *)
  let '(cmd, joinable) :=
    match exclude_file with
    | Some (PStr "") | None => (cmd, true)
    | Some (PStr f) => (cmd ++ ["--exclude-from"; f], true)
    | Some v => (cmd, negb (pyval_truthy v))
    end in
  '(cmd, dest_spec) ←
    match host with
    | Some h =>
        if pyval_truthy h then
          ssh_cmd ← ssh_command port;
          mret (cmd ++ ["-e"; ssh_cmd],
                PStr (remote_prefix user h +:+ ":" +:+ py_str dest_path))
        else mret (cmd, dest_path)
    | None => mret (cmd, dest_path)
    end;
  qsrc ← quote_val src;
  qdest ← quote_val dest_spec;
  if joinable then let cmd := cmd ++ [qsrc; qdest] in mret (cmd, join " " cmd)
  else Raised TypeError.

(** [_execute_sync(opts, env)]; [has_rsync] tells whether
    [shutil.which] finds rsync. *)
Definition _execute_sync (has_rsync : bool) (opts : gmap string pyval) (env : pydict)
  : sync_outcome :=
  if negb has_rsync then SyncNoRsync
  else
    match opts !! "src", opts !! "dest" with
    | Some src0, Some dest0 =>
        if negb (pyval_truthy src0) || negb (pyval_truthy dest0)
        then SyncRaised (ValueError "sync requires src and dest")
        else match sync_build src0 dest0 opts env with
             | Ok (cmd, printable) => SyncRan cmd printable
             | Raised e => SyncRaised e
             end
    | _, _ => SyncRaised (ValueError "sync requires src and dest")
    end.

Definition sync_example_opts : gmap string pyval :=
  <["src" := PStr "a/"]> (<["dest" := PStr "b/"]> (<["host" := PStr "h"]>
  (<["user" := PStr "u"]> (<["port" := PInt 22]> (<["delete" := PBool true]> ∅))))).

(** ** Finding the task file ([pf.py], [_find_pfyfile]) *)

(** [os.path.abspath(p)] in the working directory [cwd] *)
Definition abspath (cwd p : string) : string := normpath (path_join cwd p).

(** The loop of [_find_pfyfile]: from [cur] upwards, the first
    directory whose candidate exists; at a directory that is its own
    parent, the candidate of the working directory, [fallback].
    [exists_] is [os.path.exists]; [fuel] bounds the steps, and [None]
    is the answer of a walk longer than that. *)
Fixpoint find_up (exists_ : string -> bool) (fallback pf_hint : string) (fuel : nat)
    (cur : string) : option string :=
  match fuel with
  | 0%nat => None
  | S f =>
      let candidate := path_join cur pf_hint in
      if exists_ candidate then Some candidate
      else
        let parent := dirname cur in
        if String.eqb parent cur then Some fallback
        else find_up exists_ fallback pf_hint f parent
  end.

(** [_find_pfyfile(start_dir)]; every step up shortens the directory,
    so its length bounds the walk. *)
Definition _find_pfyfile (environ : gmap string string) (exists_ : string -> bool)
    (cwd : string) (start_dir : option string) : option string :=
  let pf_hint := default "Pfyfile.pf" (environ !! "PFY_FILE") in
  if isabs pf_hint then Some pf_hint
  else
    let cur := abspath cwd (if truthy start_dir then default "" start_dir else cwd) in
    find_up exists_ (path_join cwd pf_hint) pf_hint (S (String.length cur)) cur.

(** ** Conditions, bodies and tasks of the interpreter ([pf_parser.py]) *)

(** The commands handed to [os.system] so far, each with the status it
    returned. *)
Abbreviation syslog := (list (string * Z)).

(** What the interpreter asks of its surroundings: the status
    [os.system] returns for a command after a given history, and whether
    [shutil.which] finds rsync. *)
Record shell_world := mkShell {
  system_status : syslog -> string -> Z;
  rsync_found : bool
}.

(** [os.system(command)] *)
Definition os_system (sw : shell_world) (command : string) (log : syslog) : Z * syslog :=
  let r := system_status sw log command in (r, log ++ [(command, r)]).

(** A condition as the transformer builds it.  The variable of a
    comparison or an existence test is [None] when that operand is no
    [("var", name)] tuple; [CondOther] is any other value. *)
Inductive cond :=
| CondVarEquals (var : option string) (operator expected : string)
| CondVarExists (var : option string)
| CondCommand (command : string)
| CondOther.

(** [_evaluate_condition(condition, env)] *)
Definition _evaluate_condition (sw : shell_world) (c : cond) (env : pydict)
    (log : syslog) : bool * syslog :=
  match c with
  | CondVarEquals (Some var_name) operator expected =>
      let actual := default "" (dict_get var_name env) in
      (if String.eqb operator "==" then String.eqb actual expected
       else if String.eqb operator "!=" then negb (String.eqb actual expected)
       else false, log)
  | CondVarExists (Some var_name) =>
      (match default "" (dict_get var_name env) with "" => false | _ => true end, log)
  | CondCommand command =>
      let (r, log') := os_system sw (_substitute_vars command env) log in
      ((r =? 0)%Z, log')
  | _ => (false, log)
  end.

(** An item of a task body: one of the tuples the transformer builds
    (any tuple with another tag is [NOther]), or a [Tree], of which
    [_execute_body] looks at the first child only ([None] when it has no
    child or the child is no tuple). *)
Inductive node :=
| NDescribe (text : string)
| NShell (command : string)
| NSync (opts : gmap string pyval)
| NIf (condition : cond) (if_body else_body : list node)
| NFor (var_name : string) (iterable : list string) (body : list node)
| NOther
| NTree (first : option node).

(** A sync statement of a body: [_execute_sync] inside [try]; its
    effect is the command line it hands to [os.system]. *)
Definition run_sync (sw : shell_world) (opts : gmap string pyval) (env : pydict)
    (log : syslog) : syslog :=
  match _execute_sync (rsync_found sw) opts env with
  | SyncRan _ printable => (os_system sw printable log).2
  | _ => log
  end.

(** One round of the loop of [_execute_body]. *)
Fixpoint exec_item (sw : shell_world) (env : pydict) (item : node) (log : syslog)
  : syslog :=
  let body := fix body (items : list node) (log : syslog) : syslog :=
    match items with
    | [] => log
    | i :: r => body r (exec_item sw env i log)
    end in
  match item with
  | NDescribe _ => log
  | NShell command => (os_system sw (_substitute_vars command env) log).2
  | NSync opts => run_sync sw opts env log
  | NTree (Some (NDescribe _)) => log
  | NTree (Some (NShell command)) => (os_system sw (_substitute_vars command env) log).2
  | NTree (Some (NIf condition if_body else_body)) =>
      let (holds, log1) := _evaluate_condition sw condition env log in
      if holds then body if_body log1 else body else_body log1
  | NTree (Some (NSync opts)) => run_sync sw opts env log
  | _ => log
  end.

(** [_execute_body(body, env)] *)
Definition _execute_body (sw : shell_world) (body : list node) (env : pydict)
    (log : syslog) : syslog :=
  foldl (fun log item => exec_item sw env item log) log body.

(** [d.update(other)], keeping the order of [d] *)
Definition dict_update (d other : pydict) : pydict :=
  foldl (fun acc kv => dict_set kv.1 kv.2 acc) d other.

(** The defaults of the declared parameters, for the names [env] does
    not hold yet. *)
Definition apply_defaults (params : pydict) (env : pydict) : pydict :=
  foldl (fun acc p => match dict_get p.1 acc with
                      | Some _ => acc
                      | None => dict_set p.1 p.2 acc
                      end) env params.

(** A task definition: its declared parameters with their defaults,
    and its body. *)
Record task_def := mkTaskDef {
  td_params : pydict;
  td_body : list node
}.

(** The environment [execute_task] builds for a body. *)
Definition task_scope (current_env kwargs : pydict) (task : task_def) : pydict :=
  apply_defaults (td_params task) (dict_update current_env kwargs).

(** [execute_task(task_name, **kwargs)] *)
Definition execute_task (sw : shell_world) (tasks : gmap string task_def)
    (current_env : pydict) (task_name : string) (kwargs : pydict) (log : syslog)
  : syslog :=
  match tasks !! task_name with
  | None => log
  | Some task => _execute_body sw (td_body task) (task_scope current_env kwargs task) log
  end.

(** ** Vocabulary of the properties *)

Fixpoint all_word (s : string) : bool :=
  match s with
  | "" => true
  | String c r => is_word c && all_word r
  end.

(** A variable name as [\w+] reads it: word characters, at least one. *)
Definition is_name (s : string) : bool :=
  match s with "" => false | _ => all_word s end.

(** The text does not go on with a word character. *)
Definition ends_name (post : string) : bool :=
  match post with
  | "" => true
  | String c _ => negb (is_word c)
  end.

Fixpoint no_space (s : string) : bool :=
  match s with
  | "" => true
  | String c r => negb (is_pyspace c) && no_space r
  end.

(** How a state [st'] continues a state [st]: more paths visited, and
    further paths expanded, each once, each a file system entry that was
    not visited at [st] and is visited at [st']. *)
Definition continues (fs : gmap string fsnode) (st st' : inc_state) : Prop :=
  (visited st ⊆ visited st')
  /\ (exists new, expanded st' = expanded st ++ new
       /\ NoDup new
       /\ forall p, p ∈ new -> (p ∉ visited st) /\ (p ∈ visited st') /\ is_Some (fs !! p)).

(** What is asked of an expansion started at [st]: it does not run out
    of nesting depth, and its final state continues [st]. *)
Definition expansion_ok (fs : gmap string fsnode) (st : inc_state) (res : inc_result)
  : Prop :=
  match res with
  | IncOk _ st' | IncRaised _ st' => continues fs st st'
  | IncDepth => False
  end.

(** The paths of the file system not visited yet. *)
Definition unvisited (fs : gmap string fsnode) (st : inc_state) : nat :=
  size (dom fs ∖ visited st).

(** Visiting one more entry of the file system. *)
Definition visit (p : string) (st : inc_state) : inc_state :=
  mkInc ({[p]} ∪ visited st) (warnings st) (expanded st ++ [p]).

(** The warning [_expand_includes_from_text] prints for a missing file. *)
Definition warned (p : string) (st : inc_state) : inc_state :=
  mkInc (visited st) (warnings st ++ ["[warn] include file not found: " +:+ p])
        (expanded st).

(** Two files that include each other, and a file that is not there. *)
Definition fs_cycle : gmap string fsnode :=
  <["/p/Pfyfile.pf" := FsFile ("include tasks/a.pf" +:+ nl +:+ "task t" +:+ nl +:+
                               "  shell true" +:+ nl +:+ "end" +:+ nl)]>
  (<["/p/tasks/a.pf" := FsFile ("include ../Pfyfile.pf" +:+ nl +:+ "include b.pf" +:+ nl +:+
                                "include a.pf" +:+ nl +:+ "# a" +:+ nl)]> ∅).

Definition or_rc (rc_total : Z) (r : result Z) : Z :=
  if (rc_total =? 0)%Z then rc_of r else rc_total.

(** A world without environment in which every session, transfer and
    file operation succeeds and a command exits with [exit cmd]. *)
Definition world_of (exit : string -> Z) : world :=
  mkWorld ∅ (fun _ c => match c with
                        | CallRun _ full | CallLocal full _ => Ok (exit full)
                        | _ => Ok 0%Z
                        end).

(** The calls that run an external process. *)
Definition is_process (c : call) : bool :=
  match c with
  | CallRun _ _ | CallLocal _ _ => true
  | _ => false
  end.

(** Every process of the trace exited with status zero. *)
Definition processes_ok (t : trace) : Prop :=
  Forall (fun e => is_process e.1 = true -> e.2 = Ok 0%Z) t.

(** The trace at which the tasks of a target start: empty for the local
    machine, the successful opening of the session for a remote host. *)
Definition session_started (w : world) (c : option Connection) (t0 : trace) : Prop :=
  match c with
  | None => t0 = []
  | Some conn => exists z, answer w [] (CallOpen conn) = Ok z /\ t0 = [(CallOpen conn, Ok z)]
  end.

(** A world for the examples: [false] exits with 1, [exit 3] with 3,
    every other command with 0. *)
Definition demo_world : world :=
  world_of (fun cmd => if String.eqb cmd "false" then 1
                       else if String.eqb cmd "exit 3" then 3 else 0)%Z.

Definition demo_cfg : settings := mkSettings None None false None.

(** The calls that open or close a session. *)
Definition is_session (c : call) : bool :=
  match c with
  | CallOpen _ | CallClose _ => true
  | _ => false
  end.

Definition is_close (c : call) : bool :=
  match c with
  | CallClose _ => true
  | _ => false
  end.

(** How often the trace closes a session. *)
Definition closes (t : trace) : nat :=
  length (filter (fun e => is_close e.1 = true) t).

(** A computation that only adds calls to the trace, none of them on the
    session itself. *)
Definition off_session {A} (m : M A) : Prop :=
  forall t r t', m t = (r, t') ->
    exists new, t' = t ++ new /\ Forall (fun e => is_session e.1 = false) new.

(** A line of a task body as the parser stores it: stripped, not
    empty, no comment, no task header, no end marker, no description. *)
Definition body_line (l : string) : Prop :=
  strip l = l /\ l <> "" /\ startswith "#" l = false
  /\ startswith "task " l = false /\ l <> "end" /\ startswith "describe " l = false.

(** A task as the catalog holds it under the key [k]. *)
Definition task_wf (k : string) (t : Task) : Prop :=
  name t = k /\ k <> "" /\ strip k = k /\ Forall body_line (lines t)
  /\ (forall d, description t = Some d -> strip d = d /\ d <> "").

Definition catalog_wf (tasks : gmap string Task) : Prop :=
  forall k t, tasks !! k = Some t -> task_wf k t.

(** A computation that raises only when one of its calls raises: the
    exception is the answer of the last call of the trace. *)
Definition raises_by_call {A} (m : M A) : Prop :=
  forall t e t', m t = (Raised e, t') -> exists pre c, t' = pre ++ [(c, Raised e)].

(** A computation that raises before it makes any call, or else as
    [raises_by_call] says. *)
Definition raises_cleanly {A} (m : M A) : Prop :=
  forall t e t', m t = (Raised e, t') ->
    t' = t \/ exists pre c, t' = pre ++ [(c, Raised e)].

(** A world in which no session can be opened. *)
Definition refusing_world : world :=
  mkWorld ∅ (fun _ c => match c with
                        | CallOpen _ => Raised (OSError "timed out")
                        | _ => Ok 0%Z
                        end).

(** The items of a body for which [_execute_body] runs nothing: the
    descriptions, the tuples of loops and conditionals, the tuples with
    another tag, and the trees whose first child is none of a shell, a
    conditional or a sync statement. *)
Definition inert (item : node) : bool :=
  match item with
  | NShell _ | NSync _ => false
  | NTree (Some (NShell _)) | NTree (Some (NIf _ _ _)) | NTree (Some (NSync _)) => false
  | _ => true
  end.

(** A host of a normalised list: not empty, without blanks around it,
    without a comma. *)
Definition clean_host (h : string) : Prop :=
  h <> "" /\ strip h = h /\ contains_char "," h = false.

(** The part of the argument vector that names the exclude file: a
    text that is not empty after substitution. *)
Definition sync_exclude_from (opts : gmap string pyval) (env : pydict) : list string :=
  match opts !! "exclude_file" with
  | Some (PStr f) =>
      match _substitute_vars f env with
      | "" => []
      | f' => ["--exclude-from"; f']
      end
  | _ => []
  end.

(** The command of a shell statement of a body, which stands there as
    a tuple or as the first child of a tree. *)
Definition shell_command (item : node) : option string :=
  match item with
  | NShell c | NTree (Some (NShell c)) => Some c
  | _ => None
  end.

(** The statement [ln] stands among the selected tasks: after the
    tasks [done], in a task with the parameters [params], after the
    lines [before] of that task; an [env] line is no statement. *)
Definition statement_at (selected done : list selection) (before : list string)
    (ln : string) (params : gmap string string) : Prop :=
  startswith "env " (strip ln) = false
  /\ exists tname after later,
       selected = done ++ (tname, before ++ ln :: after, params) :: later.

(** The calls that stay on the local machine: a local process, and the
    two file operations of a local [copy]. *)
Definition is_local (c : call) : bool :=
  match c with
  | CallLocal _ _ | CallMakedirs _ | CallCopyfile _ _ => true
  | _ => false
  end.

(** A computation that only adds calls to the trace, all of them on the
    local machine. *)
Definition only_local {A} (m : M A) : Prop :=
  forall t r t', m t = (r, t') ->
    exists new, t' = t ++ new /\ Forall (fun e => is_local e.1 = true) new.

(** [ln] is a shell statement with the command [cmd], in a task with
    the parameters [params] and without [env] lines: after interpolation
    its words are [shell] and the words of [cmd]. *)
Definition shell_statement (w : world) (params : gmap string string) (ln cmd : string)
  : Prop :=
  startswith "env " (strip ln) = false /\ cmd <> ""
  /\ exists args,
       shlex_split (_interpolate (environ w) ln params []) = Ok ("shell" :: args)
       /\ join " " args = cmd.

(** The command line of the local process for a command: wrapped in
    [sudo] when that is asked for. *)
Definition local_full (cfg : settings) (cmd : string) : string :=
  if sudo cfg then _sudo_wrap cmd (sudo_user cfg) else cmd.

(** Local processes started one after the other in the process
    environment, until one does not exit with zero: the exit code of
    the last one and the calls made.  A process that cannot be started
    counts as code 1. *)
Fixpoint local_processes (w : world) (fulls : list string) (t : trace) : Z * trace :=
  match fulls with
  | [] => (0%Z, t)
  | full :: rest =>
      let r := answer w t (CallLocal full (environ w)) in
      let t1 := t ++ [(CallLocal full (environ w), r)] in
      match r with
      | Ok c => if (c =? 0)%Z then local_processes w rest t1 else (c, t1)
      | Raised _ => (1%Z, t1)
      end
  end.

(** The lines of a text, each with whether a task is open when the loop
    of [_expand_includes_from_text] reaches it. *)
Fixpoint task_open (inside : bool) (todo : list string) : list (bool * string) :=
  match todo with
  | [] => []
  | raw :: rest =>
      let stripped := strip (rstrip_nl raw) in
      (inside, raw)
      :: task_open (if startswith "task " stripped then true
                    else if String.eqb stripped "end" then false else inside) rest
  end.

(** The resolved path an inclusion directive names: the directive is a
    line outside a task that starts with [include] and has a second
    word.  Every other line names no path. *)
Definition directive (base : string) (l : bool * string) : option string :=
  let stripped := strip (rstrip_nl l.2) in
  if negb l.1 && startswith "include " stripped then include_target base stripped
  else None.

(** The lines that are no directives, as they go to the output. *)
Definition kept_lines (base : string) (lines : list (bool * string)) : list string :=
  map (fun l => rstrip_nl l.2) (filter (fun l => directive base l = None) lines).

(** The warning for an included file that does not exist. *)
Definition warning (p : string) : string := "[warn] include file not found: " +:+ p.

(** How the state [st'] of an expansion extends the state [st] it
    started from: nothing visited is forgotten, a path visited since is
    an expanded entry of the file system, and warnings and expanded
    paths are only added. *)
Definition extends (fs : gmap string fsnode) (st st' : inc_state) : Prop :=
  visited st ⊆ visited st'
  /\ (forall p, p ∈ visited st' -> p ∈ visited st \/ (p ∈ expanded st' /\ is_Some (fs !! p)))
  /\ (exists more, warnings st' = warnings st ++ more)
  /\ (exists new, expanded st' = expanded st ++ new).

Definition result_extends (fs : gmap string fsnode) (st : inc_state) (res : inc_result)
  : Prop :=
  match res with
  | IncOk _ st' | IncRaised _ st' => extends fs st st'
  | IncDepth => True
  end.

(** * Properties *)

(** ** The embedding on sample inputs *)

Example interpolate_demo :
  _interpolate {["HOME" := "/root"]} "cd ${HOME}/$dir; echo $$ ${x $y_1."
               {["dir" := "src"]} [("y_1", "B")]
  = "cd /root/src; echo $$ ${x B.".
Proof. vm_compute. reflexivity. Qed.

Example shlex_split_demo :
  shlex_split ("shell echo " +:+ String dquote ("a  b" +:+ String dquote " 'c d'e  f\ g"))
  = Ok ["shell"; "echo"; "a  b"; "c de"; "f g"].
Proof. vm_compute. reflexivity. Qed.

Example shlex_split_open :
  shlex_split "echo 'abc" = Raised (ValueError "No closing quotation")
  /\ shlex_split (String backslash "") = Raised (ValueError "No escaped character")
  /\ shlex_split "a '' b" = Ok ["a"; ""; "b"].
Proof. repeat split. Qed.

Example shlex_quote_demo :
  shlex_quote "a b" = "'a b'" /\ shlex_quote "/etc/x-1.conf" = "/etc/x-1.conf"
  /\ shlex_quote "" = "''" /\ shlex_quote "it's" = "'it'" +:+ String dquote ("'" +:+ String dquote "'s'").
Proof. vm_compute. repeat split. Qed.

Example py_int_demo :
  py_int " 12 " = Some 12%Z /\ py_int "+1_2" = Some 12%Z /\ py_int "-007" = Some (-7)%Z
  /\ py_int "1__2" = None /\ py_int "1_" = None /\ py_int "" = None /\ py_int "0x1" = None
  /\ py_int (String "028" "22") = None /\ py_int (String "031" "22") = None
  /\ py_int (String "011" "22" +:+ String "012" "") = Some 22%Z.
Proof. vm_compute. repeat split. Qed.

Example py_str_int_demo :
  py_str_int 22 = "22" /\ py_str_int (-1305) = "-1305" /\ py_str_int 0 = "0"
  /\ py_str_int 1000 = "1000".
Proof. vm_compute. repeat split. Qed.

Example normpath_demo :
  map normpath [""; "a//b/../c/."; "/.."; "//a"; "///a"; "../.."; "a/.."; "a/../.."; "/a/b/"]
  = ["."; "a/c"; "/"; "//a"; "/a"; "../.."; "."; ".."; "/a/b"].
Proof. vm_compute. reflexivity. Qed.

Example dirname_demo :
  map dirname [""; "a//b/../c/."; "/.."; "//a"; "///a"; "../.."; "a/.."; "/a/b/"; "x"]
  = [""; "a//b/../c"; "/"; "//"; "///"; ".."; "a"; "/a/b"; ""].
Proof. vm_compute. reflexivity. Qed.

Example path_join_demo :
  path_join "a" "b" = "a/b" /\ path_join "a/" "b" = "a/b" /\ path_join "" "b" = "b"
  /\ path_join "a" "/b" = "/b" /\ path_join "a" "" = "a/".
Proof. vm_compute. repeat split. Qed.

Example str_methods_demo :
  split_ws ("a" +:+ String "031" "b c") = ["a"; "b"; "c"]
  /\ splitlines ("ab" +:+ String "013" (String "010" ("c" +:+ String "010" (String "010" "d"))))
     = ["ab"; "c"; ""; "d"]
  /\ split_ws_1 "a  b c  " = ["a"; "b c  "] /\ split_ws_1 "a  " = ["a"]
  /\ split_ws_1 "  " = [] /\ strip "  a b  " = "a b"
  /\ replace "aa" "b" "aaa" = "ba" /\ replace "$a" "X" "$ab ${a}" = "Xb ${a}"
  /\ split_on "," "a,,b" = ["a"; ""; "b"] /\ partition_on "=" "k=v=w" = ("k", "v=w").
Proof. vm_compute. repeat split. Qed.

Example parse_embed :
  parse_pfyfile_text PFY_EMBED
  = Ok {[ "include_demo" :=
            mkTask "include_demo"
              ["shell echo " +:+ String dquote ("Include demo task ran." +:+ String dquote "")]
              (Some "Shows that this file is active even without Pfyfile.pf") ]}.
Proof. vm_compute. reflexivity. Qed.

Example parse_host_demo :
  _parse_host "punk@10.4.4.4:24" None None = Ok (TRemote (Some "punk") "10.4.4.4" (Some 24%Z))
  /\ _parse_host "@local" (Some "u") (Some "x") = Ok TLocal
  /\ _parse_host "web1" (Some "u") None = Ok (TRemote (Some "u") "web1" None)
  /\ _parse_host "web1:ssh" None None = Raised (ValueError "ssh").
Proof. vm_compute. repeat split. Qed.

(** The connection of a target: the arguments [_parse_host] found, port
    22 by default; a host text that still holds a user is refused when a
    user is given, and so is one that holds a port. *)
Example c_for_demo :
  _c_for (TRemote (Some "punk") "10.4.4.4" (Some 24%Z))
  = Ok (Some (mkConn "10.4.4.4" (Some "punk") 24))
  /\ _c_for (TRemote None "web1" None) = Ok (Some (mkConn "web1" None 22))
  /\ _c_for TLocal = Ok None
  /\ (_parse_host "a@b@c" None None = Ok (TRemote (Some "a") "b@c" None)
      /\ _c_for (TRemote (Some "a") "b@c" None)
         = Raised (ValueError
                     "You supplied the user via both shorthand and kwarg! Please pick one."))
  /\ _c_for (TRemote (Some "a") "@c" None) = Ok (Some (mkConn "@c" (Some "a") 22))
  /\ _c_for (TRemote None "h:2222" None)
     = Raised (ValueError
                 "You supplied the port via both shorthand and kwarg! Please pick one.")
  /\ _c_for (TRemote None "fe80::1" None) = Ok (Some (mkConn "fe80::1" None 22)).
Proof. vm_compute. repeat split. Qed.

Example resolve_hosts_demo :
  resolve_hosts ENV_MAP ["staging"; "nowhere"; "local"] ["a@b"; "staging@10.1.2.4:22"]
  = ["staging@10.1.2.3:22"; "staging@10.1.2.4:22"; "@local"; "a@b"].
Proof. vm_compute. reflexivity. Qed.

Example py_str_demo :
  py_str (PList ["a"; "b'c"; "d" +:+ String dquote "e"; String "001" (String backslash "")])
  = "['a', " +:+ String dquote ("b'c" +:+ String dquote (", 'd" +:+ String dquote ("e', '\x01" +:+ String backslash (String backslash "']")))).
Proof. vm_compute. reflexivity. Qed.

Example execute_sync_demo :
  _execute_sync true sync_example_opts [("x", "1")]
  = SyncRan ["rsync"; "-a"; "-v"; "--delete"; "-e"; "ssh -p 22"; "a/"; "u@h:b/"]
            "rsync -a -v --delete -e ssh -p 22 a/ u@h:b/".
Proof. vm_compute. reflexivity. Qed.

(** The port as the parser delivers it, a string of digits, gives the
    same vector; without a host the destination is the local path. *)
Example execute_sync_variants :
  _execute_sync true (<["port" := PStr "22"]> sync_example_opts) []
  = _execute_sync true sync_example_opts []
  /\ _execute_sync true
       (<["src" := PStr "$d/a b"]> (<["dest" := PStr "/srv"]>
        (<["excludes" := PList [".git"; "${d}.tmp"]]> (<["dry" := PBool true]>
        (<["verbose" := PBool false]> ∅)))))
       [("d", "x")]
     = SyncRan ["rsync"; "-a"; "-n"; "--exclude"; ".git"; "--exclude"; "x.tmp";
                "'x/a b'"; "/srv"]
               "rsync -a -n --exclude .git --exclude x.tmp 'x/a b' /srv".
Proof. split; vm_compute; reflexivity. Qed.

Example load_cycle :
  _load_pfy_source_with_includes fs_cycle "/p/Pfyfile.pf"
  = IncOk ("# --- begin include: /p/tasks/a.pf ---" +:+ nl +:+ "# a" +:+ nl +:+ nl +:+
           "# --- end include: /p/tasks/a.pf ---" +:+ nl +:+ "task t" +:+ nl +:+
           "  shell true" +:+ nl +:+ "end" +:+ nl)
          (mkInc {["/p/tasks/a.pf"; "/p/Pfyfile.pf"]}
                 ["[warn] include file not found: /p/tasks/b.pf"]
                 ["/p/tasks/a.pf"]).
Proof. vm_compute. reflexivity. Qed.

Example local_fallback_runs :
  main_dispatch demo_world demo_cfg ENV_MAP ["nowhere"] []
    [("t", ["shell exit 3"], ∅)] (@rev string) = 3%Z.
Proof. vm_compute. reflexivity. Qed.

(** A host whose port is no number makes its worker raise; the
    dispatcher counts that worker as failed and the other one runs as
    it would alone. *)
Example dispatch_survives_worker_exception :
  main_dispatch demo_world demo_cfg ENV_MAP [] ["web:ssh"; "@local"]
    [("t", ["shell true"], ∅)] id = 1%Z
  /\ worker demo_world demo_cfg [("t", ["shell true"], ∅)] "web:ssh"
     = (Raised (ValueError "ssh"), [])
  /\ worker demo_world demo_cfg [("t", ["shell true"], ∅)] "@local"
     = (Ok 0%Z, [(CallLocal "true" ∅, Ok 0%Z)]).
Proof. repeat split; vm_compute; reflexivity. Qed.

(** An [env] line assigns in order, each value interpolated against the
    assignments before it; the parameters still win on the command. *)
Example env_line_demo :
  worker demo_world demo_cfg
    [("t", ["env A=1 B=${A}2"; "shell echo $A $B $C"], {["C" := "3"]})] "@local"
  = (Ok 0%Z, [(CallLocal "echo 1 12 3" {["A" := "1"; "B" := "12"]}, Ok 0%Z)]).
Proof. vm_compute. reflexivity. Qed.

(** ** Strings *)

Lemma sapp_cons (c : ascii) (s t : string) : String c s +:+ t = String c (s +:+ t).
Proof. reflexivity. Qed.

Lemma sapp_nil_l (s : string) : "" +:+ s = s.
Proof. reflexivity. Qed.

Lemma sapp_nil_r (s : string) : s +:+ "" = s.
Proof. induction s as [|c s IH]; [reflexivity|]. by rewrite sapp_cons, IH. Qed.

Lemma sapp_assoc (s t u : string) : (s +:+ t) +:+ u = s +:+ (t +:+ u).
Proof. induction s as [|c s IH]; [reflexivity|]. by rewrite !sapp_cons, IH. Qed.

Lemma slength_app (s t : string) :
  String.length (s +:+ t) = (String.length s + String.length t)%nat.
Proof. induction s as [|c s IH]; [reflexivity|]. rewrite sapp_cons. simpl. by rewrite IH. Qed.

Lemma startswith_app (p s : string) : startswith p (p +:+ s) = true.
Proof.
  induction p as [|c p IH]; [reflexivity|].
  rewrite sapp_cons. simpl. by rewrite Ascii.eqb_refl, IH.
Qed.

Lemma startswith_inv (p s : string) :
  startswith p s = true -> exists r, s = p +:+ r.
Proof.
  revert s. induction p as [|c p IH]; intros s H.
  - by exists s.
  - destruct s as [|d s]; [discriminate|]. simpl in H.
    apply andb_true_iff in H as [Hc Hp]. apply Ascii.eqb_eq in Hc as ->.
    destruct (IH _ Hp) as [r ->]. by exists r.
Qed.

(** ** Interpolation: one pass, innermost layer first *)

Lemma span_word_name (n post : string) :
  all_word n = true -> ends_name post = true -> span_word (n +:+ post) = (n, post).
Proof.
  intros Hn Hp. induction n as [|c n IH].
  - rewrite sapp_nil_l. destruct post as [|d post]; [reflexivity|].
    simpl in *. by destruct (is_word d).
  - simpl in Hn. apply andb_true_iff in Hn as [Hc Hn].
    rewrite sapp_cons. simpl. rewrite Hc, (IH Hn). reflexivity.
Qed.

Lemma var_match_plain (n post : string) :
  is_name n = true -> ends_name post = true -> var_match (n +:+ post) = Some (n, n).
Proof.
  intros Hn Hp. unfold var_match. destruct n as [|c n]; [discriminate|].
  by rewrite (span_word_name _ _ Hn Hp).
Qed.

Lemma var_match_braced (n post : string) :
  is_name n = true ->
  var_match ("{" +:+ n +:+ "}" +:+ post) = Some (n, "{" +:+ n +:+ "}").
Proof.
  intros Hn. unfold var_match. destruct n as [|c n]; [discriminate|].
  change ("{" +:+ String c n +:+ "}" +:+ post)
    with (String "{" (String c n +:+ String "}" post)).
  cbn [span_word]. replace (is_word "{") with false by reflexivity.
  by rewrite (span_word_name (String c n) (String "}" post) Hn).
Qed.

Section ReSub.

(** The lemmas on [re_sub] hold for every replacement function. *)
Variable repl : string -> string -> string.

(** After a match the scan resumes right behind it. *)
Lemma re_sub_skip (a b : string) :
  re_sub repl (String.length a) (a +:+ b) = re_sub repl 0 b.
Proof.
  induction a as [|c a IH].
  - reflexivity.
  - rewrite sapp_cons. cbn [String.length re_sub]. exact IH.
Qed.

Lemma span_word_eq (s : string) : (span_word s).1 +:+ (span_word s).2 = s.
Proof.
  induction s as [|c s IH]; [reflexivity|]. simpl.
  destruct (is_word c); [|reflexivity].
  destruct (span_word s) as [w t]. simpl in *. by rewrite sapp_cons, IH.
Qed.

Lemma span_word_app (p r : string) (d : ascii) :
  is_word d = false ->
  span_word (p +:+ String d r) = ((span_word p).1, (span_word p).2 +:+ String d r).
Proof.
  intros Hd. induction p as [|c p IH].
  - rewrite sapp_nil_l. simpl. by rewrite Hd.
  - rewrite sapp_cons. simpl. destruct (is_word c); [|reflexivity].
    rewrite IH. by destruct (span_word p).
Qed.

(** A dollar sign ends whatever the pattern could match before it. *)
Lemma var_match_app_dollar (p r : string) :
  var_match (p +:+ String "$" r) = var_match p.
Proof.
  unfold var_match. rewrite span_word_app by reflexivity.
  destruct (span_word p) as [w t] eqn:Hp. simpl.
  destruct w as [|c w]; [|reflexivity].
  destruct p as [|c p]; [reflexivity|]. rewrite sapp_cons.
  destruct (Ascii.eqb_spec c "{") as [->|Hc].
  - rewrite span_word_app by reflexivity.
    destruct (span_word p) as [w' t']. simpl.
    destruct w' as [|c' w']; [reflexivity|].
    destruct t' as [|e t']; [reflexivity|]. by rewrite sapp_cons.
  - destruct c as [[] [] [] [] [] [] [] []]; try reflexivity. by destruct Hc.
Qed.

Lemma var_match_length (p key tok : string) :
  var_match p = Some (key, tok) -> (String.length tok <= String.length p)%nat.
Proof.
  unfold var_match. intros H.
  pose proof (span_word_eq p) as Hp.
  destruct (span_word p) as [w t]. simpl in Hp. destruct w as [|c w].
  - destruct p as [|c p]; [discriminate|].
    destruct (Ascii.eqb_spec c "{") as [->|Hc].
    + pose proof (span_word_eq p) as Hq.
      destruct (span_word p) as [w' t']. simpl in Hq.
      destruct w' as [|c' w']; [discriminate|].
      destruct t' as [|e t']; [discriminate|].
      destruct (Ascii.eqb_spec e "}") as [->|He].
      * injection H as _ <-. rewrite <- Hq.
        rewrite !sapp_cons, sapp_nil_l. cbn [String.length].
        rewrite !slength_app. cbn [String.length]. lia.
      * destruct e as [[] [] [] [] [] [] [] []]; try discriminate. by destruct He.
    + destruct c as [[] [] [] [] [] [] [] []]; try discriminate. by destruct Hc.
  - injection H as _ <-. rewrite <- Hp, slength_app. lia.
Qed.

(** What precedes a dollar sign is substituted on its own. *)
Lemma re_sub_dollar (pre rest : string) (skip : nat) :
  (skip <= String.length pre)%nat ->
  re_sub repl skip (pre +:+ String "$" rest)
  = re_sub repl skip pre +:+ re_sub repl 0 (String "$" rest).
Proof.
  revert skip. induction pre as [|c pre IH]; intros skip Hs.
  - simpl in Hs. by replace skip with 0%nat by lia.
  - rewrite sapp_cons. cbn [re_sub]. destruct skip as [|k].
    + destruct (Ascii.eqb c "$").
      * rewrite var_match_app_dollar.
        destruct (var_match pre) as [[key tok]|] eqn:Hm.
        -- rewrite IH by (by eapply var_match_length). by rewrite sapp_assoc.
        -- rewrite IH by lia. reflexivity.
      * rewrite IH by lia. reflexivity.
    + apply IH. simpl in Hs. lia.
Qed.

(** A use [$name]: the text before it, the replacement of the name,
    the text after it. *)
Lemma re_sub_use_plain (pre n post : string) :
  is_name n = true -> ends_name post = true ->
  re_sub repl 0 (pre +:+ "$" +:+ n +:+ post)
  = re_sub repl 0 pre +:+ repl n ("$" +:+ n) +:+ re_sub repl 0 post.
Proof.
  intros Hn Hp. change ("$" +:+ n +:+ post) with (String "$" (n +:+ post)).
  rewrite re_sub_dollar by lia. f_equal.
  cbn [re_sub]. replace (Ascii.eqb "$" "$") with true by reflexivity.
  rewrite (var_match_plain _ _ Hn Hp). by rewrite re_sub_skip.
Qed.

(** The same for a use [${name}]. *)
Lemma re_sub_use_braced (pre n post : string) :
  is_name n = true ->
  re_sub repl 0 (pre +:+ "${" +:+ n +:+ "}" +:+ post)
  = re_sub repl 0 pre +:+ repl n ("${" +:+ n +:+ "}") +:+ re_sub repl 0 post.
Proof.
  intros Hn. change ("${" +:+ n +:+ "}" +:+ post) with (String "$" ("{" +:+ n +:+ "}" +:+ post)).
  rewrite re_sub_dollar by lia. f_equal.
  cbn [re_sub]. replace (Ascii.eqb "$" "$") with true by reflexivity.
  rewrite (var_match_braced _ post Hn).
  replace ("{" +:+ n +:+ "}" +:+ post) with (("{" +:+ n +:+ "}") +:+ post)
    by (by rewrite !sapp_assoc).
  by rewrite re_sub_skip.
Qed.

(** Text without a dollar sign is left as it is. *)
Lemma re_sub_no_dollar (text : string) :
  contains_char "$" text = false -> re_sub repl 0 text = text.
Proof.
  induction text as [|c text IH]; [reflexivity|].
  cbn [contains_char re_sub]. rewrite (Ascii.eqb_sym c).
  destruct (Ascii.eqb "$" c); [discriminate|].
  intros H. by rewrite IH.
Qed.

End ReSub.

(** [m.update(d)] looks a key up in [d] first, latest assignment first. *)
Lemma map_update_lookup (m : gmap string string) (d : pydict) (k : string) :
  map_update m d !! k = from_option Some (m !! k) (dict_get k (rev d)).
Proof.
  unfold map_update. induction d as [|[k' v] d IH] using rev_ind; [reflexivity|].
  rewrite foldl_app, rev_app_distr. simpl.
  destruct (String.eqb_spec k k') as [->|Hk].
  - by rewrite lookup_insert_eq.
  - by rewrite lookup_insert_ne.
Qed.

(** The layers of [merged], innermost first: the parameters, the task
    environment, the process environment. *)
Lemma merged_scope_lookup (environ params : gmap string string) (extra_env : pydict)
    (k : string) :
  merged_scope environ params extra_env !! k
  = match params !! k with
    | Some v => Some v
    | None => from_option Some (environ !! k) (dict_get k (rev extra_env))
    end.
Proof.
  unfold merged_scope. rewrite lookup_union, map_update_lookup.
  destruct (params !! k) as [v|]; simpl.
  - by destruct (from_option _ _ _).
  - by destruct (from_option _ _ _).
Qed.

(** [_interpolate] at a use of a variable the scope binds to [v]: the
    value stands where the use stood, as it is, between the
    interpolations of the text before and of the text after. *)
Lemma interpolate_use (environ params : gmap string string) (extra_env : pydict)
    (pre n post v : string) :
  is_name n = true -> ends_name post = true ->
  merged_scope environ params extra_env !! n = Some v ->
  _interpolate environ (pre +:+ "$" +:+ n +:+ post) params extra_env
  = _interpolate environ pre params extra_env +:+ v
    +:+ _interpolate environ post params extra_env.
Proof.
  intros Hn Hp Hv. unfold _interpolate.
  rewrite re_sub_use_plain by done. by rewrite Hv.
Qed.

Lemma interpolate_use_braced (environ params : gmap string string) (extra_env : pydict)
    (pre n post v : string) :
  is_name n = true ->
  merged_scope environ params extra_env !! n = Some v ->
  _interpolate environ (pre +:+ "${" +:+ n +:+ "}" +:+ post) params extra_env
  = _interpolate environ pre params extra_env +:+ v
    +:+ _interpolate environ post params extra_env.
Proof.
  intros Hn Hv. unfold _interpolate.
  rewrite re_sub_use_braced by done. by rewrite Hv.
Qed.

(** A variable no layer binds keeps its token. *)
Lemma interpolate_unbound (environ params : gmap string string) (extra_env : pydict)
    (pre n post : string) :
  is_name n = true -> ends_name post = true ->
  merged_scope environ params extra_env !! n = None ->
  _interpolate environ (pre +:+ "$" +:+ n +:+ post) params extra_env
  = _interpolate environ pre params extra_env +:+ ("$" +:+ n)
    +:+ _interpolate environ post params extra_env.
Proof.
  intros Hn Hp Hv. unfold _interpolate.
  rewrite re_sub_use_plain by done. by rewrite Hv.
Qed.

Lemma interpolate_no_dollar (environ params : gmap string string) (extra_env : pydict)
    (text : string) :
  contains_char "$" text = false -> _interpolate environ text params extra_env = text.
Proof. apply re_sub_no_dollar. Qed.

(** The task environment shadows the process environment. *)
Lemma interpolate_task_env_over_environ (environ params : gmap string string)
    (extra_env : pydict) (pre n post ve : string) :
  is_name n = true -> ends_name post = true ->
  params !! n = None -> dict_get n (rev extra_env) = Some ve ->
  _interpolate environ (pre +:+ "$" +:+ n +:+ post) params extra_env
  = _interpolate environ pre params extra_env +:+ ve
    +:+ _interpolate environ post params extra_env.
Proof.
  intros Hn Hp Hparams He. apply interpolate_use; [done..|].
  by rewrite merged_scope_lookup, Hparams, He.
Qed.

(** C1, as stated, fails: with [x] bound to [P] by the parameters and to
    [E] by the task environment, [$x] interpolates to [P], not to the
    task-local [E]. *)
Lemma params_shadow_task_env_counterexample :
  ({["x" := "P"]} : gmap string string) !! "x" = Some "P"
  /\ dict_get "x" [("x", "E")] = Some "E"
  /\ _interpolate ∅ "$x" {["x" := "P"]} [("x", "E")] <> "E".
Proof.
  split; [reflexivity|]. split; [reflexivity|].
  intros H. vm_compute in H. discriminate H.
Qed.

(** C1 (amended): for a variable name bound both in the task invocation
    parameters and in the task-local environment, interpolation of a use
    of it ([$name] or [${name}]) returns the parameter value: [merged] is
    the process environment updated with the task environment and then
    with the parameters, so the parameters are the innermost layer. *)
Theorem interpolate_params_innermost (environ params : gmap string string)
    (extra_env : pydict) (pre n post vp ve : string) :
  is_name n = true -> ends_name post = true ->
  params !! n = Some vp -> dict_get n extra_env = Some ve ->
  _interpolate environ (pre +:+ "$" +:+ n +:+ post) params extra_env
  = _interpolate environ pre params extra_env +:+ vp
    +:+ _interpolate environ post params extra_env
  /\ _interpolate environ (pre +:+ "${" +:+ n +:+ "}" +:+ post) params extra_env
     = _interpolate environ pre params extra_env +:+ vp
       +:+ _interpolate environ post params extra_env.
Proof.
  intros Hn Hp Hparams _.
  assert (merged_scope environ params extra_env !! n = Some vp) as Hm
    by (by rewrite merged_scope_lookup, Hparams).
  split; [by apply interpolate_use | by apply interpolate_use_braced].
Qed.

Lemma interpolate_params_innermost_witness :
  _interpolate {["port" := "1"]} ("listen $port;") {["port" := "9443"]} [("port", "80")]
  = "listen 9443;"
  /\ _interpolate {["port" := "1"]} ("listen ${port};") {["port" := "9443"]} [("port", "80")]
     = "listen 9443;".
Proof.
  exact (interpolate_params_innermost {["port" := "1"]} {["port" := "9443"]}
           [("port", "80")] "listen " "port" ";" "9443" "80"
           eq_refl eq_refl eq_refl eq_refl).
Defined.

(** [_interpolate] makes one pass: a value that itself holds a variable
    reference is put into the output as it is, whatever the scope says
    about that reference. *)
Lemma interpolate_single_pass (environ params : gmap string string) (extra_env : pydict)
    (pre n post other : string) :
  is_name n = true -> ends_name post = true ->
  merged_scope environ params extra_env !! n = Some ("$" +:+ other) ->
  _interpolate environ (pre +:+ "$" +:+ n +:+ post) params extra_env
  = _interpolate environ pre params extra_env +:+ ("$" +:+ other)
    +:+ _interpolate environ post params extra_env.
Proof. apply interpolate_use. Qed.

(** C5, the code against the claim: [_substitute_vars] of
    [pf_parser.py] replaces variable after variable in the text obtained
    so far, so the value [$b] substituted for [$a] is scanned again and
    the reference in it is replaced as well; the claim wants [$b] in the
    output.  [_interpolate] of [pf.py] on the same scope gives [$b]. *)
Theorem substitute_vars_rescans_values :
  _substitute_vars "$a" [("a", "$b"); ("b", "X")] = "X"
  /\ _interpolate ∅ "$a" {["a" := "$b"; "b" := "X"]} [] = "$b".
Proof. split; vm_compute; reflexivity. Qed.

(** The outcome depends on the order of the dictionary, and a use is
    also replaced inside a longer name. *)
Lemma substitute_vars_order_and_prefix :
  _substitute_vars "$a" [("b", "X"); ("a", "$b")] = "$b"
  /\ _substitute_vars "$ab" [("a", "X")] = "Xb"
  /\ _interpolate ∅ "$ab" {["a" := "X"]} [] = "$ab".
Proof. repeat split; vm_compute; reflexivity. Qed.

(** ** Stripped lines and the task header *)

Lemma rstrip_by_last (f : ascii -> bool) (s : string) (c : ascii) :
  last_char (rstrip_by f s) = Some c -> f c = false.
Proof.
  induction s as [|a r IH]; [discriminate|]. cbn [rstrip_by].
  destruct (rstrip_by f r) as [|b t] eqn:Hr.
  - destruct (f a) eqn:Hf; [discriminate|]. intros [= <-]. exact Hf.
  - intros H. apply IH. exact H.
Qed.

Lemma rstrip_by_id (f : ascii -> bool) (s : string) (c : ascii) :
  last_char s = Some c -> f c = false -> rstrip_by f s = s.
Proof.
  induction s as [|a r IH]; [discriminate|]. intros Hl Hf. cbn [rstrip_by].
  destruct r as [|b t].
  - injection Hl as ->. cbn [rstrip_by]. by rewrite Hf.
  - rewrite (IH Hl Hf). reflexivity.
Qed.

Lemma lstrip_last (s : string) (c : ascii) :
  last_char (lstrip s) = Some c -> last_char s = Some c.
Proof.
  induction s as [|a r IH]; [discriminate|]. cbn [lstrip].
  destruct (is_pyspace a); [|done].
  intros H. specialize (IH H). destruct r; [discriminate|]. exact IH.
Qed.

Lemma lstrip_keeps_last (s : string) (c : ascii) :
  last_char s = Some c -> is_pyspace c = false -> last_char (lstrip s) = Some c.
Proof.
  induction s as [|a r IH]; [discriminate|]. intros Hl Hc. cbn [lstrip].
  destruct (is_pyspace a) eqn:Ha; [|exact Hl].
  destruct r as [|b t]; [injection Hl as ->; congruence|]. by apply IH.
Qed.

Lemma lstrip_idem (s : string) : lstrip (lstrip s) = lstrip s.
Proof.
  induction s as [|a r IH]; [reflexivity|]. cbn [lstrip].
  destruct (is_pyspace a) eqn:Ha; [exact IH|]. cbn [lstrip]. by rewrite Ha.
Qed.

(** A stripped line does not end with whitespace. *)
Lemma strip_last (s : string) (c : ascii) :
  last_char (strip s) = Some c -> is_pyspace c = false.
Proof. intros H. apply lstrip_last in H. by apply rstrip_by_last in H. Qed.

Lemma last_char_cons (a : ascii) (s : string) : last_char (String a s) <> None.
Proof.
  revert a. induction s as [|b t IH]; intros a; [discriminate|].
  cbn [last_char]. apply (IH b).
Qed.

Lemma last_char_app (s t : string) :
  t <> "" -> last_char (s +:+ t) = last_char t.
Proof.
  intros Ht. induction s as [|a r IH]; [reflexivity|].
  rewrite sapp_cons. cbn [last_char]. destruct (r +:+ t) eqn:Hrt; [|exact IH].
  destruct r; [by rewrite sapp_nil_l in Hrt | discriminate].
Qed.

Lemma span_nonspace_word (w r : string) :
  no_space w = true -> span_nonspace (w +:+ String " " r) = (w, String " " r).
Proof.
  intros Hw. induction w as [|c w IH]; [reflexivity|].
  cbn [no_space] in Hw. apply andb_true_iff in Hw as [Hc Hw].
  rewrite sapp_cons. cbn [span_nonspace].
  destruct (is_pyspace c); [discriminate|]. by rewrite (IH Hw).
Qed.

(** A stripped line that starts with a keyword and a space has a second
    field, and the field is not blank. *)
Lemma split_after_keyword (w raw : string) :
  w <> "" -> no_space w = true ->
  startswith (w +:+ " ") (strip raw) = true ->
  exists r, split_ws_1 (strip raw) = [w; r] /\ strip r = r /\ r <> "".
Proof.
  intros Hne Hw Hs. apply startswith_inv in Hs as [r Hr].
  rewrite sapp_assoc in Hr. change (" " +:+ r) with (String " " r) in Hr.
  assert (exists c, last_char r = Some c /\ is_pyspace c = false) as (c & Hl & Hc).
  { destruct (last_char (strip raw)) as [c|] eqn:Hl.
    - pose proof (strip_last _ _ Hl) as Hc. rewrite Hr in Hl.
      rewrite last_char_app in Hl by discriminate.
      destruct r as [|b t]; [injection Hl as <-; discriminate|].
      exists c. split; [exact Hl | exact Hc].
    - rewrite Hr in Hl. rewrite last_char_app in Hl by discriminate.
      by apply last_char_cons in Hl. }
  pose proof (lstrip_keeps_last _ _ Hl Hc) as Hl'.
  exists (lstrip r). rewrite Hr. repeat split.
  - unfold split_ws_1. destruct w as [|a w]; [done|].
    cbn [no_space] in Hw. apply andb_true_iff in Hw as [Ha Hw].
    rewrite sapp_cons. cbn [lstrip]. destruct (is_pyspace a) eqn:Hsp; [discriminate|].
    rewrite <- sapp_cons.
    rewrite span_nonspace_word by (cbn [no_space]; by rewrite Hsp, Hw).
    cbn [lstrip]. replace (is_pyspace " ") with true by reflexivity.
    destruct (lstrip r); [discriminate|reflexivity].
  - unfold strip. unfold rstrip. rewrite (rstrip_by_id _ _ _ Hl' Hc). apply lstrip_idem.
  - intros E. rewrite E in Hl'. discriminate.
Qed.

(** The parser never raises: the check for a missing task name comes
    after the line was stripped and found to start with the keyword and
    a space, and then the name cannot be empty. *)
Lemma parse_lines_total (todo : list string) (tasks : gmap string Task) (cur : option Task) :
  exists res, parse_lines todo tasks cur = Ok res.
Proof.
  revert tasks cur. induction todo as [|raw rest IH]; intros tasks cur.
  - by eexists.
  - cbn [parse_lines].
    destruct (String.eqb (strip raw) "" || startswith "#" (strip raw)); [apply IH|].
    destruct (startswith "task " (strip raw)) eqn:Ht.
    { destruct (split_after_keyword "task" raw) as (r & -> & Hr & Hne); [done..|].
      rewrite Hr. destruct (String.eqb_spec r ""); [done|]. apply IH. }
    destruct (String.eqb (strip raw) "end"); [apply IH|].
    destruct cur as [t|]; [|apply IH].
    destruct (startswith "describe " (strip raw)) eqn:Hd; [|apply IH].
    destruct (description t); [apply IH|].
    destruct (split_after_keyword "describe" raw) as (r & -> & Hr & Hne); [done..|].
    apply IH.
Qed.

(** C9, the code against the claim: a [task] line with no name after it
    does not start with the keyword followed by a space once it is
    stripped, so it is no header at all: outside a task it is dropped,
    inside one it becomes a line of the body, and parsing returns a
    catalog.  The claim wants a fatal parse error. *)
Theorem parse_accepts_nameless_task_header :
  parse_pfyfile_text ("task" +:+ nl +:+ "  shell echo hi" +:+ nl +:+ "end" +:+ nl) = Ok ∅
  /\ parse_pfyfile_text ("task a" +:+ nl +:+ "task   " +:+ nl +:+ "end" +:+ nl)
     = Ok {["a" := mkTask "a" ["task"] None]}.
Proof. split; vm_compute; reflexivity. Qed.

(** No input at all makes [parse_pfyfile_text] raise: the error for a
    missing task name cannot be reached. *)
Lemma parse_pfyfile_text_total (text : string) :
  exists tasks, parse_pfyfile_text text = Ok tasks.
Proof. apply parse_lines_total. Qed.

(** ** Include expansion: every path at most once, and an end *)

Lemma continues_refl (fs : gmap string fsnode) (st : inc_state) : continues fs st st.
Proof.
  split; [done|]. exists []. rewrite app_nil_r.
  split; [done|]. split; [constructor|]. intros p Hp. by apply elem_of_nil in Hp.
Qed.

Lemma continues_trans (fs : gmap string fsnode) (st1 st2 st3 : inc_state) :
  continues fs st1 st2 -> continues fs st2 st3 -> continues fs st1 st3.
Proof.
  intros (Hv1 & new1 & He1 & Hn1 & Hp1) (Hv2 & new2 & He2 & Hn2 & Hp2).
  split; [set_solver|]. exists (new1 ++ new2).
  split; [by rewrite He2, He1, <- (assoc_L (++))|].
  split.
  - apply NoDup_app. split; [done|]. split; [|done].
    intros p Hin1 Hin2. destruct (Hp1 p Hin1) as (_ & Hv & _).
    destruct (Hp2 p Hin2) as (Hnv & _). done.
  - intros p [Hin|Hin]%elem_of_app.
    + destruct (Hp1 p Hin) as (? & ? & ?). set_solver.
    + destruct (Hp2 p Hin) as (? & ? & ?). set_solver.
Qed.

Lemma continues_unvisited (fs : gmap string fsnode) (st st' : inc_state) :
  continues fs st st' -> (unvisited fs st' <= unvisited fs st)%nat.
Proof. intros [Hv _]. unfold unvisited. apply subseteq_size. set_solver. Qed.

Lemma continues_visit (fs : gmap string fsnode) (st : inc_state) (p : string) :
  p ∉ visited st -> is_Some (fs !! p) -> continues fs st (visit p st).
Proof.
  intros Hp Hfs. split; [simpl; set_solver|]. exists [p].
  split; [done|]. split; [apply NoDup_singleton|].
  intros q ->%list_elem_of_singleton. simpl. set_solver.
Qed.

Lemma unvisited_visit (fs : gmap string fsnode) (st : inc_state) (p : string) :
  p ∉ visited st -> is_Some (fs !! p) ->
  (unvisited fs (visit p st) < unvisited fs st)%nat.
Proof.
  intros Hp Hfs. unfold unvisited. apply subset_size. simpl.
  apply elem_of_dom in Hfs. set_solver.
Qed.

Lemma continues_warn (fs : gmap string fsnode) (st : inc_state) (msg : string) :
  continues fs st (mkInc (visited st) (warnings st ++ [msg]) (expanded st)).
Proof.
  split; [done|]. exists []. simpl. rewrite app_nil_r.
  split; [done|]. split; [constructor|]. intros p Hp. by apply elem_of_nil in Hp.
Qed.

Lemma expansion_ok_trans (fs : gmap string fsnode) (st st' : inc_state) (res : inc_result) :
  continues fs st st' -> expansion_ok fs st' res -> expansion_ok fs st res.
Proof. destruct res; simpl; eauto using continues_trans. Qed.

(** The loop, for a [self] that is fine whenever fewer than [d] paths
    are left to visit. *)
Lemma expand_lines_ok (fs : gmap string fsnode)
    (self : string -> string -> inc_state -> inc_result) (d : nat) :
  (forall text base st, (unvisited fs st < d)%nat -> expansion_ok fs st (self text base st)) ->
  forall base todo inside out st,
    (unvisited fs st <= d)%nat ->
    expansion_ok fs st (expand_lines self fs base todo inside out st).
Proof.
  intros Hself base todo. induction todo as [|raw rest IH]; intros inside out st Hd.
  - simpl. apply continues_refl.
  - cbn [expand_lines].
    destruct (startswith "task " _); [by apply IH|].
    destruct (String.eqb _ "end"); [by apply IH|].
    destruct (negb inside && startswith "include " _); [|by apply IH].
    destruct (include_target base _) as [inc_full|]; [|by apply IH].
    case_bool_decide as Hvis; [by apply IH|].
    destruct (fs !! inc_full) as [node|] eqn:Hfs.
    + fold (visit inc_full st).
      assert (continues fs st (visit inc_full st)) as Hc by (by apply continues_visit).
      assert (unvisited fs (visit inc_full st) < unvisited fs st)%nat as Hlt
        by (by apply unvisited_visit).
      destruct node as [inc_text|]; [|exact Hc].
      specialize (Hself inc_text (dirname inc_full) (visit inc_full st)).
      destruct (self inc_text (dirname inc_full) (visit inc_full st)) as [t st2|e st2|].
      * simpl in Hself. specialize (Hself ltac:(lia)).
        apply (expansion_ok_trans _ _ st2); [by eapply continues_trans|].
        apply IH. apply continues_unvisited in Hself. lia.
      * simpl in *. eapply continues_trans; [exact Hc|]. apply Hself. lia.
      * simpl in *. apply Hself. lia.
    + eapply expansion_ok_trans; [apply continues_warn|]. by apply IH.
Qed.

Lemma expand_includes_ok (fs : gmap string fsnode) (depth : nat) :
  forall text base st,
    (unvisited fs st < depth)%nat ->
    expansion_ok fs st (_expand_includes_from_text depth fs text base st).
Proof.
  induction depth as [|d IH]; intros text base st Hd; [lia|].
  cbn [_expand_includes_from_text].
  apply (expand_lines_ok fs _ d); [exact IH | lia].
Qed.

Lemma include_line_not_boundary (s : string) :
  startswith "include " s = true ->
  startswith "task " s = false /\ String.eqb s "end" = false.
Proof. intros [r ->]%startswith_inv. split; reflexivity. Qed.

Lemma extends_refl (fs : gmap string fsnode) (st : inc_state) : extends fs st st.
Proof.
  split; [done|]. split; [by left|]. split; exists []; by rewrite app_nil_r.
Qed.

Lemma extends_trans (fs : gmap string fsnode) (st1 st2 st3 : inc_state) :
  extends fs st1 st2 -> extends fs st2 st3 -> extends fs st1 st3.
Proof.
  intros (Hv1 & Hp1 & [m1 Hw1] & [n1 He1]) (Hv2 & Hp2 & [m2 Hw2] & [n2 He2]).
  split; [set_solver|]. split; [|split].
  - intros p Hp. destruct (Hp2 p Hp) as [H2|H2]; [|by right].
    destruct (Hp1 p H2) as [H1|[H1 Hfs]]; [by left|]. right. split; [|done].
    rewrite He2. apply elem_of_app. by left.
  - exists (m1 ++ m2). by rewrite Hw2, Hw1, <- (assoc_L (++)).
  - exists (n1 ++ n2). by rewrite He2, He1, <- (assoc_L (++)).
Qed.

Lemma extends_visit (fs : gmap string fsnode) (st : inc_state) (p : string) :
  is_Some (fs !! p) -> extends fs st (visit p st).
Proof.
  intros Hfs. split; [simpl; set_solver|]. split; [|split].
  - intros q Hq. simpl in Hq. apply elem_of_union in Hq as [->%elem_of_singleton|Hq].
    + right. split; [|done]. simpl. apply elem_of_app. right. by apply list_elem_of_singleton.
    + by left.
  - exists []. simpl. by rewrite app_nil_r.
  - by exists [p].
Qed.

Lemma extends_warned (fs : gmap string fsnode) (st : inc_state) (p : string) :
  extends fs st (warned p st).
Proof.
  split; [done|]. split; [by left|]. split.
  - by eexists.
  - exists []. simpl. by rewrite app_nil_r.
Qed.

Lemma result_extends_trans (fs : gmap string fsnode) (st st' : inc_state)
    (res : inc_result) :
  extends fs st st' -> result_extends fs st' res -> result_extends fs st res.
Proof. destruct res; simpl; eauto using extends_trans. Qed.

(** The loop only extends the state, whatever the nesting depth. *)
Lemma expand_lines_extends (fs : gmap string fsnode)
    (self : string -> string -> inc_state -> inc_result) :
  (forall text base st, result_extends fs st (self text base st)) ->
  forall base todo inside out st,
    result_extends fs st (expand_lines self fs base todo inside out st).
Proof.
  intros Hself base todo. induction todo as [|raw rest IH]; intros inside out st.
  - simpl. apply extends_refl.
  - cbn [expand_lines].
    destruct (startswith "task " _); [by apply IH|].
    destruct (String.eqb _ "end"); [by apply IH|].
    destruct (negb inside && startswith "include " _); [|by apply IH].
    destruct (include_target base _) as [inc_full|]; [|by apply IH].
    case_bool_decide as Hvis; [by apply IH|].
    destruct (fs !! inc_full) as [node|] eqn:Hfs.
    + fold (visit inc_full st).
      assert (extends fs st (visit inc_full st)) as Hc by (by apply extends_visit).
      destruct node as [inc_text|]; [|exact Hc].
      specialize (Hself inc_text (dirname inc_full) (visit inc_full st)).
      destruct (self inc_text (dirname inc_full) (visit inc_full st)) as [t st2|e st2|].
      * simpl in Hself. apply (result_extends_trans _ _ st2); [by eapply extends_trans|].
        apply IH.
      * simpl in *. by eapply extends_trans.
      * done.
    + fold (warning inc_full). fold (warned inc_full st).
      eapply result_extends_trans; [apply extends_warned|]. apply IH.
Qed.

Lemma expand_includes_extends (fs : gmap string fsnode) (depth : nat) :
  forall text base st,
    result_extends fs st (_expand_includes_from_text depth fs text base st).
Proof.
  induction depth as [|d IH]; intros text base st; [done|].
  cbn [_expand_includes_from_text]. by apply expand_lines_extends.
Qed.

(** What the loop does for the directives it meets, when it comes to
    its end: the file named is visited afterwards, or, when there is no
    such file and the path was not visited, its warning was printed. *)
Lemma expand_lines_honours (fs : gmap string fsnode)
    (self : string -> string -> inc_state -> inc_result) :
  (forall text base st, result_extends fs st (self text base st)) ->
  forall base todo inside out st o st',
    expand_lines self fs base todo inside out st = IncOk o st' ->
    forall l p, l ∈ task_open inside todo -> directive base l = Some p ->
      (is_Some (fs !! p) -> p ∈ visited st')
      /\ (fs !! p = None -> p ∉ visited st -> warning p ∈ warnings st').
Proof.
  intros Hself base todo. induction todo as [|raw rest IH]; intros inside out st o st' Hrun l p Hl Hd.
  { by apply elem_of_nil in Hl. }
  cbn [task_open] in Hl. cbn [expand_lines] in Hrun.
  assert (forall inside' out' st1,
            extends fs st st1 ->
            expand_lines self fs base rest inside' out' st1 = IncOk o st' ->
            l ∈ task_open inside' rest ->
            (is_Some (fs !! p) -> p ∈ visited st')
            /\ (fs !! p = None -> p ∉ visited st -> warning p ∈ warnings st')) as Hrest.
  { intros inside' out' st1 Hext Hrun' Hl'.
    destruct (IH _ _ _ _ _ Hrun' l p Hl' Hd) as [H1 H2]. split; [exact H1|].
    intros Hfs Hnv. apply H2; [exact Hfs|]. intros Hin.
    destruct Hext as (_ & Hp & _). destruct (Hp p Hin) as [?|[_ [? Hsome]]]; [done|].
    by rewrite Hfs in Hsome. }
  apply elem_of_cons in Hl as [->|Hl].
  - (* the directive is the line at hand *)
    unfold directive in Hd. cbn [fst snd] in Hd.
    destruct (negb inside && startswith "include " (strip (rstrip_nl raw))) eqn:Hinc;
      [|discriminate].
    apply andb_true_iff in Hinc as [Hout Hstart].
    destruct (include_line_not_boundary _ Hstart) as [Htask Hend].
    rewrite Htask, Hend, Hd in Hrun.
    case_bool_decide as Hvis.
    + pose proof (expand_lines_extends fs self Hself base rest inside out st) as Hext.
      rewrite Hrun in Hext. simpl in Hext. destruct Hext as (Hv & _).
      split; [intros _; set_solver | done].
    + destruct (fs !! p) as [node|] eqn:Hfs.
      * fold (visit p st) in Hrun. destruct node as [inc_text|]; [|discriminate].
        pose proof (Hself inc_text (dirname p) (visit p st)) as Hs.
        destruct (self inc_text (dirname p) (visit p st)) as [t st2|e st2|]; try discriminate.
        simpl in Hs.
        pose proof (expand_lines_extends fs self Hself base rest inside
                      (out ++ ["# --- begin include: " +:+ p +:+ " ---"; t;
                               "# --- end include: " +:+ p +:+ " ---"]) st2) as Hext.
        rewrite Hrun in Hext. simpl in Hext.
        split; [|done]. intros _. destruct Hs as (Hv1 & _). destruct Hext as (Hv2 & _).
        simpl in Hv1. set_solver.
      * pose proof (expand_lines_extends fs self Hself base rest inside out (warned p st))
          as Hext.
        unfold warned in Hext. rewrite Hrun in Hext. simpl in Hext. destruct Hext as (_ & _ & [more Hw] & _).
        split; [by intros [? ?]|]. intros _ _. rewrite Hw. simpl.
        apply elem_of_app. left. apply elem_of_app. right. by apply list_elem_of_singleton.
  - (* the directive is a later line *)
    destruct (startswith "task " (strip (rstrip_nl raw))) eqn:Htask.
    { by apply (Hrest _ _ st (extends_refl fs st) Hrun). }
    destruct (String.eqb (strip (rstrip_nl raw)) "end") eqn:Hend.
    { by apply (Hrest _ _ st (extends_refl fs st) Hrun). }
    destruct (negb inside && startswith "include " (strip (rstrip_nl raw))) eqn:Hinc;
      [|by apply (Hrest _ _ st (extends_refl fs st) Hrun)].
    destruct (include_target base (strip (rstrip_nl raw))) as [q|];
      [|by apply (Hrest _ _ st (extends_refl fs st) Hrun)].
    case_bool_decide as Hvis; [by apply (Hrest _ _ st (extends_refl fs st) Hrun)|].
    destruct (fs !! q) as [node|] eqn:Hfs.
    + fold (visit q st) in Hrun. destruct node as [inc_text|]; [|discriminate].
      pose proof (Hself inc_text (dirname q) (visit q st)) as Hs.
      destruct (self inc_text (dirname q) (visit q st)) as [t st2|e st2|]; try discriminate.
      simpl in Hs. eapply (Hrest _ _ st2); [|exact Hrun|exact Hl].
      eapply extends_trans; [by apply extends_visit|exact Hs].
    + by apply (Hrest _ _ (warned q st) (extends_warned fs st q) Hrun).
Qed.

Lemma omap_cons_eq {A B} (f : A -> option B) (x : A) (l : list A) :
  omap f (x :: l) = match f x with Some y => y :: omap f l | None => omap f l end.
Proof. reflexivity. Qed.

Lemma task_line_no_directive (s : string) :
  startswith "task " s = true -> startswith "include " s = false.
Proof. intros [r ->]%startswith_inv. reflexivity. Qed.

Lemma end_line_no_directive (s : string) :
  String.eqb s "end" = true -> startswith "include " s = false.
Proof. intros ->%String.eqb_eq. reflexivity. Qed.

(** The loop over lines whose directives name visited paths or files
    that do not exist: the other lines go to the output, each missing
    file gets its warning, and nothing else changes. *)
Lemma expand_lines_closed (fs : gmap string fsnode)
    (self : string -> string -> inc_state -> inc_result) (base : string)
    (vis : gset string) (exp : list string) :
  forall todo inside out warns,
    (forall l p, l ∈ task_open inside todo -> directive base l = Some p ->
                 p ∈ vis \/ fs !! p = None) ->
    expand_lines self fs base todo inside out (mkInc vis warns exp)
    = IncOk (joined_output (out ++ kept_lines base (task_open inside todo)))
            (mkInc vis
               (warns ++ map warning (filter (fun p => p ∉ vis)
                                             (omap (directive base) (task_open inside todo))))
               exp).
Proof.
  induction todo as [|raw rest IH]; intros inside out warns Hall.
  { simpl. by rewrite !app_nil_r. }
  cbn [expand_lines task_open].
  assert (forall inside', inside' = (if startswith "task " (strip (rstrip_nl raw)) then true
                                     else if String.eqb (strip (rstrip_nl raw)) "end"
                                          then false else inside) ->
          forall l p, l ∈ task_open inside' rest -> directive base l = Some p ->
                      p ∈ vis \/ fs !! p = None) as Hrest.
  { intros inside' -> l p Hl. apply Hall. cbn [task_open]. by apply elem_of_cons; right. }
  destruct (startswith "task " (strip (rstrip_nl raw))) eqn:Htask.
  { assert (directive base (inside, raw) = None) as Hd.
    { unfold directive. cbn [fst snd]. by rewrite (task_line_no_directive _ Htask), andb_false_r. }
    rewrite (IH true (out ++ [rstrip_nl raw]) warns (Hrest true eq_refl)).
    unfold kept_lines. rewrite filter_cons_True by done. rewrite omap_cons_eq, Hd.
    cbn [map snd]. by rewrite <- (assoc_L (++)). }
  destruct (String.eqb (strip (rstrip_nl raw)) "end") eqn:Hend.
  { assert (directive base (inside, raw) = None) as Hd.
    { unfold directive. cbn [fst snd]. by rewrite (end_line_no_directive _ Hend), andb_false_r. }
    rewrite (IH false (out ++ [rstrip_nl raw]) warns (Hrest false eq_refl)).
    unfold kept_lines. rewrite filter_cons_True by done. rewrite omap_cons_eq, Hd.
    cbn [map snd]. by rewrite <- (assoc_L (++)). }
  destruct (negb inside && startswith "include " (strip (rstrip_nl raw))) eqn:Hinc.
  - destruct (include_target base (strip (rstrip_nl raw))) as [p|] eqn:Ht.
    + assert (directive base (inside, raw) = Some p) as Hd.
      { unfold directive. cbn [fst snd]. by rewrite Hinc. }
      unfold kept_lines. rewrite filter_cons_False by (by rewrite Hd). rewrite omap_cons_eq, Hd.
      cbn [visited warnings expanded].
      case_bool_decide as Hvis.
      * rewrite filter_cons_False by (intros H; by apply H).
        apply (IH inside out warns (Hrest inside eq_refl)).
      * rewrite filter_cons_True by done.
        destruct (Hall (inside, raw) p) as [?|Hfs]; [by left|exact Hd|done|].
        rewrite Hfs. fold (warning p).
        rewrite (IH inside out (warns ++ [warning p]) (Hrest inside eq_refl)).
        cbn [map]. unfold kept_lines. by rewrite <- (assoc_L (++)).
    + assert (directive base (inside, raw) = None) as Hd.
      { unfold directive. cbn [fst snd]. by rewrite Hinc. }
      rewrite (IH inside (out ++ [rstrip_nl raw]) warns (Hrest inside eq_refl)).
      unfold kept_lines. rewrite filter_cons_True by done. rewrite omap_cons_eq, Hd.
      cbn [map snd]. by rewrite <- (assoc_L (++)).
  - assert (directive base (inside, raw) = None) as Hd.
    { unfold directive. cbn [fst snd]. by rewrite Hinc. }
    rewrite (IH inside (out ++ [rstrip_nl raw]) warns (Hrest inside eq_refl)).
    unfold kept_lines. rewrite filter_cons_True by done. rewrite omap_cons_eq, Hd.
    cbn [map snd]. by rewrite <- (assoc_L (++)).
Qed.

(** C7: include expansion never expands the same resolved path twice,
    comes to an end, and treats the directives as follows.
    (1) A load never exceeds its nesting depth, the paths it expanded
    are pairwise different entries of the file system, and the root
    file is not among them.  (2) The same for any start: with fewer
    unvisited paths than nesting depth the expansion ends, and the
    paths it expands are new, pairwise different and visited
    afterwards.  (3) When an expansion returns a text, every directive
    of the source was honoured: a file that exists is visited
    afterwards, and it was visited before or is among the expanded
    paths (so, by (1) and (2), it was expanded exactly once or not at
    all); for a file that does not exist and was not visited, the
    warning is among the warnings of the result.  (4) A source whose
    directives all name visited paths or files that do not exist comes
    out as its other lines, in order: each such directive is dropped
    from the output, the lines after it are loaded, the warnings of the
    result are the earlier ones and one for each directive that names a
    missing file (none for a visited path), and no path is visited or
    expanded.  (5) In the loop, a directive that names a visited path
    is skipped without output, warning or change of state, and (6) one
    that names a path that does not exist adds a warning and nothing
    else, and the loop goes on with the next line. *)
Theorem include_expansion_once (fs : gmap string fsnode) :
  (forall root,
     match _load_pfy_source_with_includes fs root with
     | IncOk _ st | IncRaised _ st =>
         NoDup (expanded st) /\ (normpath root ∉ expanded st)
         /\ forall p, p ∈ expanded st -> is_Some (fs !! p)
     | IncDepth => False
     end)
  /\ (forall depth text base st,
        (unvisited fs st < depth)%nat ->
        expansion_ok fs st (_expand_includes_from_text depth fs text base st))
  /\ (forall depth text base st out st' l p,
        _expand_includes_from_text depth fs text base st = IncOk out st' ->
        l ∈ task_open false (splitlines text) -> directive base l = Some p ->
        match fs !! p with
        | Some _ => p ∈ visited st' /\ (p ∈ visited st \/ p ∈ expanded st')
        | None => p ∈ visited st \/ warning p ∈ warnings st'
        end)
  /\ (forall depth text base st,
        let lines := task_open false (splitlines text) in
        (forall l p, l ∈ lines -> directive base l = Some p ->
                     p ∈ visited st \/ fs !! p = None) ->
        _expand_includes_from_text (S depth) fs text base st
        = IncOk (joined_output (kept_lines base lines))
                (mkInc (visited st)
                       (warnings st
                        ++ map warning (filter (fun p => p ∉ visited st)
                                               (omap (directive base) lines)))
                       (expanded st)))
  /\ (forall self base raw rest out st p,
        startswith "include " (strip (rstrip_nl raw)) = true ->
        include_target base (strip (rstrip_nl raw)) = Some p ->
        p ∈ visited st ->
        expand_lines self fs base (raw :: rest) false out st
        = expand_lines self fs base rest false out st)
  /\ (forall self base raw rest out st p,
        startswith "include " (strip (rstrip_nl raw)) = true ->
        include_target base (strip (rstrip_nl raw)) = Some p ->
        p ∉ visited st -> fs !! p = None ->
        expand_lines self fs base (raw :: rest) false out st
        = expand_lines self fs base rest false out (warned p st)).
Proof.
  split; [|split; [|split; [|split; [|split]]]].
  - intros root. unfold _load_pfy_source_with_includes.
    destruct (fs !! root) as [[main_text|]|] eqn:Hroot; cbv beta iota zeta.
    + set (st := mkInc {[normpath root]} [] []).
      pose proof (expand_includes_ok fs (S (size fs)) main_text
                    (match dirname (normpath root) with "" => "." | d => d end) st) as H.
      assert (unvisited fs st < S (size fs))%nat as Hlt.
      { unfold unvisited. rewrite <- (size_dom (D := gset string)).
        apply Nat.lt_succ_r, subseteq_size. set_solver. }
      specialize (H Hlt).
      destruct (_expand_includes_from_text _ _ _ _ _) as [t st'|e st'|]; [| |done].
      all: cbv beta iota.
      all: destruct H as (_ & new & He & Hn & Hp); simpl in He; rewrite He.
      all: split; [done|]; split; [|intros p Hin; by apply Hp].
      all: intros Hin; destruct (Hp _ Hin) as (Hnv & _); simpl in Hnv; set_solver.
    + simpl. split; [constructor|]. split; [apply not_elem_of_nil|]. by intros p ?%elem_of_nil.
    + simpl. split; [constructor|]. split; [apply not_elem_of_nil|]. by intros p ?%elem_of_nil.
  - intros depth text base st. apply expand_includes_ok.
  - intros depth text base st out st' l p Hrun Hl Hd.
    pose proof (expand_includes_extends fs depth text base st) as Hext.
    rewrite Hrun in Hext. simpl in Hext.
    destruct depth as [|d]; [discriminate|]. cbn [_expand_includes_from_text] in Hrun.
    destruct (expand_lines_honours fs _ (expand_includes_extends fs d) _ _ _ _ _ _ _ Hrun
                l p Hl Hd) as [Hsome Hnone].
    destruct (fs !! p) as [node|] eqn:Hfs.
    + assert (p ∈ visited st') as Hv by (by apply Hsome).
      split; [exact Hv|]. destruct Hext as (_ & Hp & _).
      destruct (Hp p Hv) as [?|[? _]]; [by left | by right].
    + destruct (decide (p ∈ visited st)) as [?|Hnv]; [by left|]. right. by apply Hnone.
  - intros depth text base st lines Hall. cbn [_expand_includes_from_text].
    destruct st as [vis warns exp].
    by rewrite (expand_lines_closed fs _ base vis exp (splitlines text) false [] warns Hall).
  - intros self base raw rest out st p Hinc Ht Hv. cbn [expand_lines].
    destruct (include_line_not_boundary _ Hinc) as [-> ->]. rewrite Hinc, Ht. simpl.
    by rewrite bool_decide_eq_true_2.
  - intros self base raw rest out st p Hinc Ht Hv Hfs. cbn [expand_lines].
    destruct (include_line_not_boundary _ Hinc) as [-> ->]. rewrite Hinc, Ht. simpl.
    rewrite bool_decide_eq_false_2 by done. by rewrite Hfs.
Qed.

Lemma include_expansion_once_witness :
  expansion_ok fs_cycle (mkInc {["/p/Pfyfile.pf"]} [] [])
    (_expand_includes_from_text 3 fs_cycle "include tasks/a.pf" "/p"
       (mkInc {["/p/Pfyfile.pf"]} [] []))
  /\ ("/p/tasks/a.pf" ∈ visited (mkInc {["/p/Pfyfile.pf"; "/p/tasks/a.pf"]}
                                      ["[warn] include file not found: /p/tasks/b.pf"]
                                      ["/p/tasks/a.pf"])
      /\ ("/p/tasks/a.pf" ∈ ({["/p/Pfyfile.pf"]} : gset string)
          \/ "/p/tasks/a.pf" ∈ ["/p/tasks/a.pf"]))
  /\ _expand_includes_from_text 1 fs_cycle
       ("include ../Pfyfile.pf" +:+ nl +:+ "include b.pf" +:+ nl +:+ "# a" +:+ nl)
       "/p/tasks" (mkInc {["/p/Pfyfile.pf"]} [] [])
     = IncOk ("# a" +:+ nl)
             (mkInc {["/p/Pfyfile.pf"]} ["[warn] include file not found: /p/tasks/b.pf"] []).
Proof.
  destruct (include_expansion_once fs_cycle) as (_ & Hend & Hhon & Hclosed & _ & _).
  split; [|split].
  - apply Hend. vm_compute. lia.
  - refine (Hhon 3%nat "include tasks/a.pf" "/p" (mkInc {["/p/Pfyfile.pf"]} [] []) _ _
              (false, "include tasks/a.pf") "/p/tasks/a.pf" _ _ _).
    + vm_compute. reflexivity.
    + apply list_elem_of_singleton. reflexivity.
    + reflexivity.
  - rewrite (Hclosed 0%nat).
    + vm_compute. reflexivity.
    + intros l p Hl Hd. vm_compute in Hl.
      repeat (apply elem_of_cons in Hl as [->|Hl]); [| | |by apply elem_of_nil in Hl].
      * injection Hd as <-. left. simpl. by apply elem_of_singleton.
      * injection Hd as <-. by right.
      * discriminate Hd.
Defined.

(** ** The dispatcher: aggregation and the local fallback *)

Lemma aggregate_foldl (completed : list (result Z)) :
  aggregate completed = foldl or_rc 0%Z completed.
Proof. reflexivity. Qed.

Lemma foldl_or_rc_zero (completed : list (result Z)) (acc : Z) :
  foldl or_rc acc completed = 0%Z <-> acc = 0%Z /\ Forall (fun r => r = Ok 0%Z) completed.
Proof.
  revert acc. induction completed as [|r rest IH]; intros acc; simpl.
  - split; [by intros -> | by intros [-> _]].
  - rewrite IH, Forall_cons. unfold or_rc.
    destruct (Z.eqb_spec acc 0) as [->|Hne].
    + destruct r as [rc|e]; simpl.
      * split; [intros [-> ?]; done | intros (_ & [= ->] & ?); done].
      * split; [intros [[=] _] | intros (_ & [=] & _)].
    + split; intros [? _]; lia.
Qed.

(** The aggregate is zero exactly when every future returned zero. *)
Lemma aggregate_zero (completed : list (result Z)) :
  aggregate completed = 0%Z <-> Forall (fun r => r = Ok 0%Z) completed.
Proof. rewrite aggregate_foldl, foldl_or_rc_zero. naive_solver. Qed.

(** An exception out of a worker counts as exit code 1 of that worker. *)
Lemma aggregate_raised (before after : list (result Z)) (e : exn) :
  aggregate (before ++ Raised e :: after) = aggregate (before ++ Ok 1%Z :: after).
Proof. unfold aggregate. rewrite !foldl_app. reflexivity. Qed.

(** C6: whatever the order in which the workers complete, the exit code
    of the dispatcher is zero exactly when the worker of every target
    returned zero; a worker that ends with an exception counts as a
    worker that returned 1, the other workers count as before, and the
    dispatcher returns its code all the same. *)
Theorem dispatch_aggregates (w : world) (cfg : settings) (env_map : gmap string host_spec)
    (env_names host_specs : list string) (selected : list selection)
    (completion : list string -> list string) :
  (forall hosts, Permutation (completion hosts) hosts) ->
  (main_dispatch w cfg env_map env_names host_specs selected completion = 0%Z
   <-> forall h, h ∈ resolve_hosts env_map env_names host_specs ->
                 (worker w cfg selected h).1 = Ok 0%Z)
  /\ (forall before after e,
        aggregate (before ++ Raised e :: after) = aggregate (before ++ Ok 1%Z :: after)
        /\ aggregate (before ++ Raised e :: after) <> 0%Z)
  /\ (forall completed,
        aggregate completed = 0%Z <-> Forall (fun r => r = Ok 0%Z) completed).
Proof.
  intros Hperm. split; [|split].
  - unfold main_dispatch. rewrite aggregate_zero, Forall_fmap, Forall_forall.
    split; intros H h Hin; apply H.
    + by rewrite (Hperm _).
    + by rewrite <- (Hperm _).
  - intros before after e. split; [apply aggregate_raised|].
    rewrite aggregate_zero, Forall_app, Forall_cons. by intros (_ & [=] & _).
  - apply aggregate_zero.
Qed.

Lemma dispatch_aggregates_witness :
  (main_dispatch (mkWorld ∅ (fun _ _ => Ok 0%Z)) (mkSettings None None false None)
     ENV_MAP ["local"] ["@local"] [("t", ["shell true"], ∅)] (@rev string) = 0%Z
   <-> forall h, h ∈ resolve_hosts ENV_MAP ["local"] ["@local"] ->
         (worker (mkWorld ∅ (fun _ _ => Ok 0%Z)) (mkSettings None None false None)
                 [("t", ["shell true"], ∅)] h).1 = Ok 0%Z)
  /\ (forall before after e,
        aggregate (before ++ Raised e :: after) = aggregate (before ++ Ok 1%Z :: after)
        /\ aggregate (before ++ Raised e :: after) <> 0%Z)
  /\ (forall completed,
        aggregate completed = 0%Z <-> Forall (fun r => r = Ok 0%Z) completed).
Proof.
  apply dispatch_aggregates. intros hosts. symmetry. apply Permutation_rev.
Defined.

(** ** The verb executor and the exit codes of the processes it runs *)

Section Reports.

Context (w : world) (x : exec_ctx) (params : gmap string string) (task_env : pydict).

Lemma run_spec (cmd : string) (t : trace) :
  exists c, is_process c = true
    /\ run w x params task_env cmd t = (answer w t c, t ++ [(c, answer w t c)]).
Proof.
  unfold run. destruct (ctx_conn x) as [conn|]; eexists; split; try reflexivity; done.
Qed.

Lemma processes_ok_one (c : call) (r : result Z) (rc : Z) :
  is_process c = true -> r = Ok rc -> (rc = 0%Z <-> processes_ok [(c, r)]).
Proof.
  intros Hc ->. unfold processes_ok. rewrite Forall_singleton. simpl.
  split; [by intros -> | intros H; by injection (H Hc)].
Qed.

(** What [run] returns is the exit status of the one process it ran. *)
Lemma run_reports (cmd : string) (t t' : trace) (rc : Z) :
  run w x params task_env cmd t = (Ok rc, t') ->
  exists new, t' = t ++ new /\ (rc = 0%Z <-> processes_ok new).
Proof.
  destruct (run_spec cmd t) as (c & Hc & ->).
  intros [= Hr <-]. eexists. split; [reflexivity|]. by apply processes_ok_one.
Qed.

(** Shell, packages, service and directory statements (and the two
    statements that run nothing) return zero exactly when every process
    they ran exited with zero. *)
Lemma exec_verb_reports (op : string) (args : list string) (t t' : trace) (rc : Z) :
  op <> "copy" ->
  exec_verb w x params task_env op args t = (Ok rc, t') ->
  exists new, t' = t ++ new /\ (rc = 0%Z <-> processes_ok new).
Proof.
  intros Hop. unfold exec_verb.
  assert (forall t0 : trace, exists new : trace, t0 = t0 ++ new /\ (0%Z = 0%Z <-> processes_ok new))
    as Hnone.
  { intros t0. exists []. rewrite app_nil_r. split; [done|]. split; [constructor|done]. }
  destruct (String.eqb op "shell").
  { destruct (join " " args); [discriminate|]. apply run_reports. }
  destruct (String.eqb op "packages").
  { destruct args as [|action [|n names]]; [discriminate..|].
    destruct (String.eqb action "install"); [apply run_reports|].
    destruct (String.eqb action "remove"); [apply run_reports|discriminate]. }
  destruct (String.eqb op "service").
  { destruct args as [|action [|n rest]]; [discriminate..|].
    case_bool_decide; [apply run_reports|discriminate]. }
  destruct (String.eqb op "directory").
  { destruct (_split_kv args) as [pos kv]. destruct pos as [|path pos]; [discriminate|].
    unfold mbind, M_bind, bind.
    destruct (run_spec ("mkdir -p " +:+ shlex_quote path) t) as (c1 & Hc1 & ->).
    destruct (answer w t c1) as [rc1|e] eqn:Ha1; [|discriminate].
    destruct (Z.eqb_spec rc1 0) as [->|Hne]; simpl.
    - destruct (truthy (dict_get "mode" kv)).
      + intros H. apply run_reports in H as (new & -> & Hiff).
        exists ((c1, Ok 0%Z) :: new). split; [by rewrite <- (assoc_L (++))|].
        rewrite Hiff. unfold processes_ok. rewrite Forall_cons. naive_solver.
      + intros [= <- <-]. eexists. split; [reflexivity|by apply processes_ok_one].
    - intros [= <- <-]. eexists. split; [reflexivity|by apply processes_ok_one]. }
  destruct (String.eqb_spec op "copy"); [done|].
  destruct (String.eqb op "describe"); [intros [= <- <-]; apply Hnone|].
  destruct (String.eqb op "env"); [intros [= <- <-]; apply Hnone|discriminate].
Qed.

End Reports.

(** C2, the code against the claim: a [copy] statement returns 0
    whatever its follow-up steps exit with; here the [chmod] it runs
    exits with 1 and the statement still returns 0.  The [directory]
    statement next to it returns the status of its [chmod]. *)
Theorem copy_swallows_chmod_status :
  let w := world_of (fun cmd => if startswith "chmod " cmd then 1 else 0)%Z in
  let x := mkCtx None false None in
  _exec_line_fabric w x "copy site.conf /etc/nginx/site.conf mode=0644" ∅ [] []
  = (Ok 0%Z,
     [(CallMakedirs "/etc/nginx", Ok 0%Z);
      (CallCopyfile "site.conf" "/etc/nginx/site.conf", Ok 0%Z);
      (CallLocal "chmod 0644 /etc/nginx/site.conf" ∅, Ok 1%Z)])
  /\ _exec_line_fabric w x "directory /srv/app mode=0755" ∅ [] []
     = (Ok 1%Z,
        [(CallLocal "mkdir -p /srv/app" ∅, Ok 0%Z);
         (CallLocal "chmod 0755 /srv/app" ∅, Ok 1%Z)]).
Proof. split; vm_compute; reflexivity. Qed.

(** The same over a session, with the [chown] step failing as well. *)
Lemma copy_swallows_status_remote :
  let w := world_of (fun cmd => if startswith "ch" cmd then 1 else 0)%Z in
  let c := mkConn "h" (Some "u") 22 in
  _exec_line_fabric w (mkCtx (Some c) false None)
    "copy a b mode=0600 user=www group=www" ∅ [] []
  = (Ok 0%Z,
     [(CallPut c "a" "b", Ok 0%Z);
      (CallRun c "chmod 0600 b", Ok 1%Z);
      (CallRun c "chown www:www b", Ok 1%Z)]).
Proof. vm_compute. reflexivity. Qed.

(** ** The task runner: fail-fast, and the session *)

Section Runner.

Context (w : world) (x : exec_ctx).

Lemma run_tasks_app (before after : list selection) (rc : Z) (t : trace) :
  run_tasks w x (before ++ after) rc t
  = match run_tasks w x before rc t with
    | (Ok (Continue rc'), t') => run_tasks w x after rc' t'
    | other => other
    end.
Proof.
  revert rc t. induction before as [|[[tname task_lines] params] before IH]; intros rc t.
  - reflexivity.
  - simpl. unfold mbind, M_bind, bind.
    destruct (run_lines w x params task_lines [] rc t) as [[[rc'|rc']|e] t']; [apply IH|done..].
Qed.

(** One round of the loop for a statement that returns zero: on to the
    next line. *)
Lemma run_lines_success (params : gmap string string)
    (ln : string) (rest : list string) (task_env : pydict) (rc : Z) (t t' : trace) :
  startswith "env " (strip ln) = false ->
  _exec_line_fabric w x ln params task_env t = (Ok 0%Z, t') ->
  run_lines w x params (ln :: rest) task_env rc t
  = run_lines w x params rest task_env 0%Z t'.
Proof.
  intros Henv Hexec. cbn [run_lines]. rewrite Henv.
  unfold mbind, M_bind, bind, catch. by rewrite Hexec.
Qed.

(** One round for a statement that returns a non-zero code: [run_host]
    returns it, and the rest of the lines is not looked at. *)
Lemma run_lines_failure (params : gmap string string)
    (ln : string) (rest : list string) (task_env : pydict) (rc c : Z) (t t' : trace) :
  startswith "env " (strip ln) = false ->
  _exec_line_fabric w x ln params task_env t = (Ok c, t') -> c <> 0%Z ->
  run_lines w x params (ln :: rest) task_env rc t = (Ok (Return c), t').
Proof.
  intros Henv Hexec Hc. cbn [run_lines]. rewrite Henv.
  unfold mbind, M_bind, bind, catch. rewrite Hexec.
  by destruct (Z.eqb_spec c 0).
Qed.

(** One round for a statement that raises: [run_host] returns 1. *)
Lemma run_lines_raise (params : gmap string string)
    (ln : string) (rest : list string) (task_env : pydict) (rc : Z) (e : exn)
    (t t' : trace) :
  startswith "env " (strip ln) = false ->
  _exec_line_fabric w x ln params task_env t = (Raised e, t') ->
  run_lines w x params (ln :: rest) task_env rc t = (Ok (Return 1%Z), t').
Proof.
  intros Henv Hexec. cbn [run_lines]. rewrite Henv.
  unfold mbind, M_bind, bind, catch. by rewrite Hexec.
Qed.

End Runner.

Lemma run_host_unfold (w : world) (cfg : settings) (selected : list selection)
    (hspec : string) (spec : host_target) (c : option Connection) (t0 : trace) :
  _parse_host hspec (user cfg) (port cfg) = Ok spec ->
  _c_for spec = Ok c ->
  session_started w c t0 ->
  run_host w cfg selected hspec []
  = match run_tasks w (mkCtx c (sudo cfg) (sudo_user cfg)) selected 0%Z t0 with
    | (Ok (Return rc), t) => (Ok rc, t)
    | (Ok (Continue rc), t) =>
        match c with
        | Some conn =>
            match answer w t (CallClose conn) with
            | Ok z => (Ok rc, t ++ [(CallClose conn, Ok z)])
            | Raised e => (Raised e, t ++ [(CallClose conn, Raised e)])
            end
        | None => (Ok rc, t)
        end
    | (Raised e, t) => (Raised e, t)
    end.
Proof.
  intros Hspec Hc Hstart. unfold run_host, session_started in *.
  unfold mbind, M_bind, bind, lift. rewrite Hspec. simpl. rewrite Hc. simpl.
  destruct c as [conn|].
  - destruct Hstart as (z & Hz & ->). unfold catch, mbind, M_bind, bind, perform.
    simpl. rewrite Hz. simpl.
    destruct (run_tasks _ _ _ _ _) as [[[rc|rc]|e] t]; try reflexivity.
    unfold mret, M_ret, ret. by destruct (answer w t (CallClose conn)).
  - subst t0. simpl.
    by destruct (run_tasks _ _ _ _ _) as [[[rc|rc]|e] t].
Qed.



Lemma off_session_ret {A} (a : A) : off_session (mret a).
Proof. intros t r t' [= <- <-]. exists []. by rewrite app_nil_r. Qed.

Lemma off_session_raise {A} (e : exn) : off_session (@raise A e).
Proof. intros t r t' [= <- <-]. exists []. by rewrite app_nil_r. Qed.

Lemma off_session_bind {A B} (m : M A) (f : A -> M B) :
  off_session m -> (forall a, off_session (f a)) -> off_session (mbind f m).
Proof.
  intros Hm Hf t r t'. unfold mbind, M_bind, bind.
  destruct (m t) as [[a|e] t1] eqn:Hmt; destruct (Hm _ _ _ Hmt) as (new1 & -> & Hn1).
  - intros Hft. destruct (Hf a _ _ _ Hft) as (new2 & -> & Hn2).
    exists (new1 ++ new2). split; [by rewrite <- (assoc_L (++))|]. by apply Forall_app.
  - intros [= <- <-]. by exists new1.
Qed.

Lemma off_session_catch {A} (m : M A) (h : exn -> M A) :
  off_session m -> (forall e, off_session (h e)) -> off_session (catch m h).
Proof.
  intros Hm Hh t r t'. unfold catch.
  destruct (m t) as [[a|e] t1] eqn:Hmt; destruct (Hm _ _ _ Hmt) as (new1 & -> & Hn1).
  - intros [= <- <-]. by exists new1.
  - intros Hht. destruct (Hh e _ _ _ Hht) as (new2 & -> & Hn2).
    exists (new1 ++ new2). split; [by rewrite <- (assoc_L (++))|]. by apply Forall_app.
Qed.

Section OffSession.

Context (w : world) (x : exec_ctx).

Lemma off_session_perform (c : call) :
  is_session c = false -> off_session (perform w c).
Proof.
  intros Hc t r t' [= <- <-]. eexists. split; [reflexivity|]. by apply Forall_singleton.
Qed.

Lemma off_session_run (params : gmap string string) (task_env : pydict) (cmd : string) :
  off_session (run w x params task_env cmd).
Proof.
  unfold run. destruct (ctx_conn x); by apply off_session_perform.
Qed.

Ltac off_session_step :=
  first [ apply off_session_bind; [|intros ?]
        | apply off_session_catch; [|intros ?]
        | apply off_session_run
        | apply off_session_raise
        | apply off_session_ret
        | apply off_session_perform; reflexivity ].

Lemma off_session_exec_verb (params : gmap string string) (task_env : pydict)
    (op : string) (args : list string) :
  off_session (exec_verb w x params task_env op args).
Proof.
  unfold exec_verb.
  repeat first
    [ off_session_step
    | match goal with
      | |- off_session (if ?b then _ else _) => destruct b
      | |- off_session (match ?l with [] => _ | _ :: _ => _ end) => destruct l
      | |- off_session (match ?s with "" => _ | String _ _ => _ end) => destruct s
      | |- off_session (let (_, _) := ?p in _) => destruct p
      | |- off_session (match ?o with Some _ => _ | None => _ end) => destruct o
      end ].
Qed.

Lemma off_session_exec_line (line : string) (params : gmap string string)
    (task_env : pydict) :
  off_session (_exec_line_fabric w x line params task_env).
Proof.
  unfold _exec_line_fabric.
  destruct (shlex_split _) as [[|op args]|]; [apply (off_session_ret 0%Z)| |off_session_step].
  apply off_session_exec_verb.
Qed.

Lemma off_session_run_lines (params : gmap string string) (todo : list string)
    (task_env : pydict) (rc : Z) :
  off_session (run_lines w x params todo task_env rc).
Proof.
  revert task_env rc. induction todo as [|ln rest IH]; intros task_env rc.
  - apply off_session_ret.
  - cbn [run_lines]. destruct (startswith "env " (strip ln)).
    + destruct (shlex_split (strip ln)); [apply IH|off_session_step].
    + apply off_session_bind.
      * apply off_session_catch; [|intros ?; apply off_session_ret].
        apply off_session_bind; [apply off_session_exec_line|intros ?; apply off_session_ret].
      * intros [rc'|rc']; [apply IH|apply off_session_ret].
Qed.

Lemma off_session_run_tasks (selected : list selection) (rc : Z) :
  off_session (run_tasks w x selected rc).
Proof.
  revert rc. induction selected as [|[[tname task_lines] params] rest IH]; intros rc.
  - apply off_session_ret.
  - cbn [run_tasks]. apply off_session_bind; [apply off_session_run_lines|].
    intros [rc'|rc']; [apply IH|apply off_session_ret].
Qed.

End OffSession.

Lemma closes_app (t1 t2 : trace) : closes (t1 ++ t2) = (closes t1 + closes t2)%nat.
Proof. unfold closes. by rewrite filter_app, length_app. Qed.

Lemma closes_off_session (new : trace) :
  Forall (fun e => is_session e.1 = false) new -> closes new = 0%nat.
Proof.
  unfold closes. induction 1 as [|[c r] new Hc _ IH]; [reflexivity|].
  rewrite filter_cons_False; [exact IH|]. simpl in *. by destruct c.
Qed.

(** On a remote target whose session was opened, the session is closed
    once when every task runs to its end, and not at all when
    [run_host] returns from inside the loop (a statement returned a
    non-zero code or raised) or when an [env] line raises. *)
Lemma session_closed_only_on_success (w : world) (cfg : settings)
    (selected : list selection) (hspec : string) (spec : host_target) (conn : Connection)
    (z : Z) :
  _parse_host hspec (user cfg) (port cfg) = Ok spec ->
  _c_for spec = Ok (Some conn) ->
  answer w [] (CallOpen conn) = Ok z ->
  closes (worker w cfg selected hspec).2
  = match run_tasks w (mkCtx (Some conn) (sudo cfg) (sudo_user cfg)) selected 0%Z
            [(CallOpen conn, Ok z)] with
    | (Ok (Continue _), _) => 1%nat
    | _ => 0%nat
    end.
Proof.
  intros Hspec Hconn Hopen. unfold worker.
  rewrite (run_host_unfold w cfg selected hspec spec (Some conn) [(CallOpen conn, Ok z)]
             Hspec Hconn)
    by (unfold session_started; eauto).
  destruct (run_tasks _ _ _ _ _) as [r t] eqn:Hrun.
  destruct (off_session_run_tasks _ _ _ _ _ _ _ Hrun) as (new & -> & Hnew).
  assert (closes ([(CallOpen conn, Ok z)] ++ new) = 0%nat) as H0
    by (rewrite closes_app, (closes_off_session _ Hnew); reflexivity).
  destruct r as [[rc|rc]|e]; [|exact H0..].
  destruct (answer w _ (CallClose conn)); cbn [snd]; rewrite closes_app, H0; reflexivity.
Qed.

(** C3, the code against the claim: on a remote target whose session
    was opened, a statement that returns a non-zero code makes
    [run_host] return at once, and so does a statement that raises; in
    both runs the session is never closed.  Only the run that gets
    through every statement closes it. *)
Theorem early_return_leaves_session_open :
  let conn := mkConn "h" (Some "u") 22 in
  worker demo_world demo_cfg [("deploy", ["shell false"; "shell true"], ∅)] "u@h"
  = (Ok 1%Z, [(CallOpen conn, Ok 0%Z); (CallRun conn "false", Ok 1%Z)])
  /\ worker demo_world demo_cfg [("deploy", ["shell"], ∅)] "u@h"
     = (Ok 1%Z, [(CallOpen conn, Ok 0%Z)])
  /\ worker demo_world demo_cfg [("deploy", ["shell true"], ∅)] "u@h"
     = (Ok 0%Z, [(CallOpen conn, Ok 0%Z); (CallRun conn "true", Ok 0%Z);
                 (CallClose conn, Ok 0%Z)]).
Proof. repeat split; vm_compute; reflexivity. Qed.

(** ** The local fallback of the host resolution *)

Lemma dedupe_nil (items : list string) :
  _dedupe_preserve_order items = [] <-> items = [].
Proof.
  unfold _dedupe_preserve_order. destruct items as [|it r]; [done|].
  cbn [dedupe_go]. rewrite bool_decide_eq_false_2 by set_solver. done.
Qed.

Lemma only_local_ret {A} (a : A) : only_local (mret a).
Proof. intros t r t' [= <- <-]. exists []. by rewrite app_nil_r. Qed.

Lemma only_local_raise {A} (e : exn) : only_local (@raise A e).
Proof. intros t r t' [= <- <-]. exists []. by rewrite app_nil_r. Qed.

Lemma only_local_bind {A B} (m : M A) (f : A -> M B) :
  only_local m -> (forall a, only_local (f a)) -> only_local (mbind f m).
Proof.
  intros Hm Hf t r t'. unfold mbind, M_bind, bind.
  destruct (m t) as [[a|e] t1] eqn:Hmt; destruct (Hm _ _ _ Hmt) as (new1 & -> & Hn1).
  - intros Hft. destruct (Hf a _ _ _ Hft) as (new2 & -> & Hn2).
    exists (new1 ++ new2). split; [by rewrite <- (assoc_L (++))|]. by apply Forall_app.
  - intros [= <- <-]. by exists new1.
Qed.

Lemma only_local_catch {A} (m : M A) (h : exn -> M A) :
  only_local m -> (forall e, only_local (h e)) -> only_local (catch m h).
Proof.
  intros Hm Hh t r t'. unfold catch.
  destruct (m t) as [[a|e] t1] eqn:Hmt; destruct (Hm _ _ _ Hmt) as (new1 & -> & Hn1).
  - intros [= <- <-]. by exists new1.
  - intros Hht. destruct (Hh e _ _ _ Hht) as (new2 & -> & Hn2).
    exists (new1 ++ new2). split; [by rewrite <- (assoc_L (++))|]. by apply Forall_app.
Qed.

Section LocalOnly.

Context (w : world) (x : exec_ctx) (Hlocal : ctx_conn x = None).

Lemma only_local_perform (c : call) :
  is_local c = true -> only_local (perform w c).
Proof.
  intros Hc t r t' [= <- <-]. eexists. split; [reflexivity|]. by apply Forall_singleton.
Qed.

Lemma only_local_run (params : gmap string string) (task_env : pydict) (cmd : string) :
  only_local (run w x params task_env cmd).
Proof. unfold run. rewrite Hlocal. by apply only_local_perform. Qed.

Ltac only_local_step :=
  first [ apply only_local_bind; [|intros ?]
        | apply only_local_catch; [|intros ?]
        | apply only_local_run
        | apply only_local_raise
        | apply only_local_ret
        | apply only_local_perform; reflexivity ].

Lemma only_local_exec_verb (params : gmap string string) (task_env : pydict)
    (op : string) (args : list string) :
  only_local (exec_verb w x params task_env op args).
Proof.
  unfold exec_verb. rewrite Hlocal.
  repeat first
    [ only_local_step
    | match goal with
      | |- only_local (if ?b then _ else _) => destruct b
      | |- only_local (match ?l with [] => _ | _ :: _ => _ end) => destruct l
      | |- only_local (match ?s with "" => _ | String _ _ => _ end) => destruct s
      | |- only_local (let (_, _) := ?p in _) => destruct p
      end ].
Qed.

Lemma only_local_exec_line (line : string) (params : gmap string string)
    (task_env : pydict) :
  only_local (_exec_line_fabric w x line params task_env).
Proof.
  unfold _exec_line_fabric.
  destruct (shlex_split _) as [[|op args]|]; [apply (only_local_ret 0%Z)| |only_local_step].
  apply only_local_exec_verb.
Qed.

Lemma only_local_run_lines (params : gmap string string) (todo : list string)
    (task_env : pydict) (rc : Z) :
  only_local (run_lines w x params todo task_env rc).
Proof.
  revert task_env rc. induction todo as [|ln rest IH]; intros task_env rc.
  - apply only_local_ret.
  - cbn [run_lines]. destruct (startswith "env " (strip ln)).
    + destruct (shlex_split (strip ln)); [apply IH|only_local_step].
    + apply only_local_bind.
      * apply only_local_catch; [|intros ?; apply only_local_ret].
        apply only_local_bind; [apply only_local_exec_line|intros ?; apply only_local_ret].
      * intros [rc'|rc']; [apply IH|apply only_local_ret].
Qed.

Lemma only_local_run_tasks (selected : list selection) (rc : Z) :
  only_local (run_tasks w x selected rc).
Proof.
  revert rc. induction selected as [|[[tname task_lines] params] rest IH]; intros rc.
  - apply only_local_ret.
  - cbn [run_tasks]. apply only_local_bind; [apply only_local_run_lines|].
    intros [rc'|rc']; [apply IH|apply only_local_ret].
Qed.

End LocalOnly.

(** The local processes of two lists of commands in a row. *)
Lemma local_processes_app (w : world) (a b : list string) (t : trace) :
  local_processes w (a ++ b) t
  = let (c, t1) := local_processes w a t in
    if (c =? 0)%Z then local_processes w b t1 else (c, t1).
Proof.
  revert t. induction a as [|full a IH]; intros t; [reflexivity|].
  cbn [app local_processes]. destruct (answer w t _) as [c|e]; [|reflexivity].
  destruct (Z.eqb_spec c 0) as [->|Hne]; [apply IH|].
  by rewrite (proj2 (Z.eqb_neq c 0) Hne).
Qed.

(** The lines of a task that are shell statements: one local process
    for each, until one fails. *)
Lemma run_lines_shell (w : world) (cfg : settings) (params : gmap string string)
    (task_lines cmds : list string) (t : trace) :
  Forall2 (shell_statement w params) task_lines cmds ->
  run_lines w (mkCtx None (sudo cfg) (sudo_user cfg)) params task_lines [] 0%Z t
  = let (c, t') := local_processes w (map (local_full cfg) cmds) t in
    (Ok (if (c =? 0)%Z then Continue 0%Z else Return c), t').
Proof.
  intros H. revert t. induction H as [|ln cmd task_lines cmds Hst _ IH]; intros t.
  - reflexivity.
  - destruct Hst as (Henv & Hne & args & Hsplit & Hjoin).
    cbn [run_lines map local_processes]. rewrite Henv.
    unfold mbind, M_bind, bind, catch, _exec_line_fabric. rewrite Hsplit.
    unfold exec_verb. replace (String.eqb "shell" "shell") with true by reflexivity.
    rewrite Hjoin. destruct cmd as [|a cmd]; [done|].
    unfold run, perform. cbn [ctx_conn ctx_sudo ctx_sudo_user map map_update foldl].
    fold (local_full cfg (String a cmd)).
    destruct (answer w t _) as [c|e]; [|reflexivity].
    unfold mret, M_ret, ret.
    destruct (Z.eqb_spec c 0) as [->|Hc]; [apply IH|].
    by rewrite (proj2 (Z.eqb_neq c 0) Hc).
Qed.

Lemma run_tasks_shell (w : world) (cfg : settings) (selected : list selection)
    (cmds : list (list string)) (t : trace) :
  Forall2 (fun sel cs => Forall2 (shell_statement w sel.2) sel.1.2 cs) selected cmds ->
  run_tasks w (mkCtx None (sudo cfg) (sudo_user cfg)) selected 0%Z t
  = let (c, t') := local_processes w (map (local_full cfg) (List.concat cmds)) t in
    (Ok (if (c =? 0)%Z then Continue 0%Z else Return c), t').
Proof.
  intros H. revert t.
  induction H as [|[[tname task_lines] params] cs selected cmds Hcs _ IH]; intros t.
  - reflexivity.
  - cbn [run_tasks List.concat]. rewrite map_app, local_processes_app.
    unfold mbind, M_bind, bind. cbn [fst snd] in Hcs.
    rewrite (run_lines_shell w cfg params task_lines cs t Hcs).
    destruct (local_processes w (map (local_full cfg) cs) t) as [c t1].
    destruct (Z.eqb_spec c 0) as [->|Hc]; [apply IH|].
    by rewrite (proj2 (Z.eqb_neq c 0) Hc).
Qed.

(** C10: when the environments named and the hosts given resolve to no
    host at all, the dispatcher runs exactly one worker, for [@local]:
    the host list becomes [["@local"]], which [_parse_host] reads as the
    local machine, for which there is no session; the exit code of the
    dispatcher is the one of that worker.  The worker is the loop over
    the selected tasks without a connection; every call it makes stays
    on the local machine; and for tasks of shell statements it starts
    one local process per statement, in the order of the tasks and of
    their lines, until one does not exit with zero, and returns the
    code of the last process. *)
Theorem empty_hosts_run_locally (w : world) (cfg : settings)
    (env_map : gmap string host_spec) (env_names host_specs : list string)
    (selected : list selection) (completion : list string -> list string) :
  (forall hosts, Permutation (completion hosts) hosts) ->
  _dedupe_preserve_order (_merge_env_hosts env_map env_names ++ host_specs) = [] ->
  resolve_hosts env_map env_names host_specs = ["@local"]
  /\ _parse_host "@local" (user cfg) (port cfg) = Ok TLocal
  /\ _c_for TLocal = Ok None
  /\ main_dispatch w cfg env_map env_names host_specs selected completion
     = rc_of (worker w cfg selected "@local").1
  /\ worker w cfg selected "@local"
     = match run_tasks w (mkCtx None (sudo cfg) (sudo_user cfg)) selected 0%Z [] with
       | (Ok (Return rc), t) | (Ok (Continue rc), t) => (Ok rc, t)
       | (Raised e, t) => (Raised e, t)
       end
  /\ Forall (fun ev => is_local ev.1 = true) (worker w cfg selected "@local").2
  /\ (forall cmds : list (list string),
        Forall2 (fun sel cs => Forall2 (shell_statement w sel.2) sel.1.2 cs) selected cmds ->
        let processes := local_processes w (map (local_full cfg) (List.concat cmds)) [] in
        worker w cfg selected "@local" = (Ok processes.1, processes.2)
        /\ main_dispatch w cfg env_map env_names host_specs selected completion
           = processes.1).
Proof.
  intros Hperm Hempty.
  assert (resolve_hosts env_map env_names host_specs = ["@local"]) as Hres
    by (unfold resolve_hosts; by rewrite Hempty).
  assert (main_dispatch w cfg env_map env_names host_specs selected completion
          = rc_of (worker w cfg selected "@local").1) as Hmain.
  { unfold main_dispatch. rewrite Hres.
    rewrite (Permutation_length_1_inv (symmetry (Hperm ["@local"]))).
    reflexivity. }
  assert (worker w cfg selected "@local"
          = match run_tasks w (mkCtx None (sudo cfg) (sudo_user cfg)) selected 0%Z [] with
            | (Ok (Return rc), t) | (Ok (Continue rc), t) => (Ok rc, t)
            | (Raised e, t) => (Raised e, t)
            end) as Hworker.
  { unfold worker.
    rewrite (run_host_unfold w cfg selected "@local" TLocal None []) by done.
    simpl. by destruct (run_tasks _ _ _ _ _) as [[[rc|rc]|e] t]. }
  split; [exact Hres|]. split; [reflexivity|]. split; [reflexivity|].
  split; [exact Hmain|]. split; [exact Hworker|]. split.
  - rewrite Hworker.
    destruct (run_tasks _ _ _ _ _) as [r t] eqn:Hrun.
    destruct (only_local_run_tasks w (mkCtx None (sudo cfg) (sudo_user cfg)) eq_refl
                _ _ _ _ _ Hrun) as (new & -> & Hnew).
    by destruct r as [[rc|rc]|e].
  - intros cmds Hcmds processes.
    assert (worker w cfg selected "@local" = (Ok processes.1, processes.2)) as Hw.
    { rewrite Hworker, (run_tasks_shell w cfg selected cmds [] Hcmds). fold processes.
      destruct processes as [c t]. cbn [fst snd].
      by destruct (Z.eqb_spec c 0) as [->|Hc]. }
    split; [exact Hw|]. by rewrite Hmain, Hw.
Qed.

Lemma empty_hosts_run_locally_witness :
  resolve_hosts ENV_MAP ["nowhere"] [] = ["@local"]
  /\ main_dispatch demo_world demo_cfg ENV_MAP ["nowhere"] []
       [("t", ["shell true"; "shell exit 3"; "shell true"], ∅)] (@rev string)
     = 3%Z
  /\ worker demo_world demo_cfg [("t", ["shell true"; "shell exit 3"; "shell true"], ∅)]
       "@local"
     = (Ok 3%Z, [(CallLocal "true" ∅, Ok 0%Z); (CallLocal "exit 3" ∅, Ok 3%Z)]).
Proof.
  destruct (empty_hosts_run_locally demo_world demo_cfg ENV_MAP ["nowhere"] []
              [("t", ["shell true"; "shell exit 3"; "shell true"], ∅)] (@rev string))
    as (Hres & _ & _ & _ & _ & _ & Hrun).
  - intros hosts. symmetry. apply Permutation_rev.
  - vm_compute. reflexivity.
  - destruct (Hrun [["true"; "exit 3"; "true"]]) as [Hw Hm].
    + repeat constructor; try discriminate; eexists; (split; [vm_compute|]); reflexivity.
    + split; [exact Hres|]. split; [exact Hm | exact Hw].
Defined.

(** ** The sync statement of [pf_parser.py] *)

Lemma replace_go_no_dollar (old new s : string) :
  contains_char "$" s = false -> replace_go (String "$" old) new 0 s = s.
Proof.
  induction s as [|d s IH]; [reflexivity|]. cbn [contains_char replace_go startswith].
  destruct (Ascii.eqb "$" d); [discriminate|]. simpl. intros H. by rewrite IH.
Qed.

(** Substitution leaves a text without a dollar sign as it is. *)
Lemma substitute_vars_no_dollar (text : string) (env : pydict) :
  contains_char "$" text = false -> _substitute_vars text env = text.
Proof.
  intros H. unfold _substitute_vars. induction env as [|[k v] env IH]; [reflexivity|].
  cbn [foldl]. unfold replace. simpl.
  change ("${" +:+ k +:+ "}") with (String "$" ("{" +:+ k +:+ "}")).
  change ("$" +:+ k) with (String "$" k).
  rewrite (replace_go_no_dollar _ _ _ H), (replace_go_no_dollar _ _ _ H).
  exact IH.
Qed.

(** Where rsync is not installed [_execute_sync] returns before it
    looks at the options: nothing is built and nothing is raised, also
    for options that lack [src]. *)
Lemma sync_without_rsync :
  ({["dest" := PStr "b/"]} : gmap string pyval) !! "src" = None
  /\ _execute_sync false {["dest" := PStr "b/"]} [] = SyncNoRsync
  /\ _execute_sync false sync_example_opts [] = SyncNoRsync.
Proof. repeat split. Qed.

(** Where rsync is installed, the options
    [{src: a/, dest: b/, host: h, user: u, port: 22, delete: true}] give,
    for every [env], the list with the archive flag, the verbose flag,
    the delete flag, [-e], [ssh -p 22], the source [a/] and the
    destination [u@h:b/], and the line joined from it; and options
    without [src] or without [dest] raise the error that sync requires
    them. *)
Lemma execute_sync_example (env : pydict) :
  _execute_sync true sync_example_opts env
  = SyncRan ["rsync"; "-a"; "-v"; "--delete"; "-e"; "ssh -p 22"; "a/"; "u@h:b/"]
            "rsync -a -v --delete -e ssh -p 22 a/ u@h:b/"
  /\ forall opts : gmap string pyval,
       opts !! "src" = None \/ opts !! "dest" = None ->
       _execute_sync true opts env = SyncRaised (ValueError "sync requires src and dest").
Proof.
  split.
  - unfold _execute_sync, sync_build, sync_sub.
    replace (sync_example_opts !! "src") with (Some (PStr "a/")) by reflexivity.
    replace (sync_example_opts !! "dest") with (Some (PStr "b/")) by reflexivity.
    cbn [negb pyval_truthy orb mbind result_bind].
    rewrite !substitute_vars_no_dollar by reflexivity.
    reflexivity.
  - intros opts [H|H]; unfold _execute_sync; rewrite H; simpl; [done|].
    by destruct (opts !! "src").
Qed.

(** C8, the code against the claim.  For the options of the claim, with
    rsync installed and for every [env], the list [_execute_sync]
    builds has the transport command [ssh -p 22] as the one element
    after [-e]; but the list is never handed over as an argument vector:
    it is joined by blanks and the line goes to [os.system], that is, to
    the shell.  The two operands were quoted for that with
    [shlex.quote]; the transport command was not.  So the words of the
    line, as [shlex.split] reads it (and as the shell splits a line
    without quotes), have [ssh] alone after [-e], and [-p] and [22]
    as two further arguments of rsync: the vector rsync is run with is
    not the list built.  With every element quoted as the operands
    are, the line would read back as the list. *)
Theorem sync_transport_split_by_shell (status : syslog -> string -> Z) (env : pydict)
    (log : syslog) :
  let cmd := ["rsync"; "-a"; "-v"; "--delete"; "-e"; "ssh -p 22"; "a/"; "u@h:b/"] in
  let line := "rsync -a -v --delete -e ssh -p 22 a/ u@h:b/" in
  _execute_sync true sync_example_opts env = SyncRan cmd line
  /\ line = join " " cmd
  /\ run_sync (mkShell status true) sync_example_opts env log
     = log ++ [(line, status log line)]
  /\ shlex_split line
     = Ok ["rsync"; "-a"; "-v"; "--delete"; "-e"; "ssh"; "-p"; "22"; "a/"; "u@h:b/"]
  /\ shlex_split line <> Ok cmd
  /\ shlex_split (join " " (map shlex_quote cmd)) = Ok cmd.
Proof.
  intros cmd line. destruct (execute_sync_example env) as [Hvec _].
  split; [exact Hvec|]. split; [reflexivity|]. split.
  - unfold run_sync. cbn [rsync_found]. by rewrite Hvec.
  - split; [vm_compute; reflexivity|]. split; [|vm_compute; reflexivity].
    vm_compute. discriminate.
Qed.

(** * Further properties of the code *)

(** ** Host lists *)

Lemma dedupe_go_spec (seen : gset string) (items : list string) :
  NoDup (dedupe_go seen items)
  /\ (forall x, x ∈ dedupe_go seen items <-> x ∈ items /\ x ∉ seen)
  /\ sublist (dedupe_go seen items) items.
Proof.
  revert seen. induction items as [|it r IH]; intros seen.
  - cbn [dedupe_go]. split; [constructor|]. split; [|constructor].
    intros x. split; [by intros ?%elem_of_nil | by intros [?%elem_of_nil _]].
  - cbn [dedupe_go]. case_bool_decide as Hin.
    + destruct (IH seen) as (Hnd & Hel & Hsub).
      split; [done|]. split; [|by constructor].
      intros x. rewrite Hel, elem_of_cons. naive_solver.
    + destruct (IH ({[it]} ∪ seen)) as (Hnd & Hel & Hsub).
      split; [|split; [|by constructor]].
      * constructor; [|done]. rewrite Hel. set_solver.
      * intros x. rewrite !elem_of_cons, Hel.
        destruct (decide (x = it)) as [->|Hne]; [naive_solver|]. set_solver.
Qed.

Lemma dedupe_go_id (seen : gset string) (items : list string) :
  NoDup items -> (forall x, x ∈ items -> x ∉ seen) -> dedupe_go seen items = items.
Proof.
  revert seen. induction items as [|it r IH]; intros seen Hnd Hseen; [reflexivity|].
  cbn [dedupe_go]. apply NoDup_cons in Hnd as [Hit Hnd].
  rewrite bool_decide_eq_false_2 by (apply Hseen; left). f_equal.
  apply IH; [done|]. intros x Hx. specialize (Hseen x ltac:(by right)). set_solver.
Qed.

Local Ltac if_ext :=
  match goal with
  | |- (if bool_decide ?A then _ else _) = (if bool_decide ?B then _ else _) =>
      rewrite (bool_decide_ext A B); [reflexivity|]
  end.

Lemma dedupe_go_snoc (seen : gset string) (items : list string) (x : string) :
  dedupe_go seen (items ++ [x])
  = dedupe_go seen items
    ++ (if bool_decide (x ∈ seen \/ x ∈ items) then [] else [x]).
Proof.
  revert seen. induction items as [|it r IH]; intros seen.
  - cbn [dedupe_go app]. repeat case_bool_decide; try reflexivity.
    + exfalso. set_solver.
    + exfalso. by destruct H0 as [?|?%elem_of_nil].
  - cbn [dedupe_go app]. case_bool_decide as Hin.
    + rewrite IH. f_equal. if_ext. rewrite elem_of_cons. set_solver.
    + rewrite IH. cbn [app]. f_equal. f_equal. if_ext.
      rewrite elem_of_cons. set_solver.
Qed.

Lemma dedupe_props (items : list string) :
  NoDup (_dedupe_preserve_order items)
  /\ (forall x, x ∈ _dedupe_preserve_order items <-> x ∈ items)
  /\ sublist (_dedupe_preserve_order items) items.
Proof.
  unfold _dedupe_preserve_order.
  destruct (dedupe_go_spec ∅ items) as (Hnd & Hel & Hsub).
  split; [done|]. split; [|done]. intros x. rewrite Hel. set_solver.
Qed.

(** [_dedupe_preserve_order] keeps every item once, at the place of its
    first occurrence: the result has no repetition and the same items,
    it is the input with items left out, an item added at the end is
    added to the result exactly when it is new, and a second
    application changes nothing. *)
Theorem dedupe_preserve_order_spec (items : list string) :
  NoDup (_dedupe_preserve_order items)
  /\ (forall x, x ∈ _dedupe_preserve_order items <-> x ∈ items)
  /\ sublist (_dedupe_preserve_order items) items
  /\ (forall x, _dedupe_preserve_order (items ++ [x])
                = _dedupe_preserve_order items
                  ++ (if bool_decide (x ∈ items) then [] else [x]))
  /\ _dedupe_preserve_order (_dedupe_preserve_order items) = _dedupe_preserve_order items.
Proof.
  destruct (dedupe_props items) as (Hnd & Hel & Hsub).
  split; [done|]. split; [done|]. split; [done|]. split.
  - intros x. unfold _dedupe_preserve_order. rewrite dedupe_go_snoc.
    f_equal. if_ext. set_solver.
  - unfold _dedupe_preserve_order in *. apply dedupe_go_id; [done|set_solver].
Qed.

(** The head of the list is the head of the result: the first host
    named is the first target. *)
Lemma dedupe_head (it : string) (r : list string) :
  exists rest, _dedupe_preserve_order (it :: r) = it :: rest.
Proof.
  unfold _dedupe_preserve_order. cbn [dedupe_go].
  rewrite bool_decide_eq_false_2 by set_solver. by eexists.
Qed.

Lemma contains_char_app (c : ascii) (a b : string) :
  contains_char c (a +:+ b) = contains_char c a || contains_char c b.
Proof.
  induction a as [|d a IH]; [reflexivity|].
  rewrite sapp_cons. cbn [contains_char]. rewrite IH. by rewrite orb_assoc.
Qed.

Lemma contains_char_sep (c : ascii) (a b : string) :
  contains_char c (a +:+ String c b) = true.
Proof.
  rewrite contains_char_app. cbn [contains_char].
  rewrite Ascii.eqb_refl. apply orb_true_r.
Qed.

Lemma partition_on_first (sep : ascii) (a b : string) :
  contains_char sep a = false -> partition_on sep (a +:+ String sep b) = (a, b).
Proof.
  induction a as [|d a IH]; intros Ha.
  - rewrite sapp_nil_l. cbn [partition_on]. by rewrite Ascii.eqb_refl.
  - cbn [contains_char] in Ha. apply orb_false_iff in Ha as [Hd Ha].
    rewrite sapp_cons. cbn [partition_on]. rewrite Ascii.eqb_sym, Hd. by rewrite (IH Ha).
Qed.

Lemma split_on_fields (sep : ascii) (s : string) :
  Forall (fun f => contains_char sep f = false) (split_on sep s).
Proof.
  induction s as [|c s IH]; [by repeat constructor|]. cbn [split_on].
  destruct (Ascii.eqb c sep) eqn:Hc; [by constructor|].
  assert (Ascii.eqb sep c = false) as Hc' by (by rewrite Ascii.eqb_sym).
  destruct (split_on sep s) as [|f fs].
  - apply Forall_singleton. cbn [contains_char]. by rewrite Hc'.
  - apply Forall_cons in IH as [Hf Hfs]. apply Forall_cons. split; [|exact Hfs].
    cbn [contains_char]. by rewrite Hc', Hf.
Qed.

Lemma lstrip_contains (c : ascii) (s : string) :
  contains_char c s = false -> contains_char c (lstrip s) = false.
Proof.
  induction s as [|d s IH]; [done|]. cbn [lstrip]. destruct (is_pyspace d); [|done].
  cbn [contains_char]. intros [_ H]%orb_false_iff. by apply IH.
Qed.

Lemma rstrip_by_contains (f : ascii -> bool) (c : ascii) (s : string) :
  contains_char c s = false -> contains_char c (rstrip_by f s) = false.
Proof.
  induction s as [|d s IH]; [done|]. cbn [contains_char rstrip_by].
  intros [Hd Hs]%orb_false_iff. specialize (IH Hs).
  destruct (rstrip_by f s) as [|e t].
  - destruct (f d); [done|]. cbn [contains_char]. by rewrite Hd.
  - cbn [contains_char] in *. by rewrite Hd, IH.
Qed.

Lemma strip_contains (c : ascii) (s : string) :
  contains_char c s = false -> contains_char c (strip s) = false.
Proof. intros H. by apply lstrip_contains, rstrip_by_contains. Qed.

Lemma strip_idem (s : string) : strip (strip s) = strip s.
Proof.
  destruct (last_char (strip s)) as [c|] eqn:Hl.
  - pose proof (strip_last _ _ Hl) as Hc. unfold strip at 1. unfold rstrip.
    rewrite (rstrip_by_id _ _ _ Hl Hc). unfold strip. apply lstrip_idem.
  - destruct (strip s) as [|a t]; [reflexivity|]. by apply last_char_cons in Hl.
Qed.

Lemma split_hosts_clean (s : string) : Forall clean_host (split_hosts s).
Proof.
  unfold split_hosts. apply Forall_forall. intros h [Hne Hin]%list_elem_of_filter.
  apply list_elem_of_fmap in Hin as (f & -> & Hf).
  split; [done|]. split; [apply strip_idem|].
  apply strip_contains. pose proof (split_on_fields "," s) as Hall.
  rewrite Forall_forall in Hall. by apply Hall.
Qed.

(** [_normalize_hosts] yields clean hosts for every specification,
    however its lists are nested. *)
Theorem normalize_hosts_clean : forall spec, Forall clean_host (_normalize_hosts spec).
Proof.
  fix IH 1. intros [s|l].
  - apply split_hosts_clean.
  - cbn [_normalize_hosts]. induction l as [|sp r IHl]; [constructor|].
    apply Forall_app. split; [apply IH | apply IHl].
Qed.

(** The host list of a run is never empty and names no host twice; a
    host of it is the local machine, a host of a named environment or
    one given on the command line. *)
Theorem resolve_hosts_targets (env_map : gmap string host_spec)
    (env_names host_specs : list string) :
  resolve_hosts env_map env_names host_specs <> []
  /\ NoDup (resolve_hosts env_map env_names host_specs)
  /\ forall h, h ∈ resolve_hosts env_map env_names host_specs ->
       h = "@local" \/ h ∈ _merge_env_hosts env_map env_names \/ h ∈ host_specs.
Proof.
  unfold resolve_hosts.
  destruct (dedupe_props (_merge_env_hosts env_map env_names ++ host_specs))
    as (Hnd & Hel & _).
  destruct (_dedupe_preserve_order _) as [|h0 rest] eqn:Hd.
  - split; [done|]. split; [apply NoDup_singleton|].
    intros h ->%list_elem_of_singleton. by left.
  - split; [done|]. split; [done|].
    intros h Hin. apply Hel in Hin. apply elem_of_app in Hin. tauto.
Qed.

(** Environment names that are not in the table add no host. *)
Lemma merge_env_hosts_app (env_map : gmap string host_spec) (a b : list string) :
  _merge_env_hosts env_map (a ++ b)
  = _merge_env_hosts env_map a ++ _merge_env_hosts env_map b.
Proof.
  induction a as [|n a IH]; [reflexivity|]. simpl.
  destruct (env_map !! n); [|exact IH]. by rewrite IH, <- (assoc_L (++)).
Qed.

(** [_parse_host] reads [user@host:port] back into its three parts,
    whatever the defaults are; a specification without [@] and [:] takes
    user and port from the defaults. *)
Theorem parse_host_parts (u hn p : string) (n : Z) (du dp : option string) :
  contains_char "@" u = false -> contains_char ":" hn = false ->
  p <> "" -> py_int p = Some n ->
  _parse_host (u +:+ "@" +:+ hn +:+ ":" +:+ p) du dp = Ok (TRemote (Some u) hn (Some n))
  /\ forall h, h <> "@local" -> contains_char "@" h = false -> contains_char ":" h = false ->
       _parse_host h du dp
       = match dp with
         | None | Some "" => Ok (TRemote du h None)
         | Some q => match py_int q with
                     | Some m => Ok (TRemote du h (Some m))
                     | None => Raised (ValueError q)
                     end
         end.
Proof.
  intros Hu Hhn Hp Hn. split.
  - unfold _parse_host.
    assert (contains_char ":" (u +:+ "@" +:+ hn +:+ ":" +:+ p) = true) as Hc.
    { rewrite !contains_char_app. cbn [contains_char].
      rewrite Ascii.eqb_refl. by rewrite !orb_true_r. }
    destruct (String.eqb_spec (u +:+ "@" +:+ hn +:+ ":" +:+ p) "@local") as [E|_].
    { rewrite E in Hc. discriminate. }
    change (u +:+ "@" +:+ hn +:+ ":" +:+ p) with (u +:+ String "@" (hn +:+ String ":" p)).
    rewrite contains_char_sep, (partition_on_first _ _ _ Hu).
    rewrite contains_char_sep, (partition_on_first _ _ _ Hhn).
    destruct p as [|c p]; [done|]. by rewrite Hn.
  - intros h Hloc Hat Hcolon. unfold _parse_host.
    destruct (String.eqb_spec h "@local"); [done|].
    rewrite Hat, Hcolon. by destruct dp as [[|c q]|].
Qed.

Lemma parse_host_parts_witness :
  _parse_host ("deploy" +:+ "@" +:+ "10.0.0.5" +:+ ":" +:+ "2222") None (Some "22")
  = Ok (TRemote (Some "deploy") "10.0.0.5" (Some 2222%Z))
  /\ _parse_host "web1" None (Some "22") = Ok (TRemote None "web1" (Some 22%Z)).
Proof.
  destruct (parse_host_parts "deploy" "10.0.0.5" "2222" 2222 None (Some "22")
              eq_refl eq_refl ltac:(discriminate) eq_refl) as [H1 H2].
  split; [exact H1|].
  exact (H2 "web1" ltac:(discriminate) eq_refl eq_refl).
Defined.

(** ** The catalog the parser builds *)

Lemma catalog_wf_insert (tasks : gmap string Task) (t : Task) :
  catalog_wf tasks -> task_wf (name t) t -> catalog_wf (<[name t := t]> tasks).
Proof.
  intros Hc Ht k t'. destruct (decide (name t = k)) as [<-|Hne].
  - rewrite lookup_insert_eq. by intros [= <-].
  - rewrite lookup_insert_ne by done. apply Hc.
Qed.

Lemma parse_lines_wf (todo : list string) (tasks : gmap string Task) (cur : option Task) :
  catalog_wf tasks -> (forall t, cur = Some t -> task_wf (name t) t) ->
  forall res, parse_lines todo tasks cur = Ok res -> catalog_wf res.
Proof.
  revert tasks cur. induction todo as [|raw rest IH]; intros tasks cur Hc Hcur res.
  - by intros [= <-].
  - cbn [parse_lines].
    destruct (String.eqb (strip raw) "" || startswith "#" (strip raw)) eqn:Hblank;
      [by apply IH|].
    apply orb_false_iff in Hblank as [Hne Hhash]. apply String.eqb_neq in Hne.
    destruct (startswith "task " (strip raw)) eqn:Ht.
    { destruct (split_after_keyword "task" raw) as (r & -> & Hr & Hrne); [done..|].
      rewrite Hr. destruct (String.eqb_spec r ""); [done|].
      assert (task_wf (name (new_task r)) (new_task r)) as Hnew.
      { split; [done|]. split; [done|]. split; [done|]. split; [constructor|done]. }
      apply IH; [by apply (catalog_wf_insert tasks (new_task r))|by intros t [= <-]]. }
    destruct (String.eqb_spec (strip raw) "end") as [He|He]; [by apply IH|].
    destruct cur as [t|]; [|by apply IH].
    specialize (Hcur t eq_refl). pose proof Hcur as (Hn & Hk & Hs & Hl & Hd).
    destruct (startswith "describe " (strip raw)) eqn:Hdesc.
    + destruct (description t) as [d|] eqn:Hdt; [apply IH; [done|by intros ? [= <-]]|].
      destruct (split_after_keyword "describe" raw) as (r & -> & Hr & Hrne); [done..|].
      assert (task_wf (name t) (set_description (strip r) t)) as Hnew.
      { split; [done|]. split; [done|]. split; [done|]. split; [done|].
        simpl. intros d [= <-]. by rewrite Hr. }
      apply IH; [by apply (catalog_wf_insert tasks (set_description (strip r) t))|].
      by intros ? [= <-].
    + assert (task_wf (name t) (task_add (strip raw) t)) as Hnew.
      { split; [done|]. split; [done|]. split; [done|]. split; [|done].
        simpl. apply Forall_app. split; [done|]. apply Forall_singleton.
        split; [apply strip_idem|done]. }
      apply IH; [by apply (catalog_wf_insert tasks (task_add (strip raw) t))|].
      by intros ? [= <-].
Qed.

Lemma parse_pfyfile_text_wf (text : string) (tasks : gmap string Task) :
  parse_pfyfile_text text = Ok tasks -> catalog_wf tasks.
Proof.
  apply parse_lines_wf; [|done]. intros k t. by rewrite lookup_empty.
Qed.

(** Every task of the catalog is stored under its own name, and the
    name is not empty and has no blanks around it. *)
Theorem parse_catalog_keys (text : string) :
  match parse_pfyfile_text text with
  | Ok tasks => forall k t, tasks !! k = Some t -> name t = k /\ k <> "" /\ strip k = k
  | Raised _ => False
  end.
Proof.
  destruct (parse_lines_total (splitlines text) ∅ None) as [tasks Hp].
  unfold parse_pfyfile_text at 1. rewrite Hp.
  intros k t Hk. destruct (parse_pfyfile_text_wf _ _ Hp k t Hk) as (? & ? & ? & _). done.
Qed.

(** The body of every task of the catalog holds only statement lines:
    stripped, not empty, and neither a comment, a task header, an end
    marker nor a description line (a second description is dropped, not
    kept as a statement). *)
Theorem parse_body_lines (text : string) :
  match parse_pfyfile_text text with
  | Ok tasks => forall k t, tasks !! k = Some t -> Forall body_line (lines t)
  | Raised _ => False
  end.
Proof.
  destruct (parse_lines_total (splitlines text) ∅ None) as [tasks Hp].
  unfold parse_pfyfile_text at 1. rewrite Hp.
  intros k t Hk. destruct (parse_pfyfile_text_wf _ _ Hp k t Hk) as (_ & _ & _ & ? & _). done.
Qed.

(** ** Interpolation *)

Lemma interpolate_unbound_witness :
  _interpolate ∅ ("echo " +:+ "$" +:+ "USER" +:+ " done") {["x" := "1"]} [("y", "2")]
  = _interpolate ∅ "echo " {["x" := "1"]} [("y", "2")] +:+ ("$" +:+ "USER")
    +:+ _interpolate ∅ " done" {["x" := "1"]} [("y", "2")].
Proof. apply interpolate_unbound; reflexivity. Defined.

Lemma interpolate_task_env_over_environ_witness :
  _interpolate {["PORT" := "80"]} ("listen " +:+ "$" +:+ "PORT" +:+ ";") ∅
    [("PORT", "8080"); ("PORT", "9090")]
  = _interpolate {["PORT" := "80"]} "listen " ∅ [("PORT", "8080"); ("PORT", "9090")]
    +:+ "9090"
    +:+ _interpolate {["PORT" := "80"]} ";" ∅ [("PORT", "8080"); ("PORT", "9090")].
Proof. apply interpolate_task_env_over_environ; reflexivity. Defined.

(** [_interpolate] works use by use: at a use of a bound variable the
    output is the interpolation of the text before it, the value as it
    is, and the interpolation of the text after it.  This holds for the
    spelling [${name}] whatever follows the closing brace, and for the
    spelling [$name] when the text does not go on with a word character
    (which would belong to the name). *)
Theorem interpolate_value_verbatim (environ params : gmap string string)
    (extra_env : pydict) (pre n v : string) :
  is_name n = true ->
  merged_scope environ params extra_env !! n = Some v ->
  (forall post,
     _interpolate environ (pre +:+ "${" +:+ n +:+ "}" +:+ post) params extra_env
     = _interpolate environ pre params extra_env +:+ v
       +:+ _interpolate environ post params extra_env)
  /\ (forall post, ends_name post = true ->
        _interpolate environ (pre +:+ "$" +:+ n +:+ post) params extra_env
        = _interpolate environ pre params extra_env +:+ v
          +:+ _interpolate environ post params extra_env).
Proof.
  intros Hn Hv. split; intros post.
  - by apply interpolate_use_braced.
  - intros Hp. by apply interpolate_use.
Qed.

Lemma interpolate_value_verbatim_witness :
  _interpolate ∅ ("cd " +:+ "${" +:+ "dir" +:+ "}" +:+ "s/$x")
    {["dir" := "$x ${x}"; "x" := "1"]} []
  = _interpolate ∅ "cd " {["dir" := "$x ${x}"; "x" := "1"]} [] +:+ "$x ${x}"
    +:+ _interpolate ∅ "s/$x" {["dir" := "$x ${x}"; "x" := "1"]} []
  /\ _interpolate ∅ ("cd " +:+ "$" +:+ "dir" +:+ "/$x") {["dir" := "$x ${x}"; "x" := "1"]} []
     = _interpolate ∅ "cd " {["dir" := "$x ${x}"; "x" := "1"]} [] +:+ "$x ${x}"
       +:+ _interpolate ∅ "/$x" {["dir" := "$x ${x}"; "x" := "1"]} [].
Proof.
  assert (merged_scope ∅ {["dir" := "$x ${x}"; "x" := "1"]} [] !! "dir" = Some "$x ${x}")
    as Hv by reflexivity.
  destruct (interpolate_value_verbatim ∅ {["dir" := "$x ${x}"; "x" := "1"]} [] "cd " "dir"
              "$x ${x}" eq_refl Hv) as [Hbraced Hplain].
  split; [apply Hbraced | apply Hplain; reflexivity].
Defined.

(** ** Statements: exit codes, exceptions, arguments *)

(** A statement other than [copy] returns zero exactly when every
    process it ran exited with zero, and it only adds calls to the
    trace. *)
Theorem exec_line_reports (w : world) (x : exec_ctx) (line : string)
    (params : gmap string string) (task_env : pydict) (t t' : trace) (rc : Z) :
  (forall args,
     shlex_split (_interpolate (environ w) line params task_env) <> Ok ("copy" :: args)) ->
  _exec_line_fabric w x line params task_env t = (Ok rc, t') ->
  exists new, t' = t ++ new /\ (rc = 0%Z <-> processes_ok new).
Proof.
  intros Hcopy. unfold _exec_line_fabric.
  destruct (shlex_split _) as [[|op args]|e]; [| |discriminate].
  - intros [= <- <-]. exists []. rewrite app_nil_r. split; [done|]. split; [constructor|done].
  - apply exec_verb_reports. intros ->. by apply (Hcopy args).
Qed.

Lemma exec_line_reports_witness :
  exists new,
    [(CallLocal "mkdir -p /srv/app" ∅, Ok 0%Z); (CallLocal "chmod 0755 /srv/app" ∅, Ok 1%Z)]
    = [] ++ new
    /\ (1%Z = 0%Z <-> processes_ok new).
Proof.
  apply (exec_line_reports
           (world_of (fun cmd => if startswith "chmod " cmd then 1 else 0)%Z)
           (mkCtx None false None) "directory /srv/app mode=0755" ∅ []).
  - intros args H. vm_compute in H. discriminate H.
  - vm_compute. reflexivity.
Defined.

Section Raising.

Context (w : world) (x : exec_ctx) (params : gmap string string) (task_env : pydict).

Lemma raises_by_call_ret {A} (a : A) : raises_by_call (mret a : M A).
Proof. intros t e t' H. discriminate H. Qed.

Lemma raises_by_call_perform (c : call) : raises_by_call (perform w c).
Proof.
  intros t e t'. unfold perform. intros [= He <-]. exists t, c. by rewrite He.
Qed.

Lemma raises_by_call_run (cmd : string) : raises_by_call (run w x params task_env cmd).
Proof. unfold run. destruct (ctx_conn x); apply raises_by_call_perform. Qed.

Lemma raises_by_call_bind {A B} (m : M A) (f : A -> M B) :
  raises_by_call m -> (forall a, raises_by_call (f a)) -> raises_by_call (mbind f m).
Proof.
  intros Hm Hf t e t'. unfold mbind, M_bind, bind.
  destruct (m t) as [[a|e0] t1] eqn:Hmt.
  - apply Hf.
  - intros [= <- <-]. by apply (Hm t).
Qed.

Lemma raises_cleanly_by_call {A} (m : M A) : raises_by_call m -> raises_cleanly m.
Proof. intros Hm t e t' H. right. by apply (Hm t). Qed.

Lemma raises_cleanly_raise {A} (e : exn) : raises_cleanly (@raise A e).
Proof. intros t e' t' [= <- <-]. by left. Qed.

Ltac by_call :=
  repeat first
    [ apply raises_by_call_bind; [|intros ?]
    | apply raises_by_call_run
    | apply raises_by_call_perform
    | apply (raises_by_call_ret (A := Z))
    | match goal with
      | |- raises_by_call (if ?b then _ else _) => destruct b
      | |- raises_by_call (match ?o with Some _ => _ | None => _ end) => destruct o
      end ].

Lemma raises_cleanly_exec_verb (op : string) (args : list string) :
  raises_cleanly (exec_verb w x params task_env op args).
Proof.
  unfold exec_verb.
  repeat first
    [ apply raises_cleanly_raise
    | match goal with
      | |- raises_cleanly (if ?b then _ else _) => destruct b
      | |- raises_cleanly (match ?l with [] => _ | _ :: _ => _ end) => destruct l
      | |- raises_cleanly (match ?s with "" => _ | String _ _ => _ end) => destruct s
      | |- raises_cleanly (let (_, _) := ?p in _) => destruct p
      end
    | solve [apply raises_cleanly_by_call; by_call] ].
Qed.

End Raising.

(** When a statement raises, either no call was made for it (a
    malformed statement is refused before anything runs), or the
    exception is the one the last call raised, and nothing was called
    after it. *)
Theorem exec_line_raises_cleanly (w : world) (x : exec_ctx) (line : string)
    (params : gmap string string) (task_env : pydict) (t t' : trace) (e : exn) :
  _exec_line_fabric w x line params task_env t = (Raised e, t') ->
  t' = t \/ exists pre c, t' = pre ++ [(c, Raised e)].
Proof.
  unfold _exec_line_fabric. destruct (shlex_split _) as [[|op args]|e0].
  - discriminate.
  - apply raises_cleanly_exec_verb.
  - intros [= <- <-]. by left.
Qed.

Lemma exec_line_raises_cleanly_witness :
  ([] : trace) = []
  \/ exists pre c, ([] : trace) = pre ++ [(c, Raised (ValueError "Unknown service action: reload"))].
Proof.
  apply (exec_line_raises_cleanly demo_world (mkCtx None false None)
           "service reload nginx" ∅ []).
  vm_compute. reflexivity.
Defined.

Lemma dict_get_set (k k' v : string) (d : pydict) :
  dict_get k (dict_set k' v d) = if String.eqb k k' then Some v else dict_get k d.
Proof.
  induction d as [|[k0 v0] d IH]; cbn [dict_set dict_get].
  - by destruct (String.eqb k k').
  - destruct (String.eqb_spec k' k0) as [->|Hne]; cbn [dict_get].
    + by destruct (String.eqb k k0).
    + rewrite IH. destruct (String.eqb_spec k k0) as [->|]; [|done].
      destruct (String.eqb_spec k0 k'); [congruence|done].
Qed.

Lemma split_kv_go_spec (args pos : list string) (kv : pydict) (k : string) :
  (split_kv_go args pos kv).1
  = pos ++ filter (fun a => contains_char "=" a = false) args
  /\ dict_get k (split_kv_go args pos kv).2
     = from_option Some (dict_get k kv)
         (dict_get k (rev (map (partition_on "=")
                             (filter (fun a => contains_char "=" a = true) args)))).
Proof.
  revert pos kv. induction args as [|a r IH]; intros pos kv.
  - simpl. by rewrite app_nil_r.
  - cbn [split_kv_go]. destruct (contains_char "=" a) eqn:Ha.
    + destruct (partition_on "=" a) as [k0 v0] eqn:Hpa.
      destruct (IH pos (dict_set k0 v0 kv)) as [-> ->].
      rewrite filter_cons_False by congruence. rewrite filter_cons_True by done.
      split; [done|]. cbn [map rev]. rewrite Hpa.
      generalize (rev (map (partition_on "=")
                     (filter (fun a => contains_char "=" a = true) r))).
      intros l. rewrite dict_get_set. induction l as [|[k1 v1] l IHl]; cbn [dict_get app].
      * by destruct (String.eqb k k0).
      * by destruct (String.eqb k k1).
    + destruct (IH (pos ++ [a]) kv) as [-> ->].
      rewrite filter_cons_True by done. rewrite filter_cons_False by congruence.
      split; [by rewrite <- (assoc_L (++))|done].
Qed.

(** [_split_kv]: the positional arguments are the arguments without an
    equals sign, in their order; the value of a key is the one of the
    last argument that assigns it. *)
Theorem split_kv_spec (args : list string) (k : string) :
  (_split_kv args).1 = filter (fun a => contains_char "=" a = false) args
  /\ dict_get k (_split_kv args).2
     = dict_get k (rev (map (partition_on "=")
                          (filter (fun a => contains_char "=" a = true) args))).
Proof.
  unfold _split_kv. destruct (split_kv_go_spec args [] [] k) as [-> ->].
  split; [done|]. cbn [dict_get]. by destruct (dict_get k (rev _)).
Qed.

(** ** The worker of a target *)

Lemma session_closed_only_on_success_witness :
  closes (worker demo_world demo_cfg
            [("deploy", ["shell true"; "shell false"; "shell true"], ∅)] "u@h").2
  = match run_tasks demo_world (mkCtx (Some (mkConn "h" (Some "u") 22)) (sudo demo_cfg)
                                      (sudo_user demo_cfg))
            [("deploy", ["shell true"; "shell false"; "shell true"], ∅)] 0%Z
            [(CallOpen (mkConn "h" (Some "u") 22), Ok 0%Z)] with
    | (Ok (Continue _), _) => 1%nat
    | _ => 0%nat
    end.
Proof.
  apply (session_closed_only_on_success demo_world demo_cfg _ "u@h"
           (TRemote (Some "u") "h" None) (mkConn "h" (Some "u") 22) 0%Z);
    reflexivity.
Defined.

(** How the loop over the lines of one task ends. *)
Lemma run_lines_outcome (w : world) (x : exec_ctx) (params : gmap string string)
    (todo : list string) (task_env : pydict) (rc : Z) (t t' : trace) (f : flow) :
  run_lines w x params todo task_env rc t = (Ok f, t') ->
  t `prefix_of` t'
  /\ match f with
     | Continue c =>
         (c = rc \/ c = 0%Z)
         /\ forall before ln after,
              todo = before ++ ln :: after -> startswith "env " (strip ln) = false ->
              exists env1 t1 t2,
                t `prefix_of` t1
                /\ _exec_line_fabric w x ln params env1 t1 = (Ok 0%Z, t2)
                /\ t2 `prefix_of` t'
     | Return c =>
         c <> 0%Z
         /\ exists before ln after env1 t1,
              todo = before ++ ln :: after /\ startswith "env " (strip ln) = false
              /\ t `prefix_of` t1
              /\ (_exec_line_fabric w x ln params env1 t1 = (Ok c, t')
                  \/ c = 1%Z
                     /\ exists e, _exec_line_fabric w x ln params env1 t1 = (Raised e, t'))
     end.
Proof.
  revert task_env rc t. induction todo as [|ln rest IH]; intros task_env rc t.
  - intros [= <- <-]. split; [done|]. split; [by left|].
    intros before ln after Heq. by destruct before.
  - cbn [run_lines]. destruct (startswith "env " (strip ln)) eqn:Henv.
    + destruct (shlex_split (strip ln)); [|discriminate].
      intros H. apply IH in H as [Hpre H]. split; [done|]. destruct f as [c|c].
      * destruct H as [Hc Hall]. split; [done|]. intros before l after Heq Hl.
        destruct before as [|b before]; simpl in Heq; injection Heq as <- ->.
        -- congruence.
        -- by apply (Hall before l after).
      * destruct H as (Hc & before & l & after & env1 & t1 & -> & Hl & Hp & Hex).
        split; [done|]. by exists (ln :: before), l, after, env1, t1.
    + unfold mbind, M_bind, bind, catch.
      destruct (_exec_line_fabric w x ln params task_env t) as [[rc'|e] ta] eqn:Hex;
        destruct (off_session_exec_line w x ln params task_env _ _ _ Hex) as (new & -> & _).
      * destruct (Z.eqb_spec rc' 0) as [->|Hne].
        -- intros H. apply IH in H as [Hpre H].
           assert (t `prefix_of` t') as Ht by (etrans; [|exact Hpre]; by exists new).
           split; [exact Ht|]. destruct f as [c|c].
           ++ destruct H as [Hc Hall]. split; [destruct Hc; by right|].
              intros before l after Heq Hl.
              destruct before as [|b before]; simpl in Heq; injection Heq as <- ->.
              ** exists task_env, t, (t ++ new). by split.
              ** destruct (Hall before l after eq_refl Hl) as (env1 & t1 & t2 & H1 & H2 & H3).
                 exists env1, t1, t2. split; [|done]. etrans; [|exact H1]. by exists new.
           ++ destruct H as (Hc & before & l & after & env1 & t1 & -> & Hl & Hp & Hx).
              split; [done|]. exists (ln :: before), l, after, env1, t1.
              do 2 (split; [done|]). split; [|done]. etrans; [|exact Hp]. by exists new.
        -- intros [= <- <-]. split; [by exists new|]. split; [done|].
           exists [], ln, rest, task_env, t. do 3 (split; [done|]). by left.
      * intros [= <- <-]. split; [by exists new|]. split; [done|].
        exists [], ln, rest, task_env, t. do 3 (split; [done|]). right. split; [done|].
        by exists e.
Qed.

(** How the loop over the selected tasks ends. *)
Lemma run_tasks_outcome (w : world) (x : exec_ctx) (selected : list selection)
    (rc : Z) (t t' : trace) (f : flow) :
  run_tasks w x selected rc t = (Ok f, t') ->
  t `prefix_of` t'
  /\ match f with
     | Continue c =>
         (c = rc \/ c = 0%Z)
         /\ forall done before ln params,
              statement_at selected done before ln params ->
              exists task_env t1 t2,
                t `prefix_of` t1
                /\ _exec_line_fabric w x ln params task_env t1 = (Ok 0%Z, t2)
                /\ t2 `prefix_of` t'
     | Return c =>
         c <> 0%Z
         /\ exists done before ln params task_env t1,
              statement_at selected done before ln params
              /\ t `prefix_of` t1
              /\ (_exec_line_fabric w x ln params task_env t1 = (Ok c, t')
                  \/ c = 1%Z
                     /\ exists e, _exec_line_fabric w x ln params task_env t1 = (Raised e, t'))
     end.
Proof.
  revert rc t. induction selected as [|[[tname task_lines] params] rest IH]; intros rc t.
  - intros [= <- <-]. split; [done|]. split; [by left|].
    intros done before ln ps (_ & tn & after & later & Heq). by destruct done.
  - cbn [run_tasks]. unfold mbind, M_bind, bind.
    destruct (run_lines w x params task_lines [] rc t) as [[f1|e] ta] eqn:Hl; [|discriminate].
    apply run_lines_outcome in Hl as [Hpre1 Hl]. destruct f1 as [rc1|rc1].
    + destruct Hl as [Hrc1 Hall1]. intros H. apply IH in H as [Hpre2 H].
      split; [by etrans|]. destruct f as [c|c].
      * destruct H as [Hc Hall2]. split; [destruct Hrc1, Hc; subst; auto|].
        intros done before ln ps (Henv & tn & after & later & Heq).
        destruct done as [|d done]; simpl in Heq; simplify_eq.
        -- destruct (Hall1 before ln after eq_refl Henv) as (env1 & t1 & t2 & H1 & H2 & H3).
           exists env1, t1, t2. do 2 (split; [done|]). by etrans.
        -- destruct (Hall2 done before ln ps) as (env1 & t1 & t2 & H1 & H2 & H3).
           { split; [done|]. by exists tn, after, later. }
           exists env1, t1, t2. split; [by etrans|]. done.
      * destruct H as (Hc & done & before & ln & ps & env1 & t1 & Hat & Hp & Hx).
        split; [done|]. exists ((tname, task_lines, params) :: done), before, ln, ps, env1, t1.
        split; [|split; [by etrans|done]].
        destruct Hat as (Henv & tn & after & later & ->). split; [done|].
        by exists tn, after, later.
    + intros [= <- <-]. split; [done|].
      destruct Hl as (Hc & before & ln & after & env1 & t1 & -> & Henv & Hp & Hx).
      split; [done|]. exists [], before, ln, params, env1, t1.
      split; [|done]. split; [done|]. by exists tname, after, rest.
Qed.

(** The code of the task loop of a worker, started with code zero.
    When the loop runs to its end its code is zero, and every statement
    of every selected task was executed and returned zero.  When
    [run_host] returns from inside the loop, the code is not zero, and
    it is the code of a statement that returned it, or 1 for a
    statement that raised; the calls end with those of that statement.
    So a worker returns zero only if no statement returned a non-zero
    code or raised. *)
Theorem run_tasks_codes (w : world) (x : exec_ctx) (selected : list selection)
    (t t' : trace) (f : flow) :
  run_tasks w x selected 0%Z t = (Ok f, t') ->
  match f with
  | Continue c =>
      c = 0%Z
      /\ forall done before ln params,
           statement_at selected done before ln params ->
           exists task_env t1 t2,
             t `prefix_of` t1
             /\ _exec_line_fabric w x ln params task_env t1 = (Ok 0%Z, t2)
             /\ t2 `prefix_of` t'
  | Return c =>
      c <> 0%Z
      /\ exists done before ln params task_env t1,
           statement_at selected done before ln params
           /\ t `prefix_of` t1
           /\ (_exec_line_fabric w x ln params task_env t1 = (Ok c, t')
               \/ c = 1%Z
                  /\ exists e, _exec_line_fabric w x ln params task_env t1 = (Raised e, t'))
  end.
Proof.
  intros Hrun. apply run_tasks_outcome in Hrun as [_ H].
  destruct f as [c|c]; [|exact H]. destruct H as [Hc Hall]. split; [|exact Hall].
  by destruct Hc.
Qed.

Lemma run_tasks_codes_witness :
  run_tasks demo_world (mkCtx None false None)
    [("a", ["shell true"], ∅); ("b", ["shell exit 3"; "shell true"], ∅)] 0%Z []
  = (Ok (Return 3%Z), [(CallLocal "true" ∅, Ok 0%Z); (CallLocal "exit 3" ∅, Ok 3%Z)])
  /\ (3 <> 0)%Z
  /\ exists done before ln params task_env t1,
       statement_at [("a", ["shell true"], ∅); ("b", ["shell exit 3"; "shell true"], ∅)]
         done before ln params
       /\ [] `prefix_of` t1
       /\ (_exec_line_fabric demo_world (mkCtx None false None) ln params task_env t1
           = (Ok 3%Z, [(CallLocal "true" ∅, Ok 0%Z); (CallLocal "exit 3" ∅, Ok 3%Z)])
           \/ 3%Z = 1%Z
              /\ exists e,
                   _exec_line_fabric demo_world (mkCtx None false None) ln params task_env t1
                   = (Raised e,
                      [(CallLocal "true" ∅, Ok 0%Z); (CallLocal "exit 3" ∅, Ok 3%Z)])).
Proof.
  assert (run_tasks demo_world (mkCtx None false None)
            [("a", ["shell true"], ∅); ("b", ["shell exit 3"; "shell true"], ∅)] 0%Z []
          = (Ok (Return 3%Z),
             [(CallLocal "true" ∅, Ok 0%Z); (CallLocal "exit 3" ∅, Ok 3%Z)])) as Hrun
    by (vm_compute; reflexivity).
  split; [exact Hrun|]. exact (run_tasks_codes _ _ _ _ _ _ Hrun).
Defined.

(** The session of a worker.  For a remote target whose connection was
    built, the first call of the worker is the opening of the session
    and it opens no second one; when the opening raises, nothing else is
    called and the worker returns 1.  When the constructor of the
    connection refuses its arguments (a host text that still holds a
    user, with a user given), the worker raises that error and has
    called nothing.  For the local machine no session is opened. *)
Theorem worker_opens_once (w : world) (cfg : settings) (selected : list selection)
    (hspec : string) (spec : host_target) :
  _parse_host hspec (user cfg) (port cfg) = Ok spec ->
  match _c_for spec with
  | Ok (Some conn) =>
      exists rest,
        (worker w cfg selected hspec).2
        = (CallOpen conn, answer w [] (CallOpen conn)) :: rest
        /\ Forall (fun ev => forall c, ev.1 <> CallOpen c) rest
        /\ forall e, answer w [] (CallOpen conn) = Raised e ->
             rest = [] /\ (worker w cfg selected hspec).1 = Ok 1%Z
  | Ok None => Forall (fun ev => forall c, ev.1 <> CallOpen c) (worker w cfg selected hspec).2
  | Raised e => worker w cfg selected hspec = (Raised e, [])
  end.
Proof.
  intros Hspec.
  assert (forall new : trace, Forall (fun e => is_session e.1 = false) new ->
            Forall (fun ev : call * result Z => forall c, ev.1 <> CallOpen c) new) as Hoff.
  { intros new Hnew. eapply Forall_impl; [exact Hnew|]. intros [c r0] Hc c' E. simpl in *.
    subst c. discriminate Hc. }
  destruct (_c_for spec) as [[conn|]|e] eqn:Hconn.
  - destruct (answer w [] (CallOpen conn)) as [z|e] eqn:Hopen.
    + unfold worker.
      rewrite (run_host_unfold w cfg selected hspec spec (Some conn) [(CallOpen conn, Ok z)]
                 Hspec Hconn)
        by (unfold session_started; eauto).
      destruct (run_tasks _ _ _ _ _) as [r t] eqn:Hrun.
      destruct (off_session_run_tasks _ _ _ _ _ _ _ Hrun) as (new & -> & Hnew).
      apply Hoff in Hnew.
      destruct r as [[rc|rc]|e].
      * destruct (answer w _ (CallClose conn)); (eexists; split; [reflexivity|]);
          (split; [|done]); cbn [snd]; apply Forall_app; (split; [done|]);
          by apply Forall_singleton.
      * eexists. split; [reflexivity|]. by split.
      * eexists. split; [reflexivity|]. by split.
    + exists []. unfold worker, run_host.
      unfold mbind, M_bind, bind, lift, catch, perform. rewrite Hspec. simpl.
      rewrite Hconn. simpl. rewrite Hopen. simpl. repeat split; constructor.
  - unfold worker.
    rewrite (run_host_unfold w cfg selected hspec spec None [] Hspec Hconn) by done.
    destruct (run_tasks _ _ _ _ _) as [r t] eqn:Hrun.
    destruct (off_session_run_tasks _ _ _ _ _ _ _ Hrun) as (new & -> & Hnew).
    apply Hoff in Hnew. by destruct r as [[rc|rc]|e].
  - unfold worker, run_host. unfold mbind, M_bind, bind, lift. rewrite Hspec. simpl.
    by rewrite Hconn.
Qed.

Lemma worker_opens_once_witness :
  (exists rest,
     (worker refusing_world demo_cfg [("t", ["shell true"], ∅)] "u@h").2
     = (CallOpen (mkConn "h" (Some "u") 22),
        answer refusing_world [] (CallOpen (mkConn "h" (Some "u") 22))) :: rest
     /\ Forall (fun ev => forall c, ev.1 <> CallOpen c) rest
     /\ forall e, answer refusing_world [] (CallOpen (mkConn "h" (Some "u") 22)) = Raised e ->
          rest = []
          /\ (worker refusing_world demo_cfg [("t", ["shell true"], ∅)] "u@h").1 = Ok 1%Z)
  /\ worker demo_world demo_cfg [("t", ["shell true"], ∅)] "a@b@c"
     = (Raised (ValueError
                  "You supplied the user via both shorthand and kwarg! Please pick one."),
        []).
Proof.
  split.
  - exact (worker_opens_once refusing_world demo_cfg [("t", ["shell true"], ∅)] "u@h"
             (TRemote (Some "u") "h" None) eq_refl).
  - exact (worker_opens_once demo_world demo_cfg [("t", ["shell true"], ∅)] "a@b@c"
             (TRemote (Some "a") "b@c" None) eq_refl).
Defined.

(** ** The exit code of the dispatcher *)

(** The exit code of the dispatcher is the code of the first worker, in
    the order of completion, that did not return zero; so with several
    failing targets it depends on which of them finishes first. *)
Theorem aggregate_first_failure (before after : list (result Z)) (r : result Z) :
  Forall (fun r0 => r0 = Ok 0%Z) before -> rc_of r <> 0%Z ->
  aggregate (before ++ r :: after) = rc_of r.
Proof.
  intros Hb Hr. unfold aggregate. rewrite foldl_app.
  assert (foldl (fun rc_total r0 => if (rc_total =? 0)%Z then rc_of r0 else rc_total)
            0%Z before = 0%Z) as ->.
  { apply (proj2 (foldl_or_rc_zero before 0%Z)). by split. }
  cbn [foldl]. replace (0 =? 0)%Z with true by reflexivity.
  generalize dependent (rc_of r). intros c Hc. clear r Hb.
  induction after as [|r' after IH]; [reflexivity|].
  cbn [foldl]. destruct (Z.eqb_spec c 0); [done|]. exact IH.
Qed.

Lemma aggregate_first_failure_witness :
  aggregate ([Ok 0%Z] ++ Ok 3%Z :: [Raised IndexError; Ok 2%Z]) = rc_of (Ok 3%Z)
  /\ aggregate ([Ok 0%Z] ++ Ok 2%Z :: [Raised IndexError; Ok 3%Z]) = rc_of (Ok 2%Z).
Proof.
  split; apply aggregate_first_failure; (by repeat constructor) || (simpl; lia).
Defined.

(** ** The task file and its expansion *)

Lemma rstrip_by_prefix (f : ascii -> bool) (s : string) :
  exists r, s = rstrip_by f s +:+ r.
Proof.
  induction s as [|c s [r IH]]; [by exists ""|]. cbn [rstrip_by].
  destruct (rstrip_by f s) as [|d t].
  - destruct (f c); [by exists (String c s)|]. exists s. reflexivity.
  - exists r. rewrite sapp_cons. by rewrite <- IH.
Qed.

Lemma head_to_last_slash_prefix (p : string) :
  exists r, p = head_to_last_slash p +:+ r.
Proof.
  induction p as [|c p [r IH]]; [by exists ""|]. cbn [head_to_last_slash].
  destruct (head_to_last_slash p) as [|d t].
  - destruct (Ascii.eqb_spec c "/") as [->|_]; [by exists p|by exists (String c p)].
  - exists r. rewrite sapp_cons. by rewrite <- IH.
Qed.

Lemma dirname_prefix (p : string) : exists r, p = dirname p +:+ r.
Proof.
  unfold dirname. destruct (head_to_last_slash_prefix p) as [r Hr].
  destruct (all_slashes (head_to_last_slash p)); [by exists r|].
  destruct (rstrip_by_prefix (Ascii.eqb "/") (head_to_last_slash p)) as [r' Hr'].
  exists (r' +:+ r). rewrite <- sapp_assoc, <- Hr'. exact Hr.
Qed.

(** A directory is its own parent or longer than its parent. *)
Lemma dirname_shorter (p : string) :
  dirname p <> p -> (String.length (dirname p) < String.length p)%nat.
Proof.
  intros Hne. destruct (dirname_prefix p) as [r Hr].
  destruct r as [|c r]; [by rewrite sapp_nil_r in Hr|].
  rewrite Hr at 2. rewrite slength_app. simpl. lia.
Qed.

Lemma find_up_spec (exists_ : string -> bool) (fallback pf_hint : string)
    (fuel : nat) (cur : string) :
  (String.length cur < fuel)%nat ->
  exists path, find_up exists_ fallback pf_hint fuel cur = Some path
    /\ (exists_ path = true \/ path = fallback).
Proof.
  revert cur. induction fuel as [|f IH]; intros cur Hlt; [lia|].
  cbn [find_up]. destruct (exists_ (path_join cur pf_hint)) eqn:He; [eauto|].
  destruct (String.eqb_spec (dirname cur) cur) as [_|Hne]; [eauto|].
  apply IH. pose proof (dirname_shorter cur Hne). lia.
Qed.



Example find_pfyfile_walks_up :
  _find_pfyfile ∅ (fun p => String.eqb p "/srv/Pfyfile.pf") "/srv/app/bin" None
  = Some "/srv/Pfyfile.pf"
  /\ _find_pfyfile ∅ (fun _ => false) "/srv/app" None = Some "/srv/app/Pfyfile.pf"
  /\ _find_pfyfile {["PFY_FILE" := "/etc/pf/main.pf"]} (fun _ => false) "/srv" None
     = Some "/etc/pf/main.pf".
Proof. repeat split; vm_compute; reflexivity. Qed.

Lemma join_snoc (sep x : string) (l : list string) :
  join sep (l ++ [x]) = match l with [] => x | _ => join sep l +:+ sep +:+ x end.
Proof.
  induction l as [|a l IH]; [reflexivity|].
  change ((a :: l) ++ [x]) with (a :: (l ++ [x])). cbn [join].
  destruct l as [|b l]; [reflexivity|].
  change ((b :: l) ++ [x]) with (b :: (l ++ [x])) in *.
  rewrite IH. by rewrite !sapp_assoc.
Qed.

(** The text the loop returns is empty or ends with a newline. *)
Lemma joined_output_newline (out_lines : list string) :
  out_lines <> [] -> endswith_char "010" (joined_output out_lines) = true.
Proof.
  intros Hne. unfold joined_output, endswith_char.
  destruct (last out_lines) as [l|] eqn:Hl; [|by apply last_None in Hl].
  apply last_Some in Hl as [out' ->]. unfold endswith_char.
  destruct (last_char l) as [d|] eqn:Hd.
  - destruct (Ascii.eqb_spec "010" d) as [<-|Hnd].
    + rewrite sapp_nil_r, join_snoc.
      assert (l <> "") as Hln by (intros ->; discriminate).
      destruct out'; [by rewrite Hd|]. rewrite <- sapp_assoc, last_char_app by done.
      by rewrite Hd.
    + by rewrite last_char_app.
  - by rewrite last_char_app.
Qed.

Lemma expand_lines_text (self : string -> string -> inc_state -> inc_result)
    (fs : gmap string fsnode) (base : string) (todo : list string) (inside : bool)
    (out : list string) (st st' : inc_state) (text : string) :
  expand_lines self fs base todo inside out st = IncOk text st' ->
  exists out', text = joined_output out'.
Proof.
  revert inside out st. induction todo as [|raw rest IH]; intros inside out st.
  - intros [= <- _]. by eexists.
  - cbn [expand_lines].
    repeat first
      [ apply IH
      | discriminate
      | match goal with
        | |- (if ?b then _ else _) = _ -> _ => destruct b
        | |- match ?o with Some _ => _ | None => _ end = _ -> _ => destruct o
        | |- match ?n with FsFile _ => _ | FsDir => _ end = _ -> _ => destruct n
        | |- match ?r with IncOk _ _ => _ | _ => _ end = _ -> _ => destruct r
        end ].
Qed.

(** The expanded text of a source is empty or ends with a newline. *)
Theorem expand_includes_text_ends (depth : nat) (fs : gmap string fsnode)
    (text base out_text : string) (st st' : inc_state) :
  _expand_includes_from_text depth fs text base st = IncOk out_text st' ->
  out_text = "" \/ endswith_char "010" out_text = true.
Proof.
  destruct depth as [|d]; [discriminate|]. cbn [_expand_includes_from_text].
  intros [out' ->]%expand_lines_text.
  destruct out' as [|l out']; [by left|]. right. by apply joined_output_newline.
Qed.

Lemma expand_includes_text_ends_witness :
  ("# --- begin include: /p/tasks/a.pf ---" +:+ nl +:+ "# a" +:+ nl +:+ nl +:+
   "# --- end include: /p/tasks/a.pf ---" +:+ nl +:+ "task t" +:+ nl) = ""
  \/ endswith_char "010"
       ("# --- begin include: /p/tasks/a.pf ---" +:+ nl +:+ "# a" +:+ nl +:+ nl +:+
        "# --- end include: /p/tasks/a.pf ---" +:+ nl +:+ "task t" +:+ nl) = true.
Proof.
  apply (expand_includes_text_ends 3 fs_cycle
           ("include tasks/a.pf" +:+ nl +:+ "task t") "/p" _
           (mkInc {["/p/Pfyfile.pf"]} [] [])
           (mkInc {["/p/tasks/a.pf"; "/p/Pfyfile.pf"]}
                  ["[warn] include file not found: /p/tasks/b.pf"] ["/p/tasks/a.pf"])).
  vm_compute. reflexivity.
Defined.

Lemma expand_lines_plain (self : string -> string -> inc_state -> inc_result)
    (fs : gmap string fsnode) (base : string) (todo : list string) (inside : bool)
    (out : list string) (st : inc_state) :
  Forall (fun raw => startswith "include " (strip (rstrip_nl raw)) = false) todo ->
  expand_lines self fs base todo inside out st
  = IncOk (joined_output (out ++ map rstrip_nl todo)) st.
Proof.
  revert inside out. induction todo as [|raw rest IH]; intros inside out Hall.
  - simpl. by rewrite app_nil_r.
  - apply Forall_cons in Hall as [Hraw Hrest]. cbn [expand_lines map].
    rewrite Hraw, andb_false_r.
    replace (out ++ rstrip_nl raw :: map rstrip_nl rest)
      with ((out ++ [rstrip_nl raw]) ++ map rstrip_nl rest)
      by (by rewrite <- (assoc_L (++))).
    destruct (startswith "task " _); [by apply IH|].
    destruct (String.eqb _ "end"); by apply IH.
Qed.

(** A source without include lines is returned line by line; no file
    is read, nothing is warned about and the visited set stays as it
    is. *)
Theorem expand_includes_plain (depth : nat) (fs : gmap string fsnode)
    (text base : string) (st : inc_state) :
  Forall (fun raw => startswith "include " (strip (rstrip_nl raw)) = false)
         (splitlines text) ->
  _expand_includes_from_text (S depth) fs text base st
  = IncOk (joined_output (map rstrip_nl (splitlines text))) st.
Proof. intros H. cbn [_expand_includes_from_text]. by apply expand_lines_plain. Qed.

Lemma expand_includes_plain_witness :
  _expand_includes_from_text 1 fs_cycle PFY_EMBED "/p" (mkInc ∅ [] [])
  = IncOk (joined_output (map rstrip_nl (splitlines PFY_EMBED))) (mkInc ∅ [] []).
Proof.
  apply expand_includes_plain. vm_compute. repeat constructor.
Defined.

(** ** Both interpolators on plain text *)

(** Text without a dollar sign comes out of both interpolators as it
    went in, whatever the scope holds. *)
Theorem plain_text_unchanged (text : string) :
  contains_char "$" text = false ->
  (forall environ params extra_env, _interpolate environ text params extra_env = text)
  /\ (forall env, _substitute_vars text env = text).
Proof.
  intros H. split; [intros; by apply interpolate_no_dollar|].
  intros env. by apply substitute_vars_no_dollar.
Qed.

Lemma plain_text_unchanged_witness :
  (forall environ params extra_env,
     _interpolate environ "systemctl restart nginx" params extra_env
     = "systemctl restart nginx")
  /\ (forall env, _substitute_vars "systemctl restart nginx" env = "systemctl restart nginx").
Proof. apply plain_text_unchanged. reflexivity. Defined.

(** ** The interpreter of [pf_parser.py]: scope, conditions, bodies *)

Lemma dict_update_lookup (d other : pydict) (k : string) :
  dict_get k (dict_update d other)
  = from_option Some (dict_get k d) (dict_get k (rev other)).
Proof.
  unfold dict_update. induction other as [|[k' v] other IH] using rev_ind; [reflexivity|].
  rewrite foldl_app, rev_app_distr. cbn [foldl rev app dict_get fst snd].
  rewrite dict_get_set. by destruct (String.eqb k k').
Qed.

Lemma apply_defaults_lookup (params env : pydict) (k : string) :
  dict_get k (apply_defaults params env)
  = match dict_get k env with
    | Some v => Some v
    | None => dict_get k params
    end.
Proof.
  unfold apply_defaults. revert env. induction params as [|[k0 v0] params IH]; intros env.
  - simpl. by destruct (dict_get k env).
  - cbn [foldl fst snd]. rewrite IH. cbn [dict_get].
    destruct (dict_get k0 env) as [v1|] eqn:H0.
    + destruct (dict_get k env) eqn:Hk; [done|].
      destruct (String.eqb_spec k k0) as [->|]; [congruence|done].
    + rewrite dict_get_set. destruct (String.eqb_spec k k0) as [->|]; [by rewrite H0|].
      done.
Qed.

(** The scope of a task run: an argument of the invocation wins over
    the global environment, and both win over the default of a declared
    parameter; of several defaults for one name the first counts. *)
Theorem task_scope_lookup (current_env kwargs : pydict) (task : task_def) (k : string) :
  dict_get k (task_scope current_env kwargs task)
  = match dict_get k (rev kwargs) with
    | Some v => Some v
    | None => match dict_get k current_env with
              | Some v => Some v
              | None => dict_get k (td_params task)
              end
    end.
Proof.
  unfold task_scope. rewrite apply_defaults_lookup, dict_update_lookup.
  by destruct (dict_get k (rev kwargs)).
Qed.

(** Conditions: a variable exists when the scope binds it to a string
    that is not empty; [==] and [!=] compare the value, the empty string
    for a missing variable, and are each other's negation; these
    conditions run nothing, and a command condition runs its command
    once and holds exactly when the status is zero. *)
Theorem evaluate_condition_spec (sw : shell_world) (env : pydict) (log : syslog)
    (v expected command : string) :
  ((_evaluate_condition sw (CondVarExists (Some v)) env log).1 = true
   <-> exists s, dict_get v env = Some s /\ s <> "")
  /\ ((_evaluate_condition sw (CondVarEquals (Some v) "==" expected) env log).1 = true
      <-> default "" (dict_get v env) = expected)
  /\ (_evaluate_condition sw (CondVarEquals (Some v) "!=" expected) env log).1
     = negb (_evaluate_condition sw (CondVarEquals (Some v) "==" expected) env log).1
  /\ (forall c, (forall cmd, c <> CondCommand cmd) ->
        (_evaluate_condition sw c env log).2 = log)
  /\ _evaluate_condition sw (CondCommand command) env log
     = ((system_status sw log (_substitute_vars command env) =? 0)%Z,
        log ++ [(_substitute_vars command env,
                 system_status sw log (_substitute_vars command env))]).
Proof.
  split; [|split; [|split; [|split]]].
  - cbn [_evaluate_condition fst]. destruct (dict_get v env) as [[|c s]|]; simpl.
    + split; [done|]. by intros (s & [= <-] & ?).
    + split; [|done]. intros _. by eexists.
    + split; [done|]. by intros (s & [=] & _).
  - cbn [_evaluate_condition fst]. replace (String.eqb "==" "==") with true by reflexivity.
    apply String.eqb_eq.
  - reflexivity.
  - intros c Hc. destruct c as [[?|] ? ?|[?|]|cmd|]; try reflexivity. by destruct (Hc cmd).
  - reflexivity.
Qed.

Lemma evaluate_condition_spec_witness :
  (_evaluate_condition (mkShell (fun _ _ => 1%Z) true) CondOther [("x", "")] []).2 = [].
Proof.
  destruct (evaluate_condition_spec (mkShell (fun _ _ => 1%Z) true) [("x", "")] []
              "x" "1" "true") as (_ & _ & _ & H & _).
  apply H. intros cmd. discriminate.
Defined.

Lemma exec_body_fix (sw : shell_world) (env : pydict) (items : list node) (log : syslog) :
  (fix body (items : list node) (log : syslog) : syslog :=
     match items with
     | [] => log
     | i :: r => body r (exec_item sw env i log)
     end) items log
  = _execute_body sw items env log.
Proof.
  unfold _execute_body. revert log. induction items as [|i r IH]; intros log; [done|].
  cbn [foldl]. apply IH.
Qed.

Lemma evaluate_condition_appends (sw : shell_world) (c : cond) (env : pydict)
    (log : syslog) :
  exists new, (_evaluate_condition sw c env log).2 = log ++ new.
Proof.
  destruct c as [[v|] op e|[v|]|cmd|]; cbn [_evaluate_condition os_system snd];
    try (exists []; by rewrite app_nil_r).
  by eexists.
Qed.

Lemma run_sync_appends (sw : shell_world) (opts : gmap string pyval) (env : pydict)
    (log : syslog) :
  exists new, run_sync sw opts env log = log ++ new.
Proof.
  unfold run_sync. destruct (_execute_sync _ _ _); cbn [os_system snd];
    try (exists []; by rewrite app_nil_r).
  by eexists.
Qed.

(** An item of a body only adds to the log of what ran. *)
Lemma exec_item_appends (sw : shell_world) (env : pydict) :
  forall (item : node) (log : syslog), exists new, exec_item sw env item log = log ++ new.
Proof.
  fix IH 1. intros item log.
  assert (forall items : list node,
            Forall (fun i => forall log0, exists new, exec_item sw env i log0 = log0 ++ new)
                   items ->
            forall log0, exists new,
              (fix body (items : list node) (log : syslog) : syslog :=
                 match items with
                 | [] => log
                 | i :: r => body r (exec_item sw env i log)
                 end) items log0 = log0 ++ new) as Hbody.
  { induction 1 as [|i r Hi _ IHr]; intros log0.
    - exists []. by rewrite app_nil_r.
    - destruct (Hi log0) as [n1 ->]. destruct (IHr (log0 ++ n1)) as [n2 ->].
      exists (n1 ++ n2). by rewrite (assoc_L (++)). }
  destruct item as [t|c|o|c ib eb|v it b| |[first|]];
    try (exists []; cbn [exec_item]; by rewrite app_nil_r).
  - cbn [exec_item os_system snd]. by eexists.
  - apply run_sync_appends.
  - destruct first as [t|c|o|c ib eb|v it b| |f];
      try (exists []; cbn [exec_item]; by rewrite app_nil_r).
    + cbn [exec_item os_system snd]. by eexists.
    + apply run_sync_appends.
    + cbn [exec_item].
      destruct (evaluate_condition_appends sw c env log) as [n0 Hn0].
      destruct (_evaluate_condition sw c env log) as [holds log1]. cbn [snd] in Hn0.
      subst log1.
      assert (Forall (fun i => forall log0, exists new,
                        exec_item sw env i log0 = log0 ++ new) ib) as Hib.
      { clear -IH. induction ib as [|i r IHr]; constructor; [apply IH | exact IHr]. }
      assert (Forall (fun i => forall log0, exists new,
                        exec_item sw env i log0 = log0 ++ new) eb) as Heb.
      { clear -IH. induction eb as [|i r IHr]; constructor; [apply IH | exact IHr]. }
      destruct holds.
      * destruct (Hbody ib Hib (log ++ n0)) as [n1 ->].
        exists (n0 ++ n1). by rewrite (assoc_L (++)).
      * destruct (Hbody eb Heb (log ++ n0)) as [n1 ->].
        exists (n0 ++ n1). by rewrite (assoc_L (++)).
Qed.

Lemma execute_body_appends (sw : shell_world) (body : list node) (env : pydict)
    (log : syslog) :
  exists new, _execute_body sw body env log = log ++ new.
Proof.
  unfold _execute_body. revert log. induction body as [|i r IH]; intros log.
  - exists []. by rewrite app_nil_r.
  - cbn [foldl]. destruct (exec_item_appends sw env i log) as [n1 ->].
    destruct (IH (log ++ n1)) as [n2 ->]. exists (n1 ++ n2). by rewrite (assoc_L (++)).
Qed.

(** Every shell statement of a body is run, whatever stands before it
    in the body (shell statements, conditionals, sync statements or
    anything else) and whatever those returned: its command, after
    substitution, is handed to [os.system] right after the items before
    it, and what the rest of the body does comes after it in the log; a
    body only adds to the log, and does not stop at a failing command.
    For a body of shell statements alone, the commands run are exactly
    its commands, in order. *)
Theorem execute_body_runs_every_shell (sw : shell_world) (env : pydict) (log : syslog) :
  (forall (pre post : list node) (item : node) (c : string),
     shell_command item = Some c ->
     exists after,
       _execute_body sw (pre ++ item :: post) env log
       = _execute_body sw pre env log
         ++ (_substitute_vars c env,
             system_status sw (_execute_body sw pre env log) (_substitute_vars c env))
            :: after)
  /\ (forall body, exists new, _execute_body sw body env log = log ++ new)
  /\ (forall commands,
        map fst (_execute_body sw (map NShell commands) env log)
        = map fst log ++ map (fun c => _substitute_vars c env) commands).
Proof.
  split; [|split].
  - intros pre post item c Hc. unfold _execute_body at 1. rewrite foldl_app. cbn [foldl].
    fold (_execute_body sw pre env log).
    set (before := _execute_body sw pre env log).
    assert (exec_item sw env item before
            = before ++ [(_substitute_vars c env,
                          system_status sw before (_substitute_vars c env))]) as ->.
    { destruct item as [| | | | | |[[]|]]; try discriminate Hc;
        injection Hc as ->; reflexivity. }
    fold (_execute_body sw post env
            (before ++ [(_substitute_vars c env,
                         system_status sw before (_substitute_vars c env))])).
    destruct (execute_body_appends sw post env
                (before ++ [(_substitute_vars c env,
                             system_status sw before (_substitute_vars c env))]))
      as [after ->].
    exists after. by rewrite <- (assoc_L (++)).
  - intros body. apply execute_body_appends.
  - intros commands. unfold _execute_body. revert log.
    induction commands as [|c r IH]; intros log.
    + simpl. by rewrite app_nil_r.
    + cbn [map foldl exec_item]. rewrite IH. unfold os_system. cbn [snd].
      rewrite map_app. cbn [map fst]. by rewrite <- (assoc_L (++)).
Qed.

Lemma execute_body_runs_every_shell_witness :
  exists after,
    _execute_body (mkShell (fun _ cmd => if String.eqb cmd "false" then 1 else 0)%Z true)
      ([NShell "false";
        NTree (Some (NIf (CondCommand "false") [NShell "echo yes"] [NShell "echo no"]));
        NSync sync_example_opts]
       ++ NTree (Some (NShell "echo $x")) :: [NShell "true"])
      [("x", "1")] []
    = [("false", 1%Z); ("false", 1%Z); ("echo no", 0%Z);
       ("rsync -a -v --delete -e ssh -p 22 a/ u@h:b/", 0%Z)]
      ++ ("echo 1", 0%Z) :: after.
Proof.
  destruct (execute_body_runs_every_shell
              (mkShell (fun _ cmd => if String.eqb cmd "false" then 1 else 0)%Z true)
              [("x", "1")] []) as [Hrun _].
  exact (Hrun [NShell "false";
               NTree (Some (NIf (CondCommand "false") [NShell "echo yes"] [NShell "echo no"]));
               NSync sync_example_opts]
              [NShell "true"] (NTree (Some (NShell "echo $x"))) "echo $x" eq_refl).
Defined.

(** A body of inert items runs nothing: a loop never runs its body,
    whether it stands as a tuple or inside a tree, and a conditional
    runs only inside a tree. *)
Theorem execute_body_inert (sw : shell_world) (body : list node) (env : pydict)
    (log : syslog) :
  Forall (fun item => inert item = true) body -> _execute_body sw body env log = log.
Proof.
  unfold _execute_body. induction 1 as [|item body Hi _ IH]; [reflexivity|].
  cbn [foldl]. rewrite <- IH at 2. f_equal.
  destruct item as [| | | | | |[[]|]]; try discriminate Hi; reflexivity.
Qed.

Lemma execute_body_inert_witness :
  _execute_body (mkShell (fun _ _ => 0%Z) true)
    [NFor "h" ["a"; "b"] [NShell "echo $h"];
     NTree (Some (NFor "h" ["a"] [NTree (Some (NShell "echo $h"))]));
     NIf (CondCommand "true") [NShell "echo yes"] [];
     NDescribe "nothing runs here"]
    [] []
  = [].
Proof. apply execute_body_inert. repeat constructor. Defined.

(** A conditional inside a tree evaluates its condition once and then
    runs the one body the outcome selects. *)
Lemma execute_if_one_branch (sw : shell_world) (c : cond) (if_body else_body : list node)
    (env : pydict) (log : syslog) :
  exec_item sw env (NTree (Some (NIf c if_body else_body))) log
  = let (holds, log1) := _evaluate_condition sw c env log in
    _execute_body sw (if holds then if_body else else_body) env log1.
Proof.
  cbn [exec_item]. destruct (_evaluate_condition sw c env log) as [[] log1];
    apply exec_body_fix.
Qed.

Example execute_task_demo :
  execute_task (mkShell (fun _ cmd => if String.eqb cmd "test -d /srv" then 1 else 0)%Z true)
    {["deploy" := mkTaskDef [("target", "staging"); ("tag", "latest")]
        [NTree (Some (NShell "echo ${target} $tag"));
         NShell "false";
         NTree (Some (NIf (CondCommand "test -d /srv")
                          [NTree (Some (NShell "echo there"))]
                          [NTree (Some (NShell "mkdir -p /srv"))]));
         NTree (Some (NIf (CondVarEquals (Some "target") "==" "prod")
                          [NShell "echo prod"] []))]]}
    [("tag", "v1")] "deploy" [("target", "prod")] []
  = [("echo prod v1", 0%Z); ("false", 0%Z); ("test -d /srv", 1%Z);
     ("mkdir -p /srv", 0%Z); ("echo prod", 0%Z)].
Proof. vm_compute. reflexivity. Qed.


